(** * PaymentSubscription: a shallow embedding of the recurring-billing contract

    Source: [contracts/src/PaymentSubscription.sol], with [lib/SafeERC20.sol],
    [lib/Ownable.sol], [lib/Context.sol] and [lib/ReentrancyGuard.sol].
    [lib/IBEP20.sol], [lib/Pausable.sol] and [IPaymentSubscription.sol] are
    imported by the contract but are not among the sources: the token
    interface is the [Ledger] class below, the events are read off the [emit]
    statements, and the pause switch is the usual boolean.

    Modelling conventions.
    - [uint256] values are integers in [Z]; Solidity 0.8 arithmetic is checked,
      so [+] and [-] on them go through [checked_add] / [checked_sub], which
      revert instead of wrapping.
    - [address] and [bytes32] are naturals in [N]; [address(0)] is [0].
    - A Solidity [mapping] is a [gmap] read with the type's zero value as the
      default ([plan_at], [sub_at], ...).
    - A call either returns [Ok] with the new world or [Revert]s, in which
      case nothing of the world changes (the caller keeps the old one).
    - The token contracts and the native-currency transfers are external: they
      are the methods of the [Ledger] class, over an abstract ledger state.
      An external call hands control to code the engine does not know:
      a view may revert; a transfer may revert, may answer with data that
      does not decode, and may call back into the engine before it returns.
      What the callee does while it has control is part of the ledger's
      answer (a list of [Act]s), and the engine runs it before it goes on,
      reading its storage again afterwards as the contract does through its
      storage pointers.  The [nonReentrant] guard of [lib/ReentrancyGuard.sol]
      is the flag [_status] of the world. *)

From stdpp Require Import base numbers option list gmap strings.

Local Open Scope string_scope.
Local Open Scope list_scope.
Local Open Scope Z_scope.

(** ** Basic types *)

Abbreviation address := N (only parsing).
Abbreviation bytes32 := N (only parsing).

Definition MAX_UINT256 : Z := Eval vm_compute in 2 ^ 256 - 1.
Definition MAX_UINT32 : Z := Eval vm_compute in 2 ^ 32 - 1.

(** [1 days] *)
Definition DAY : Z := 86400.

(** [MAX_BATCH_SIZE] *)
Definition MAX_BATCH_SIZE : nat := 100.

(** ** Transactions that may revert *)

Inductive Result (A : Type) : Type :=
| Ok (a : A)
| Revert (reason : string).
Arguments Ok {A} a.
Arguments Revert {A} reason.

Definition bind {A B : Type} (c : Result A) (k : A → Result B) : Result B :=
  match c with
  | Ok a => k a
  | Revert m => Revert m
  end.

Notation "'let!' x ':=' c 'in' k" := (bind c (fun x => k))
  (at level 10, x pattern, c at level 100, k at level 200).

Definition require (b : bool) (reason : string) : Result unit :=
  if b then Ok tt else Revert reason.

Definition is_ok {A : Type} (r : Result A) : bool :=
  match r with Ok _ => true | Revert _ => false end.

(** Checked arithmetic of Solidity 0.8: overflow and underflow panic. *)
Definition checked_add (a b : Z) : Result Z :=
  if bool_decide (a + b ≤ MAX_UINT256) then Ok (a + b) else Revert "Panic(0x11)".

Definition checked_sub (a b : Z) : Result Z :=
  if bool_decide (b ≤ a) then Ok (a - b) else Revert "Panic(0x11)".

(** ABI decoding rejects an argument outside its declared integer type;
    [msg.value] is a [uint256] as well. *)
Definition abi_uint (bound : Z) (x : Z) : Result unit :=
  require (bool_decide (0 ≤ x ≤ bound)) "abi: value out of range".

(** ** Enums *)

Inductive SubscriptionStatus : Type :=
| Active
| Paused
| Canceled
| Expired.

Inductive ChargeFailReason : Type :=
| Success
| NotDue
| InsufficientBalance
| NotApproved
| ReasonPaused
| ReasonCanceled
| PlanInactive.

Global Instance SubscriptionStatus_eq_dec : EqDecision SubscriptionStatus.
Proof. solve_decision. Defined.

Global Instance ChargeFailReason_eq_dec : EqDecision ChargeFailReason.
Proof. solve_decision. Defined.

(** [uint8(status)] *)
Definition status_uint8 (s : SubscriptionStatus) : Z :=
  match s with Active => 0 | Paused => 1 | Canceled => 2 | Expired => 3 end.

(** [uint8(reason)] *)
Definition reason_uint8 (r : ChargeFailReason) : Z :=
  match r with
  | Success => 0 | NotDue => 1 | InsufficientBalance => 2 | NotApproved => 3
  | ReasonPaused => 4 | ReasonCanceled => 5 | PlanInactive => 6
  end.

(** ** Structs *)

Module Plan.
Record t : Type := mk {
  id : bytes32;
  amount : Z;
  token : address;
  interval : Z;
  merchant : address;
  active : bool;
  subscriberCount : Z;
  createdAt : Z
}.
Definition zero : t := mk 0%N 0 0%N 0 0%N false 0 0.
Definition set_active (b : bool) (p : t) : t :=
  mk (id p) (amount p) (token p) (interval p) (merchant p) b
     (subscriberCount p) (createdAt p).
Definition set_subscriberCount (n : Z) (p : t) : t :=
  mk (id p) (amount p) (token p) (interval p) (merchant p) (active p)
     n (createdAt p).
End Plan.

Module Subscription.
Record t : Type := mk {
  id : bytes32;
  planId : bytes32;
  subscriber : address;
  status : SubscriptionStatus;
  startTime : Z;
  currentPeriodStart : Z;
  currentPeriodEnd : Z;
  cancelAtPeriodEnd : bool;
  pausedAt : Z;
  paymentCount : Z
}.
Definition zero : t := mk 0%N 0%N 0%N Active 0 0 0 false 0 0.
Definition set_status (x : SubscriptionStatus) (s : t) : t :=
  mk (id s) (planId s) (subscriber s) x (startTime s) (currentPeriodStart s)
     (currentPeriodEnd s) (cancelAtPeriodEnd s) (pausedAt s) (paymentCount s).
Definition set_currentPeriodStart (x : Z) (s : t) : t :=
  mk (id s) (planId s) (subscriber s) (status s) (startTime s) x
     (currentPeriodEnd s) (cancelAtPeriodEnd s) (pausedAt s) (paymentCount s).
Definition set_currentPeriodEnd (x : Z) (s : t) : t :=
  mk (id s) (planId s) (subscriber s) (status s) (startTime s)
     (currentPeriodStart s) x (cancelAtPeriodEnd s) (pausedAt s) (paymentCount s).
Definition set_cancelAtPeriodEnd (x : bool) (s : t) : t :=
  mk (id s) (planId s) (subscriber s) (status s) (startTime s)
     (currentPeriodStart s) (currentPeriodEnd s) x (pausedAt s) (paymentCount s).
Definition set_pausedAt (x : Z) (s : t) : t :=
  mk (id s) (planId s) (subscriber s) (status s) (startTime s)
     (currentPeriodStart s) (currentPeriodEnd s) (cancelAtPeriodEnd s) x
     (paymentCount s).
Definition set_paymentCount (x : Z) (s : t) : t :=
  mk (id s) (planId s) (subscriber s) (status s) (startTime s)
     (currentPeriodStart s) (currentPeriodEnd s) (cancelAtPeriodEnd s)
     (pausedAt s) x.
End Subscription.

Module Payment.
Record t : Type := mk {
  orderId : bytes32;
  payer : address;
  merchant : address;
  amount : Z;
  token : address;
  timestamp : Z;
  paid : bool
}.
Definition zero : t := mk 0%N 0%N 0%N 0 0%N 0 false.
End Payment.

Module PaymentRecord.
Record t : Type := mk {
  amount : Z;
  timestamp : Z;
  periodStart : Z;
  periodEnd : Z
}.
End PaymentRecord.

(** ** Events *)

Inductive Event : Type :=
| OwnershipTransferred (previousOwner newOwner : address)
| TokenAdded (token : address)
| TokenRemoved (token : address)
| ContractPaused (account : address)
| ContractUnpaused (account : address)
| PlanCreated (planId : bytes32) (merchant : address) (amount : Z)
    (token : address) (interval : Z)
| PlanUpdated (planId : bytes32) (active : bool)
| SubscriptionCreated (subscriptionId planId : bytes32) (subscriber : address)
    (startTime : Z)
| SubscriptionStatusChanged (subscriptionId : bytes32) (oldStatus newStatus : Z)
| SubscriptionCanceled (subscriptionId : bytes32) (timestamp : Z)
    (immediately : bool)
| PaymentExecuted (subscriptionId : bytes32) (amount timestamp periodStart
    periodEnd : Z)
| PaymentFailed (subscriptionId : bytes32) (reason : Z)
| Refunded (subscriptionId : bytes32) (recipient : address) (amount : Z)
| PaymentReceived (orderId : bytes32) (payer merchant : address) (amount : Z)
    (token : address).

(** ** Contract storage *)

Record State : Type := mkState {
  plans : gmap N Plan.t;
  planIds : list N;
  subscriptions : gmap N Subscription.t;
  subscriptionIds : list N;
  userSubscriptions : gmap N (list N);
  planSubscriptions : gmap N (list N);
  subscriptionPayments : gmap N (list PaymentRecord.t);
  payments : gmap N Payment.t;
  supportedTokens : list N;
  tokenSupported : gmap N bool;
  _subscriptionNonce : Z;
  _owner : address;
  _paused : bool
}.

Definition set_plans (x : gmap N Plan.t) (s : State) : State :=
  mkState x (planIds s) (subscriptions s) (subscriptionIds s)
    (userSubscriptions s) (planSubscriptions s) (subscriptionPayments s)
    (payments s) (supportedTokens s) (tokenSupported s) (_subscriptionNonce s)
    (_owner s) (_paused s).

Definition set_planIds (x : list N) (s : State) : State :=
  mkState (plans s) x (subscriptions s) (subscriptionIds s)
    (userSubscriptions s) (planSubscriptions s) (subscriptionPayments s)
    (payments s) (supportedTokens s) (tokenSupported s) (_subscriptionNonce s)
    (_owner s) (_paused s).

Definition set_subscriptions (x : gmap N Subscription.t) (s : State) : State :=
  mkState (plans s) (planIds s) x (subscriptionIds s)
    (userSubscriptions s) (planSubscriptions s) (subscriptionPayments s)
    (payments s) (supportedTokens s) (tokenSupported s) (_subscriptionNonce s)
    (_owner s) (_paused s).

Definition set_subscriptionIds (x : list N) (s : State) : State :=
  mkState (plans s) (planIds s) (subscriptions s) x
    (userSubscriptions s) (planSubscriptions s) (subscriptionPayments s)
    (payments s) (supportedTokens s) (tokenSupported s) (_subscriptionNonce s)
    (_owner s) (_paused s).

Definition set_userSubscriptions (x : gmap N (list N)) (s : State) : State :=
  mkState (plans s) (planIds s) (subscriptions s) (subscriptionIds s)
    x (planSubscriptions s) (subscriptionPayments s)
    (payments s) (supportedTokens s) (tokenSupported s) (_subscriptionNonce s)
    (_owner s) (_paused s).

Definition set_planSubscriptions (x : gmap N (list N)) (s : State) : State :=
  mkState (plans s) (planIds s) (subscriptions s) (subscriptionIds s)
    (userSubscriptions s) x (subscriptionPayments s)
    (payments s) (supportedTokens s) (tokenSupported s) (_subscriptionNonce s)
    (_owner s) (_paused s).

Definition set_subscriptionPayments (x : gmap N (list PaymentRecord.t))
    (s : State) : State :=
  mkState (plans s) (planIds s) (subscriptions s) (subscriptionIds s)
    (userSubscriptions s) (planSubscriptions s) x
    (payments s) (supportedTokens s) (tokenSupported s) (_subscriptionNonce s)
    (_owner s) (_paused s).

Definition set_payments (x : gmap N Payment.t) (s : State) : State :=
  mkState (plans s) (planIds s) (subscriptions s) (subscriptionIds s)
    (userSubscriptions s) (planSubscriptions s) (subscriptionPayments s)
    x (supportedTokens s) (tokenSupported s) (_subscriptionNonce s)
    (_owner s) (_paused s).

Definition set_supportedTokens (x : list N) (s : State) : State :=
  mkState (plans s) (planIds s) (subscriptions s) (subscriptionIds s)
    (userSubscriptions s) (planSubscriptions s) (subscriptionPayments s)
    (payments s) x (tokenSupported s) (_subscriptionNonce s)
    (_owner s) (_paused s).

Definition set_tokenSupported (x : gmap N bool) (s : State) : State :=
  mkState (plans s) (planIds s) (subscriptions s) (subscriptionIds s)
    (userSubscriptions s) (planSubscriptions s) (subscriptionPayments s)
    (payments s) (supportedTokens s) x (_subscriptionNonce s)
    (_owner s) (_paused s).

Definition set_subscriptionNonce (x : Z) (s : State) : State :=
  mkState (plans s) (planIds s) (subscriptions s) (subscriptionIds s)
    (userSubscriptions s) (planSubscriptions s) (subscriptionPayments s)
    (payments s) (supportedTokens s) (tokenSupported s) x
    (_owner s) (_paused s).

Definition set_owner (x : address) (s : State) : State :=
  mkState (plans s) (planIds s) (subscriptions s) (subscriptionIds s)
    (userSubscriptions s) (planSubscriptions s) (subscriptionPayments s)
    (payments s) (supportedTokens s) (tokenSupported s) (_subscriptionNonce s)
    x (_paused s).

Definition set_paused (x : bool) (s : State) : State :=
  mkState (plans s) (planIds s) (subscriptions s) (subscriptionIds s)
    (userSubscriptions s) (planSubscriptions s) (subscriptionPayments s)
    (payments s) (supportedTokens s) (tokenSupported s) (_subscriptionNonce s)
    (_owner s) x.

(** Reading a mapping: an absent key reads as the zero value. *)
Definition plan_at (s : State) (planId : bytes32) : Plan.t :=
  default Plan.zero (plans s !! planId).

Definition sub_at (s : State) (subscriptionId : bytes32) : Subscription.t :=
  default Subscription.zero (subscriptions s !! subscriptionId).

Definition payment_at (s : State) (orderId : bytes32) : Payment.t :=
  default Payment.zero (payments s !! orderId).

Definition history_at (s : State) (subscriptionId : bytes32)
    : list PaymentRecord.t :=
  default [] (subscriptionPayments s !! subscriptionId).

Definition token_supported (s : State) (token : address) : bool :=
  default false (tokenSupported s !! token).

(** Writing through a storage pointer. *)
Definition write_plan (planId : bytes32) (p : Plan.t) (s : State) : State :=
  set_plans (<[planId := p]> (plans s)) s.

Definition write_sub (subscriptionId : bytes32) (x : Subscription.t)
    (s : State) : State :=
  set_subscriptions (<[subscriptionId := x]> (subscriptions s)) s.

Definition push_history (subscriptionId : bytes32) (r : PaymentRecord.t)
    (s : State) : State :=
  set_subscriptionPayments
    (<[subscriptionId := history_at s subscriptionId ++ [r]]>
       (subscriptionPayments s)) s.

(** The transaction context. *)
Record Env : Type := mkEnv {
  msg_sender : address;
  msg_value : Z;
  block_timestamp : Z
}.

(** ** Calls into the engine

    The external functions that change state, with their arguments. *)
Inductive Call : Type :=
| CallAddSupportedToken (token : address)
| CallRemoveSupportedToken (token : address)
| CallPause
| CallUnpause
| CallEmergencyWithdraw (token to : address) (amount : Z)
| CallCreatePlan (planId : bytes32) (amount : Z) (token : address)
    (interval : Z) (merchantAddress : address)
| CallUpdatePlan (planId : bytes32) (active : bool)
| CallSubscribe (planId : bytes32)
| CallSubscribeWithTrial (planId : bytes32) (trialDays : Z)
| CallCancelSubscription (subscriptionId : bytes32) (immediately : bool)
| CallPauseSubscription (subscriptionId : bytes32)
| CallResumeSubscription (subscriptionId : bytes32)
| CallCharge (subscriptionId : bytes32)
| CallBatchCharge (subscriptionIds : list N)
| CallRefund (subscriptionId : bytes32) (amount : Z) (to : address)
| CallPay (orderId : bytes32) (amount : Z) (token merchant : address)
| CallRenounceOwnership
| CallTransferOwnership (newOwner : address).

(** ** The external value-transfer ledger

    [IBEP20] is an interface of external contracts; the engine only calls
    [balanceOf], [allowance], [transferFrom] and [transfer] on a token, and
    sends native currency with a low-level [call].  All of them act on a
    ledger state [L] that the engine does not own.  The first argument after
    the ledger is the token's address; [balanceOf l 0 a] stands for the
    native-currency balance of [a] (the engine never reads it). *)

(** What a callee does while it has control: it calls a function of the
    engine as [sender], with [value], or changes the ledger (it moves tokens,
    sets allowances, sends value to the engine's [receive]). *)
Inductive Act (L : Type) : Type :=
| Enter (sender : address) (value : Z) (c : Call)
| Adjust (f : L → L).
Arguments Enter {L} sender value c.
Arguments Adjust {L} f.

(** The outcome of a call of [transferFrom] or [transfer], declared to return
    a [bool]: the callee returns [success], leaving the ledger in [l'] and
    having done [does] on the way; or it reverts; or the call comes back
    with data that does not decode as a [bool] (no data at all, as tokens
    that predate the interface give), or there is no code at the address.
    Solidity reverts the calling function in the last case, inside a
    [try]/[catch] as well: [catch] only sees a revert of the callee. *)
Inductive Reply (L : Type) : Type :=
| Returned (success : bool) (l' : L) (does : list (Act L))
| Reverted
| Undecodable.
Arguments Returned {L} success l' does.
Arguments Reverted {L}.
Arguments Undecodable {L}.

(** [balanceOf l token holder] and [allowance l token owner spender] are the
    answers of the token's views, [None] when the call reverts (or there is
    no code to call); a view runs in a static call and changes nothing.
    [transferFrom l token spender from to amount] and
    [transfer l token from to amount] are the token's answers to calls made
    by [spender] and by [from].
    [send_value l from to amount] is [to.call{value: amount}("")] made by
    [from]: [None] when the call fails, else the ledger it leaves and what
    the recipient did on receiving.
    [credit l from to amount] moves the value that comes with a call from
    the caller to the callee: [None] when the caller cannot afford it. *)
Class Ledger (L : Type) : Type := {
  balanceOf : L → address → address → option Z;
  allowance : L → address → address → address → option Z;
  transferFrom : L → address → address → address → address → Z → Reply L;
  transfer : L → address → address → address → Z → Reply L;
  send_value : L → address → address → Z → option (L * list (Act L));
  credit : L → address → address → Z → option L
}.

(** [lib/ReentrancyGuard.sol]: the two values of [_status].  The second
    guard of that library, [_withdrawStatus], is used by no function of the
    contract. *)
Inductive GuardStatus : Type :=
| _NOT_ENTERED
| _ENTERED.

Global Instance GuardStatus_eq_dec : EqDecision GuardStatus.
Proof. solve_decision. Defined.

(** The world a transaction runs in: the contract's storage, the external
    ledger, the events emitted so far and the re-entrancy guard. *)
Record World (L : Type) : Type := mkWorld {
  st : State;
  ledger : L;
  log : list Event;
  _status : GuardStatus
}.
Arguments mkWorld {L} st ledger log _status.
Arguments st {L} w.
Arguments ledger {L} w.
Arguments log {L} w.
Arguments _status {L} w.

Definition with_st {L : Type} (s : State) (w : World L) : World L :=
  mkWorld s (ledger w) (log w) (_status w).

Definition with_ledger {L : Type} (l : L) (w : World L) : World L :=
  mkWorld (st w) l (log w) (_status w).

Definition emit {L : Type} (ev : Event) (w : World L) : World L :=
  mkWorld (st w) (ledger w) (log w ++ [ev]) (_status w).

Definition with_status {L : Type} (g : GuardStatus) (w : World L) : World L :=
  mkWorld (st w) (ledger w) (log w) g.

(** The world a call made in [w] leaves behind: the one it returns, or [w]
    itself when it reverts. *)
Definition after {A L : Type} (r : Result (A * World L)) (w : World L)
    : World L :=
  match r with Ok (_, w') => w' | Revert _ => w end.

(** [supportedTokens[i] = supportedTokens[length - 1]; supportedTokens.pop()]
    at the first index [i] holding [token]. *)
Definition swap_remove (token : address) (l : list N) : list N :=
  match list_find (λ x, x = token) l, last l with
  | Some (i, _), Some y => take (length l - 1)%nat (<[i := y]> l)
  | _, _ => l
  end.

Section Engine.
Context {L : Type} `{Ledger L}.

(** [address(this)] *)
Variable this : address.

(** [keccak256(abi.encodePacked(planId, msg.sender, block.timestamp, nonce))] *)
Variable keccak256_id : bytes32 → address → Z → Z → bytes32.

Section Frame.

(** The engine's external functions as a callee reaches them when it calls
    back: [exec] below, one level further down the call stack. *)
Variable reenter : Env → Call → World L → Result (World L).

(** *** External calls *)

(** One thing a callee does at block time [now].  A call into the engine
    that reverts, or whose value the caller cannot afford, leaves the world
    as it was. *)
Definition act (now : Z) (w : World L) (a : Act L) : World L :=
  match a with
  | Enter sender value c =>
      match credit (ledger w) sender this value with
      | Some l1 =>
          match reenter (mkEnv sender value now) c (with_ledger l1 w) with
          | Ok w' => w'
          | Revert _ => w
          end
      | None => w
      end
  | Adjust f => with_ledger (f (ledger w)) w
  end.

(** All that a callee does while it has control. *)
Definition during (now : Z) (does : list (Act L)) (w : World L) : World L :=
  foldl (act now) w does.

(** *** Modifiers and guards *)

Definition _requirePlanExists (planId : bytes32) (w : World L) : Result unit :=
  require (bool_decide (Plan.merchant (plan_at (st w) planId) ≠ 0%N))
    "Plan not found".

Definition _requireSubscriptionExists (subscriptionId : bytes32) (w : World L)
    : Result unit :=
  require
    (bool_decide (Subscription.subscriber (sub_at (st w) subscriptionId) ≠ 0%N))
    "Subscription not found".

Definition _onlySubscriberOrMerchant (e : Env) (subscriptionId : bytes32)
    (w : World L) : Result unit :=
  let sub := sub_at (st w) subscriptionId in
  let plan := plan_at (st w) (Subscription.planId sub) in
  require (bool_decide (msg_sender e = Subscription.subscriber sub)
           || bool_decide (msg_sender e = Plan.merchant plan))
    "Not authorized".

Definition _onlyOwner (e : Env) (w : World L) : Result unit :=
  require (bool_decide (_owner (st w) = msg_sender e))
    "Ownable: caller is not the owner".

(** Modelled from the spec: [lib/Pausable.sol] is not among the sources and
    the specification is silent on it; the contract-wide switch it provides
    is taken to be the usual one, a boolean that [whenNotPaused] requires to
    be off. *)
Definition whenNotPaused (w : World L) : Result unit :=
  require (negb (_paused (st w))) "Pausable: paused".

(** A function that is not [payable] rejects a call carrying value. *)
Definition non_payable (e : Env) : Result unit :=
  require (bool_decide (msg_value e = 0)) "non-payable".

Definition _nonReentrantBefore (w : World L) : Result (World L) :=
  let! _ := require (bool_decide (_status w ≠ _ENTERED))
              "ReentrancyGuard: reentrant call" in
  Ok (with_status _ENTERED w).

Definition _nonReentrantAfter (w : World L) : World L :=
  with_status _NOT_ENTERED w.

(** The modifier [nonReentrant] around a function body. *)
Definition nonReentrant {A : Type} (body : World L → Result (A * World L))
    (w : World L) : Result (A * World L) :=
  let! w1 := _nonReentrantBefore w in
  let! (a, w2) := body w1 in
  Ok (a, _nonReentrantAfter w2).

(** [SafeERC20.safeTransferFrom], called by the engine: anything but a
    returned [true] reverts. *)
Definition safeTransferFrom (e : Env) (token from to : address) (amount : Z)
    (w : World L) : Result (World L) :=
  match transferFrom (ledger w) token this from to amount with
  | Returned true l' does =>
      Ok (during (block_timestamp e) does (with_ledger l' w))
  | Returned false _ _ => Revert "SafeERC20: transferFrom failed"
  | Reverted => Revert "token call reverted"
  | Undecodable => Revert "token reply not decodable"
  end.

(** [SafeERC20.safeTransfer], called by the engine. *)
Definition safeTransfer (e : Env) (token to : address) (amount : Z)
    (w : World L) : Result (World L) :=
  match transfer (ledger w) token this to amount with
  | Returned true l' does =>
      Ok (during (block_timestamp e) does (with_ledger l' w))
  | Returned false _ _ => Revert "SafeERC20: transfer failed"
  | Reverted => Revert "token call reverted"
  | Undecodable => Revert "token reply not decodable"
  end.

(** [to.call{value: amount}("")] followed by [require(success, fail)]. *)
Definition send_or_revert (e : Env) (to : address) (amount : Z) (fail : string)
    (w : World L) : Result (World L) :=
  match send_value (ledger w) this to amount with
  | Some (l', does) => Ok (during (block_timestamp e) does (with_ledger l' w))
  | None => Revert fail
  end.

(** The caller-funded transfer of [refund] and [pay]: [amount] goes to
    [to], what exceeds it of [msg.value] goes back to [back]. *)
Definition push_native (e : Env) (to back : address) (amount : Z)
    (short fail failback : string) (w : World L) : Result (World L) :=
  let! _ := require (bool_decide (amount ≤ msg_value e)) short in
  let! w1 := send_or_revert e to amount fail w in
  if bool_decide (amount < msg_value e) then
    send_or_revert e back (msg_value e - amount) failback w1
  else Ok w1.

(** *** Constructor and administration *)

Definition constructor (e : Env) : State :=
  mkState ∅ [] ∅ [] ∅ ∅ ∅ ∅ [0%N] {[0%N := true]} 0 (msg_sender e) false.

(** The world right after deployment by [msg.sender] over the ledger [l]. *)
Definition deploy (e : Env) (l : L) : World L :=
  mkWorld (constructor e) l [OwnershipTransferred 0%N (msg_sender e)]
    _NOT_ENTERED.

Definition renounceOwnership (e : Env) (w : World L) : Result (unit * World L) :=
  let! _ := non_payable e in
  let! _ := _onlyOwner e w in
  Ok (tt, with_st (set_owner 0%N (st w))
            (emit (OwnershipTransferred (_owner (st w)) 0%N) w)).

Definition transferOwnership (e : Env) (newOwner : address) (w : World L)
    : Result (unit * World L) :=
  let! _ := non_payable e in
  let! _ := _onlyOwner e w in
  let! _ := require (bool_decide (newOwner ≠ 0%N))
              "Ownable: new owner is the zero address" in
  Ok (tt, emit (OwnershipTransferred (_owner (st w)) newOwner)
            (with_st (set_owner newOwner (st w)) w)).

Definition addSupportedToken (e : Env) (token : address) (w : World L)
    : Result (unit * World L) :=
  let! _ := non_payable e in
  let! _ := _onlyOwner e w in
  let! _ := require (negb (token_supported (st w) token))
              "Token already supported" in
  let s1 := set_tokenSupported (<[token := true]> (tokenSupported (st w))) (st w) in
  let s2 := set_supportedTokens (supportedTokens s1 ++ [token]) s1 in
  Ok (tt, emit (TokenAdded token) (with_st s2 w)).

Definition removeSupportedToken (e : Env) (token : address) (w : World L)
    : Result (unit * World L) :=
  let! _ := non_payable e in
  let! _ := _onlyOwner e w in
  let! _ := require (bool_decide (token ≠ 0%N)) "Cannot remove native token" in
  let! _ := require (token_supported (st w) token) "Token not supported" in
  let s1 := set_tokenSupported (<[token := false]> (tokenSupported (st w))) (st w) in
  let s2 := set_supportedTokens (swap_remove token (supportedTokens s1)) s1 in
  Ok (tt, emit (TokenRemoved token) (with_st s2 w)).

(** Modelled from the spec: [_pause] of the absent [lib/Pausable.sol], taken
    to switch the flag on when it is off. *)
Definition pause (e : Env) (w : World L) : Result (unit * World L) :=
  let! _ := non_payable e in
  let! _ := _onlyOwner e w in
  let! _ := whenNotPaused w in
  Ok (tt, emit (ContractPaused (msg_sender e)) (with_st (set_paused true (st w)) w)).

(** Modelled from the spec: [_unpause] of the absent [lib/Pausable.sol], taken
    to switch the flag off when it is on. *)
Definition unpause (e : Env) (w : World L) : Result (unit * World L) :=
  let! _ := non_payable e in
  let! _ := _onlyOwner e w in
  let! _ := require (_paused (st w)) "Pausable: not paused" in
  Ok (tt, emit (ContractUnpaused (msg_sender e))
            (with_st (set_paused false (st w)) w)).

Definition emergencyWithdraw (e : Env) (token to : address) (amount : Z)
    (w : World L) : Result (unit * World L) :=
  let! _ := non_payable e in
  let! _ := abi_uint MAX_UINT256 amount in
  let! _ := _onlyOwner e w in
  let! _ := require (bool_decide (to ≠ 0%N)) "Invalid recipient" in
  let! w' :=
    if bool_decide (token = 0%N) then
      send_or_revert e to amount "Transfer failed" w
    else safeTransfer e token to amount w in
  Ok (tt, w').

(** *** Plan management *)

Definition createPlan (e : Env) (planId : bytes32) (amount : Z)
    (token : address) (interval : Z) (merchantAddress : address)
    (w : World L) : Result (unit * World L) :=
  let! _ := non_payable e in
  let! _ := abi_uint MAX_UINT256 amount in
  let! _ := abi_uint MAX_UINT32 interval in
  let! _ := whenNotPaused w in
  let! _ := require (bool_decide (Plan.merchant (plan_at (st w) planId) = 0%N))
              "Plan already exists" in
  let! _ := require (bool_decide (0 < amount)) "Amount must be positive" in
  let! _ := require (bool_decide (DAY ≤ interval)) "Interval too short" in
  let! _ := require (bool_decide (merchantAddress ≠ 0%N)) "Invalid merchant" in
  let! _ := require (token_supported (st w) token) "Token not supported" in
  let plan := Plan.mk planId amount token interval merchantAddress true 0
                (block_timestamp e) in
  let s1 := write_plan planId plan (st w) in
  let s2 := set_planIds (planIds s1 ++ [planId]) s1 in
  Ok (tt, emit (PlanCreated planId merchantAddress amount token interval)
            (with_st s2 w)).

Definition updatePlan (e : Env) (planId : bytes32) (active : bool)
    (w : World L) : Result (unit * World L) :=
  let! _ := non_payable e in
  let! _ := _requirePlanExists planId w in
  let plan := plan_at (st w) planId in
  let! _ := require (bool_decide (msg_sender e = Plan.merchant plan)
                     || bool_decide (msg_sender e = _owner (st w)))
              "Not authorized" in
  Ok (tt, emit (PlanUpdated planId active)
            (with_st (write_plan planId (Plan.set_active active plan) (st w)) w)).

Definition getPlan (planId : bytes32) (w : World L)
    : Z * address * Z * address * bool * Z :=
  let plan := plan_at (st w) planId in
  (Plan.amount plan, Plan.token plan, Plan.interval plan, Plan.merchant plan,
   Plan.active plan, Plan.subscriberCount plan).

Definition planExists (planId : bytes32) (w : World L) : bool :=
  bool_decide (Plan.merchant (plan_at (st w) planId) ≠ 0%N).

Definition subscriptionExists (subscriptionId : bytes32) (w : World L) : bool :=
  bool_decide (Subscription.subscriber (sub_at (st w) subscriptionId) ≠ 0%N).

(** *** Subscription management *)

(** [_executePayment]: the caller-funded payment of the first period.  The
    plan is a storage pointer: what is read of it after the first send is
    read from the storage as it then is. *)
Definition _executePayment (e : Env) (planId : bytes32) (payer : address)
    (w : World L) : Result (World L) :=
  let plan := plan_at (st w) planId in
  if bool_decide (Plan.token plan = 0%N) then
    let! _ := require (bool_decide (Plan.amount plan ≤ msg_value e))
                "Insufficient payment" in
    let! w1 :=
      send_or_revert e (Plan.merchant plan) (Plan.amount plan)
        "Transfer failed" w in
    let plan1 := plan_at (st w1) planId in
    if bool_decide (Plan.amount plan1 < msg_value e) then
      send_or_revert e payer (msg_value e - Plan.amount plan1) "Refund failed" w1
    else Ok w1
  else
    safeTransferFrom e (Plan.token plan) payer (Plan.merchant plan)
      (Plan.amount plan) w.

(** [_subscribe].  The nonce is written, the identifier and the period are
    fixed, then the first payment is taken; the subscription, the indexes,
    the plan's subscriber count and the Payment Record are written to the
    storage as the payment left it ([plan1] is the plan read there: the
    writes in between do not touch the plans). *)
Definition _subscribe (e : Env) (planId : bytes32) (trialDays : Z)
    (w : World L) : Result (bytes32 * World L) :=
  let plan := plan_at (st w) planId in
  let! _ := require (Plan.active plan) "Plan is inactive" in
  let! nonce := checked_add (_subscriptionNonce (st w)) 1 in
  let w0 := with_st (set_subscriptionNonce nonce (st w)) w in
  let subscriptionId :=
    keccak256_id planId (msg_sender e) (block_timestamp e) nonce in
  let startTime := block_timestamp e in
  let periodStart := startTime in
  let! periodEnd0 := checked_add startTime (Plan.interval plan) in
  let! (periodEnd, w1) :=
    if bool_decide (0 < trialDays) then
      let! periodEnd := checked_add startTime (trialDays * DAY) in
      Ok (periodEnd, w0)
    else
      let! w1 := _executePayment e planId (msg_sender e) w0 in
      Ok (periodEnd0, w1) in
  let plan1 := plan_at (st w1) planId in
  let sub :=
    Subscription.mk subscriptionId planId (msg_sender e) Active startTime
      periodStart periodEnd false 0
      (if bool_decide (0 < trialDays) then 0 else 1) in
  let s2 := write_sub subscriptionId sub (st w1) in
  let s3 := set_subscriptionIds (subscriptionIds s2 ++ [subscriptionId]) s2 in
  let s4 :=
    set_userSubscriptions
      (<[msg_sender e :=
           default [] (userSubscriptions s3 !! msg_sender e) ++ [subscriptionId]]>
         (userSubscriptions s3)) s3 in
  let s5 :=
    set_planSubscriptions
      (<[planId :=
           default [] (planSubscriptions s4 !! planId) ++ [subscriptionId]]>
         (planSubscriptions s4)) s4 in
  let! count := checked_add (Plan.subscriberCount plan1) 1 in
  let s6 := write_plan planId (Plan.set_subscriberCount count plan1) s5 in
  let amount := Plan.amount plan1 in
  let w2 := with_st s6 w1 in
  let w3 :=
    if bool_decide (trialDays = 0) then
      emit (PaymentExecuted subscriptionId amount (block_timestamp e)
              periodStart periodEnd)
        (with_st
           (push_history subscriptionId
              (PaymentRecord.mk amount (block_timestamp e) periodStart
                 periodEnd) s6) w2)
    else w2 in
  Ok (subscriptionId,
      emit (SubscriptionCreated subscriptionId planId (msg_sender e) startTime) w3).

Definition subscribe (e : Env) (planId : bytes32) (w : World L)
    : Result (bytes32 * World L) :=
  let! _ := abi_uint MAX_UINT256 (msg_value e) in
  let! _ := whenNotPaused w in
  nonReentrant
    (λ w, let! _ := _requirePlanExists planId w in _subscribe e planId 0 w) w.

Definition subscribeWithTrial (e : Env) (planId : bytes32) (trialDays : Z)
    (w : World L) : Result (bytes32 * World L) :=
  let! _ := non_payable e in
  let! _ := abi_uint MAX_UINT32 trialDays in
  let! _ := whenNotPaused w in
  nonReentrant
    (λ w, let! _ := _requirePlanExists planId w in
          _subscribe e planId trialDays w) w.

Definition cancelSubscription (e : Env) (subscriptionId : bytes32)
    (immediately : bool) (w : World L) : Result (unit * World L) :=
  let! _ := non_payable e in
  let! _ := _requireSubscriptionExists subscriptionId w in
  let! _ := _onlySubscriberOrMerchant e subscriptionId w in
  let sub := sub_at (st w) subscriptionId in
  let! _ := require
              (bool_decide (Subscription.status sub = Active)
               || bool_decide (Subscription.status sub = Paused))
              "Subscription not active" in
  let w1 :=
    if immediately then
      let oldStatus := status_uint8 (Subscription.status sub) in
      let sub1 := Subscription.set_status Canceled sub in
      let sub2 := Subscription.set_currentPeriodEnd (block_timestamp e) sub1 in
      emit (SubscriptionStatusChanged subscriptionId oldStatus
              (status_uint8 Canceled))
        (with_st (write_sub subscriptionId sub2 (st w)) w)
    else
      with_st
        (write_sub subscriptionId
           (Subscription.set_cancelAtPeriodEnd true sub) (st w)) w in
  Ok (tt, emit (SubscriptionCanceled subscriptionId (block_timestamp e)
                  immediately) w1).

Definition pauseSubscription (e : Env) (subscriptionId : bytes32)
    (w : World L) : Result (unit * World L) :=
  let! _ := non_payable e in
  let! _ := _requireSubscriptionExists subscriptionId w in
  let! _ := _onlySubscriberOrMerchant e subscriptionId w in
  let sub := sub_at (st w) subscriptionId in
  let! _ := require (bool_decide (Subscription.status sub = Active))
              "Subscription not active" in
  let oldStatus := status_uint8 (Subscription.status sub) in
  let sub1 := Subscription.set_status Paused sub in
  let sub2 := Subscription.set_pausedAt (block_timestamp e) sub1 in
  Ok (tt, emit (SubscriptionStatusChanged subscriptionId oldStatus
                  (status_uint8 Paused))
            (with_st (write_sub subscriptionId sub2 (st w)) w)).

Definition resumeSubscription (e : Env) (subscriptionId : bytes32)
    (w : World L) : Result (unit * World L) :=
  let! _ := non_payable e in
  let! _ := _requireSubscriptionExists subscriptionId w in
  let sub := sub_at (st w) subscriptionId in
  let! _ := require (bool_decide (msg_sender e = Subscription.subscriber sub))
              "Only subscriber can resume" in
  let! _ := require (bool_decide (Subscription.status sub = Paused))
              "Subscription not paused" in
  let oldStatus := status_uint8 (Subscription.status sub) in
  let sub1 := Subscription.set_status Active sub in
  let! pausedDuration :=
    checked_sub (block_timestamp e) (Subscription.pausedAt sub1) in
  let! newEnd := checked_add (Subscription.currentPeriodEnd sub1) pausedDuration in
  let sub2 := Subscription.set_currentPeriodEnd newEnd sub1 in
  let sub3 := Subscription.set_pausedAt 0 sub2 in
  let sub4 := Subscription.set_cancelAtPeriodEnd false sub3 in
  Ok (tt, emit (SubscriptionStatusChanged subscriptionId oldStatus
                  (status_uint8 Active))
            (with_st (write_sub subscriptionId sub4 (st w)) w)).

Definition getSubscription (subscriptionId : bytes32) (w : World L)
    : address * bytes32 * Z * Z * Z * Z * bool :=
  let sub := sub_at (st w) subscriptionId in
  (Subscription.subscriber sub, Subscription.planId sub,
   status_uint8 (Subscription.status sub), Subscription.startTime sub,
   Subscription.currentPeriodStart sub, Subscription.currentPeriodEnd sub,
   Subscription.cancelAtPeriodEnd sub).

(** *** Payment execution *)

(** A call of a view of a token: the calling function reverts when the call
    does. *)
Definition view_call (answer : option Z) (fail : string) : Result Z :=
  match answer with
  | Some x => Ok x
  | None => Revert fail
  end.

(** [_canCharge].  Once the first four tests have passed on a plan in a
    token, both views of the token are called, before either amount is
    compared. *)
Definition _canCharge (e : Env) (subscriptionId : bytes32) (w : World L)
    : Result (bool * ChargeFailReason) :=
  let sub := sub_at (st w) subscriptionId in
  let plan := plan_at (st w) (Subscription.planId sub) in
  if negb (Plan.active plan) then Ok (false, PlanInactive)
  else if bool_decide (Subscription.status sub = Canceled) then
    Ok (false, ReasonCanceled)
  else if bool_decide (Subscription.status sub = Paused) then
    Ok (false, ReasonPaused)
  else if bool_decide (block_timestamp e < Subscription.currentPeriodEnd sub) then
    Ok (false, NotDue)
  else if bool_decide (Plan.token plan = 0%N) then Ok (true, Success)
  else
    let! balance :=
      view_call
        (balanceOf (ledger w) (Plan.token plan) (Subscription.subscriber sub))
        "balanceOf reverted" in
    let! allowance_ :=
      view_call
        (allowance (ledger w) (Plan.token plan) (Subscription.subscriber sub)
           this)
        "allowance reverted" in
    if bool_decide (balance < Plan.amount plan) then
      Ok (false, InsufficientBalance)
    else if bool_decide (allowance_ < Plan.amount plan) then
      Ok (false, NotApproved)
    else Ok (true, Success).

Definition canCharge (e : Env) (subscriptionId : bytes32) (w : World L)
    : Result (bool * Z) :=
  let! (canChargeNow, failReason) := _canCharge e subscriptionId w in
  Ok (canChargeNow, reason_uint8 failReason).

(** [_executePaymentFrom]: the pull of a renewal.  The [try]/[catch] turns a
    reverting token call into [false], the world then being as it was; an
    answer that does not decode reverts the whole call. *)
Definition _executePaymentFrom (e : Env) (planId : bytes32) (payer : address)
    (w : World L) : Result (bool * World L) :=
  let plan := plan_at (st w) planId in
  if bool_decide (Plan.token plan = 0%N) then Ok (false, w)
  else
    match transferFrom (ledger w) (Plan.token plan) this payer
            (Plan.merchant plan) (Plan.amount plan) with
    | Returned success l' does =>
        Ok (success, during (block_timestamp e) does (with_ledger l' w))
    | Reverted => Ok (false, w)
    | Undecodable => Revert "token reply not decodable"
    end.

(** [_chargeSubscription].  [sub] and [plan] are storage pointers: after the
    pull the status, the period end, the payment count, the interval and the
    amount are read from the storage as the pull left it. *)
Definition _chargeSubscription (e : Env) (subscriptionId : bytes32)
    (w : World L) : Result (bool * World L) :=
  let sub := sub_at (st w) subscriptionId in
  let planId := Subscription.planId sub in
  if Subscription.cancelAtPeriodEnd sub then
    let oldStatus := status_uint8 (Subscription.status sub) in
    Ok (false,
        emit (SubscriptionStatusChanged subscriptionId oldStatus
                (status_uint8 Canceled))
          (with_st
             (write_sub subscriptionId (Subscription.set_status Canceled sub)
                (st w)) w))
  else
    let! (paymentSuccess, w1) :=
      _executePaymentFrom e planId (Subscription.subscriber sub) w in
    let sub := sub_at (st w1) subscriptionId in
    let plan := plan_at (st w1) planId in
    if negb paymentSuccess then
      let oldStatus := status_uint8 (Subscription.status sub) in
      Ok (false,
          emit (PaymentFailed subscriptionId (reason_uint8 InsufficientBalance))
            (emit (SubscriptionStatusChanged subscriptionId oldStatus
                     (status_uint8 Expired))
               (with_st
                  (write_sub subscriptionId
                     (Subscription.set_status Expired sub) (st w1)) w1)))
    else
      let newPeriodStart := Subscription.currentPeriodEnd sub in
      let! newPeriodEnd := checked_add newPeriodStart (Plan.interval plan) in
      let sub1 := Subscription.set_currentPeriodStart newPeriodStart sub in
      let sub2 := Subscription.set_currentPeriodEnd newPeriodEnd sub1 in
      let! count := checked_add (Subscription.paymentCount sub2) 1 in
      let sub3 := Subscription.set_paymentCount count sub2 in
      let s1 := write_sub subscriptionId sub3 (st w1) in
      let s2 :=
        push_history subscriptionId
          (PaymentRecord.mk (Plan.amount plan) (block_timestamp e)
             newPeriodStart newPeriodEnd) s1 in
      Ok (true,
          emit (PaymentExecuted subscriptionId (Plan.amount plan)
                  (block_timestamp e) newPeriodStart newPeriodEnd)
            (with_st s2 w1)).

Definition charge (e : Env) (subscriptionId : bytes32) (w : World L)
    : Result (bool * World L) :=
  let! _ := non_payable e in
  nonReentrant
    (λ w,
       let! _ := _requireSubscriptionExists subscriptionId w in
       let! (canChargeNow, reason) := _canCharge e subscriptionId w in
       if negb canChargeNow then
         Ok (false, emit (PaymentFailed subscriptionId (reason_uint8 reason)) w)
       else _chargeSubscription e subscriptionId w) w.

(** The body of [batchCharge]'s loop for one identifier. *)
Definition charge_item (e : Env) (subId : bytes32) (w : World L)
    : Result (bool * World L) :=
  if bool_decide (Subscription.subscriber (sub_at (st w) subId) = 0%N) then
    Ok (false, w)
  else
    let! (canChargeNow, _) := _canCharge e subId w in
    if canChargeNow then _chargeSubscription e subId w else Ok (false, w).

(** [for (i = 0; i < _subscriptionIds.length; i++)], filling [results]. *)
Fixpoint batch_loop (e : Env) (ids : list N) (w : World L)
    : Result (list bool * World L) :=
  match ids with
  | [] => Ok ([], w)
  | subId :: rest =>
      let! (r, w1) := charge_item e subId w in
      let! (rs, w2) := batch_loop e rest w1 in
      Ok (r :: rs, w2)
  end.

Definition batchCharge (e : Env) (_subscriptionIds : list N) (w : World L)
    : Result (list bool * World L) :=
  let! _ := non_payable e in
  nonReentrant
    (λ w,
       let! _ := require
                   (bool_decide (length _subscriptionIds ≤ MAX_BATCH_SIZE)%nat)
                   "Batch too large" in
       batch_loop e _subscriptionIds w) w.

(** *** Refund and one-time payment *)

Definition refund (e : Env) (subscriptionId : bytes32) (amount : Z)
    (to : address) (w : World L) : Result (unit * World L) :=
  let! _ := abi_uint MAX_UINT256 (msg_value e) in
  let! _ := abi_uint MAX_UINT256 amount in
  nonReentrant
    (λ w,
       let! _ := _requireSubscriptionExists subscriptionId w in
       let sub := sub_at (st w) subscriptionId in
       let plan := plan_at (st w) (Subscription.planId sub) in
       let! _ := require (bool_decide (msg_sender e = Plan.merchant plan))
                   "Only merchant can refund" in
       let! _ := require (bool_decide (0 < amount)) "Amount must be positive" in
       let recipient :=
         if bool_decide (to = 0%N) then Subscription.subscriber sub else to in
       let! w1 :=
         if bool_decide (Plan.token plan = 0%N) then
           push_native e recipient (msg_sender e) amount
             "Insufficient refund amount" "Refund failed" "Return excess failed"
             w
         else safeTransferFrom e (Plan.token plan) (msg_sender e) recipient
                amount w in
       Ok (tt, emit (Refunded subscriptionId recipient amount) w1)) w.

Definition pay (e : Env) (orderId : bytes32) (amount : Z) (token : address)
    (merchant : address) (w : World L) : Result (unit * World L) :=
  let! _ := abi_uint MAX_UINT256 (msg_value e) in
  let! _ := abi_uint MAX_UINT256 amount in
  let! _ := whenNotPaused w in
  nonReentrant
    (λ w,
       let! _ := require
                   (bool_decide (Payment.payer (payment_at (st w) orderId) = 0%N))
                   "Order already paid" in
       let! _ := require (bool_decide (0 < amount)) "Amount must be positive" in
       let! _ := require (bool_decide (merchant ≠ 0%N)) "Invalid merchant" in
       let! _ := require (token_supported (st w) token) "Token not supported" in
       let! w1 :=
         if bool_decide (token = 0%N) then
           push_native e merchant (msg_sender e) amount
             "Insufficient payment" "Transfer failed" "Refund failed" w
         else safeTransferFrom e token (msg_sender e) merchant amount w in
       let payment :=
         Payment.mk orderId (msg_sender e) merchant amount token
           (block_timestamp e) true in
       let s1 := set_payments (<[orderId := payment]> (payments (st w1))) (st w1) in
       Ok (tt, emit (PaymentReceived orderId (msg_sender e) merchant amount token)
                 (with_st s1 w1))) w.


(** *** Transactions and histories *)

Definition forget {A : Type} (r : Result (A * World L)) : Result (World L) :=
  let! (_, w') := r in Ok w'.

(** The function selector. *)
Definition dispatch (e : Env) (c : Call) (w : World L) : Result (World L) :=
  match c with
  | CallAddSupportedToken token => forget (addSupportedToken e token w)
  | CallRemoveSupportedToken token => forget (removeSupportedToken e token w)
  | CallPause => forget (pause e w)
  | CallUnpause => forget (unpause e w)
  | CallEmergencyWithdraw token to amount =>
      forget (emergencyWithdraw e token to amount w)
  | CallCreatePlan planId amount token interval merchantAddress =>
      forget (createPlan e planId amount token interval merchantAddress w)
  | CallUpdatePlan planId active => forget (updatePlan e planId active w)
  | CallSubscribe planId => forget (subscribe e planId w)
  | CallSubscribeWithTrial planId trialDays =>
      forget (subscribeWithTrial e planId trialDays w)
  | CallCancelSubscription subscriptionId immediately =>
      forget (cancelSubscription e subscriptionId immediately w)
  | CallPauseSubscription subscriptionId =>
      forget (pauseSubscription e subscriptionId w)
  | CallResumeSubscription subscriptionId =>
      forget (resumeSubscription e subscriptionId w)
  | CallCharge subscriptionId => forget (charge e subscriptionId w)
  | CallBatchCharge subscriptionIds => forget (batchCharge e subscriptionIds w)
  | CallRefund subscriptionId amount to =>
      forget (refund e subscriptionId amount to w)
  | CallPay orderId amount token merchant =>
      forget (pay e orderId amount token merchant w)
  | CallRenounceOwnership => forget (renounceOwnership e w)
  | CallTransferOwnership newOwner => forget (transferOwnership e newOwner w)
  end.

End Frame.

(** A call into the engine with room for [depth] more calls of the engine
    below it on the call stack; a callee that calls back when there is none
    left fails. *)
Fixpoint exec (depth : nat) (e : Env) (c : Call) (w : World L) {struct depth}
    : Result (World L) :=
  dispatch
    (λ e' c' w',
       match depth with
       | O => Revert "call stack exhausted"
       | S depth' => exec depth' e' c' w'
       end) e c w.

(** What a callee reaches when it calls back into a call that has room for
    [depth] more below it. *)
Definition reentry (depth : nat) (e : Env) (c : Call) (w : World L)
    : Result (World L) :=
  match depth with
  | O => Revert "call stack exhausted"
  | S depth' => exec depth' e c w
  end.

(** The call stack of the EVM holds 1024 frames. *)
Definition CALL_DEPTH : nat := 1024.

(** One step of a history: a transaction sent to the engine (a reverted one
    changes nothing), or whatever the rest of the chain does to the ledger
    in between. *)
Inductive Step : Type :=
| Tx (e : Env) (c : Call)
| Outside (f : L → L).

(** The value sent with a call reaches the engine before its code runs; a
    sender who cannot afford it sends nothing. *)
Definition step (w : World L) (x : Step) : World L :=
  match x with
  | Tx e c =>
      match credit (ledger w) (msg_sender e) this (msg_value e) with
      | Some l1 =>
          match exec CALL_DEPTH e c (with_ledger l1 w) with
          | Ok w' => w'
          | Revert _ => w
          end
      | None => w
      end
  | Outside f => with_ledger (f (ledger w)) w
  end.

Definition run (xs : list Step) (w : World L) : World L := foldl step w xs.

(** Block timestamps never decrease along a history that starts at [t]. *)
Fixpoint chronological (t : Z) (xs : list Step) : Prop :=
  match xs with
  | [] => True
  | Tx e _ :: rest => t ≤ block_timestamp e ∧ chronological (block_timestamp e) rest
  | Outside _ :: rest => chronological t rest
  end.

(** The worlds the engine can be in: deployed by [e0] over some ledger, then
    driven by a chronological history. *)
Definition Reachable (w : World L) : Prop :=
  ∃ (e0 : Env) (l0 : L) (xs : list Step),
    chronological (block_timestamp e0) xs ∧
    w = run xs (deploy e0 l0).

End Engine.

Global Arguments exec {L H} this keccak256_id depth e c w : simpl never.
Global Arguments reentry {L H} this keccak256_id depth e c w : simpl never.

(** ** A concrete ledger

    One ledger to run histories on: balances and allowances per token, native
    currency under token [0], and a switch with which a token's issuer halts
    its transfers (a halted token reverts every transfer, as a paused or
    blacklisting token does).  A transfer that exceeds the balance or the
    allowance reverts too.  Its tokens follow the interface and nobody calls
    back: every view answers, every transfer that does not revert returns
    [true], and no recipient runs code. *)
Module Bank.
Record t : Type := mk {
  balances : gmap (N * N) Z;
  allowances : gmap (N * N * N) Z;
  halted : list N
}.

Definition balance (l : t) (token holder : address) : Z :=
  default 0 (balances l !! (token, holder)).

Definition allowed (l : t) (token owner spender : address) : Z :=
  default 0 (allowances l !! (token, owner, spender)).

Definition is_halted (l : t) (token : address) : bool :=
  bool_decide (token ∈ halted l).

Definition move (l : t) (token from to : address) (amount : Z) : t :=
  let b1 := <[(token, from) := balance l token from - amount]> (balances l) in
  let b2 := <[(token, to) := default 0 (b1 !! (token, to)) + amount]> b1 in
  mk b2 (allowances l) (halted l).

Definition spend (l : t) (token owner spender : address) (amount : Z) : t :=
  mk (balances l)
     (<[(token, owner, spender) := allowed l token owner spender - amount]>
        (allowances l))
     (halted l).

Definition transferFrom (l : t) (token spender from to : address) (amount : Z)
    : Reply t :=
  if is_halted l token then Reverted
  else if bool_decide (amount ≤ balance l token from)
          && bool_decide (amount ≤ allowed l token from spender) then
    Returned true (move (spend l token from spender amount) token from to amount)
      []
  else Reverted.

Definition transfer (l : t) (token from to : address) (amount : Z) : Reply t :=
  if is_halted l token then Reverted
  else if bool_decide (amount ≤ balance l token from) then
    Returned true (move l token from to amount) []
  else Reverted.

Definition credit (l : t) (from to : address) (amount : Z) : option t :=
  if bool_decide (amount ≤ balance l 0%N from) then
    Some (move l 0%N from to amount)
  else None.

Definition send_value (l : t) (from to : address) (amount : Z)
    : option (t * list (Act t)) :=
  match credit l from to amount with
  | Some l' => Some (l', [])
  | None => None
  end.

Definition set_halted (tokens : list N) (l : t) : t :=
  mk (balances l) (allowances l) tokens.
End Bank.

Global Instance Bank_Ledger : Ledger Bank.t := {|
  balanceOf := λ l token holder, Some (Bank.balance l token holder);
  allowance := λ l token owner spender, Some (Bank.allowed l token owner spender);
  transferFrom := Bank.transferFrom;
  transfer := Bank.transfer;
  send_value := Bank.send_value;
  credit := Bank.credit
|}.

(** ** A ledger with tokens that do not keep to the interface

    The balances of a [Bank], and on top of them: tokens whose [transferFrom]
    moves the amount and returns no data ([silent], as tokens written before
    the interface settled do); addresses listed as tokens at which there is
    no code ([absent]: every call to them fails before it starts); and
    tokens that, while they execute a [transferFrom], call the engine in the
    name of some account ([hooks]: a token with transfer hooks calls the
    payer's or the recipient's contract, which may call the engine). *)
Module Quirks.
Record t : Type := mk {
  bank : Bank.t;
  silent : list N;
  absent : list N;
  hooks : list (N * (N * Call))
}.

Definition with_bank (b : Bank.t) (l : t) : t :=
  mk b (silent l) (absent l) (hooks l).

(** The calls into the engine that [token] makes while it transfers. *)
Definition calls_of (l : t) (token : address) : list (Act t) :=
  (λ h, Enter h.2.1 0 h.2.2) <$> filter (λ h, h.1 = token) (hooks l).

Definition view (l : t) (token : address) (x : Z) : option Z :=
  if bool_decide (token ∈ absent l) then None else Some x.

Definition transferFrom (l : t) (token spender from to : address) (amount : Z)
    : Reply t :=
  if bool_decide (token ∈ absent l) || bool_decide (token ∈ silent l) then
    Undecodable
  else
    match Bank.transferFrom (bank l) token spender from to amount with
    | Returned success b _ => Returned success (with_bank b l) (calls_of l token)
    | _ => Reverted
    end.

Definition transfer (l : t) (token from to : address) (amount : Z) : Reply t :=
  if bool_decide (token ∈ absent l) || bool_decide (token ∈ silent l) then
    Undecodable
  else
    match Bank.transfer (bank l) token from to amount with
    | Returned success b _ => Returned success (with_bank b l) []
    | _ => Reverted
    end.

Definition credit (l : t) (from to : address) (amount : Z) : option t :=
  match Bank.credit (bank l) from to amount with
  | Some b => Some (with_bank b l)
  | None => None
  end.

Definition send_value (l : t) (from to : address) (amount : Z)
    : option (t * list (Act t)) :=
  match credit l from to amount with
  | Some l' => Some (l', [])
  | None => None
  end.
End Quirks.

Global Instance Quirks_Ledger : Ledger Quirks.t := {|
  balanceOf := λ l token holder,
    Quirks.view l token (Bank.balance (Quirks.bank l) token holder);
  allowance := λ l token owner spender,
    Quirks.view l token (Bank.allowed (Quirks.bank l) token owner spender);
  transferFrom := Quirks.transferFrom;
  transfer := Quirks.transfer;
  send_value := Quirks.send_value;
  credit := Quirks.credit
|}.

(** ** The eligibility rules as the specification words them

    An ordered list of (condition, reason); the first condition that holds
    decides, and when none does the charge may proceed. *)
Fixpoint first_match (rules : list (bool * ChargeFailReason))
    : bool * ChargeFailReason :=
  match rules with
  | [] => (true, Success)
  | (c, r) :: rest => if c then (false, r) else first_match rest
  end.

(** The first four rules read the storage only. *)
Definition storage_rules (e : Env) (sub : Subscription.t) (plan : Plan.t)
    : list (bool * ChargeFailReason) :=
  [ (negb (Plan.active plan), PlanInactive);
    (bool_decide (Subscription.status sub = Canceled), ReasonCanceled);
    (bool_decide (Subscription.status sub = Paused), ReasonPaused);
    (bool_decide (block_timestamp e < Subscription.currentPeriodEnd sub), NotDue) ].



(** ** Histories to run

    A deployment by [OWNER] over the concrete ledger, a merchant, a payer and
    one token; subscription identifiers are drawn from the nonce, which never
    repeats. *)
Module Scenario.
Definition OWNER : address := 1%N.
Definition MERCHANT : address := 2%N.
Definition USER : address := 3%N.
Definition TOKEN : address := 7%N.
Definition ENGINE : address := 100%N.

Definition nonce_id (planId : bytes32) (sender : address) (now nonce : Z)
    : bytes32 := Z.to_N nonce.

Definition t0 : Z := 1700000000.
Definition MONTH : Z := 2592000.

Definition bank0 : Bank.t :=
  Bank.mk {[ (TOKEN, USER) := 5000; (0%N, USER) := 1000 ]}
          {[ (TOKEN, USER, ENGINE) := 5000 ]} [].

Definition deployed : World Bank.t :=
  deploy (mkEnv OWNER 0 (t0 - 100)) bank0.

Definition go (xs : list (Step (L := Bank.t))) : World Bank.t :=
  run ENGINE nonce_id xs deployed.

Definition at_ (sender : address) (now : Z) : Env := mkEnv sender 0 now.

(** A token plan [11] and a native-currency plan [12], both monthly at 1000. *)
Definition setup : list (Step (L := Bank.t)) :=
  [ Tx (at_ OWNER (t0 - 60)) (CallAddSupportedToken TOKEN);
    Tx (at_ MERCHANT (t0 - 50)) (CallCreatePlan 11 1000 TOKEN MONTH MERCHANT);
    Tx (at_ MERCHANT (t0 - 50)) (CallCreatePlan 12 1000 0 MONTH MERCHANT) ].

(** The payer subscribes to the token plan at [t0]: subscription [1]. *)
Definition subscribed : list (Step (L := Bank.t)) :=
  setup ++ [ Tx (at_ USER t0) (CallSubscribe 11) ].

(** The payer subscribes to the native plan at [t0], paying with the call:
    subscription [1]. *)
Definition subscribed_native : list (Step (L := Bank.t)) :=
  setup ++ [ Tx (mkEnv USER 1000 t0) (CallSubscribe 12) ].

(** ... and cancels at once, within the same block. *)
Definition canceled_same_block : list (Step (L := Bank.t)) :=
  subscribed_native ++ [ Tx (at_ USER t0) (CallCancelSubscription 1 true) ].

(** The token's issuer halts transfers; the renewal that falls due fails and
    leaves the subscription Expired; transfers resume. *)
Definition expired : list (Step (L := Bank.t)) :=
  subscribed ++
  [ Outside (Bank.set_halted [TOKEN]);
    Tx (at_ OWNER (t0 + MONTH)) (CallCharge 1);
    Outside (Bank.set_halted []) ].

(** The subscription is canceled and its plan then deactivated. *)
Definition canceled_plan_off : list (Step (L := Bank.t)) :=
  subscribed ++
  [ Tx (at_ USER (t0 + 5)) (CallCancelSubscription 1 true);
    Tx (at_ MERCHANT (t0 + 6)) (CallUpdatePlan 11 false) ].

(** A native-currency plan created under the zero identifier. *)
Definition plan_zero : list (Step (L := Bank.t)) :=
  setup ++ [ Tx (at_ MERCHANT (t0 - 40)) (CallCreatePlan 0 1000 0 MONTH MERCHANT) ].


(** The subscription is canceled; its plan stays active. *)
Definition canceled : list (Step (L := Bank.t)) :=
  subscribed ++ [ Tx (at_ USER (t0 + 5)) (CallCancelSubscription 1 true) ].

(** The moment the first renewal falls due, seen by whoever sends the
    charge. *)
Definition due : Env := at_ OWNER (t0 + MONTH).

(** More than three intervals after the subscription began. *)
Definition late : Env := at_ OWNER (t0 + 3 * MONTH + 5).

(** The token halted while the first renewal is still to come. *)
Definition halted_before_renewal : list (Step (L := Bank.t)) :=
  subscribed ++ [ Outside (Bank.set_halted [TOKEN]) ].

(** The token halted before anyone subscribes. *)
Definition halted_at_start : list (Step (L := Bank.t)) :=
  setup ++ [ Outside (Bank.set_halted [TOKEN]) ].

(** A second subscription [2] to the token plan, paused ten seconds later. *)
Definition two_subscriptions : list (Step (L := Bank.t)) :=
  subscribed ++
  [ Tx (at_ USER (t0 + 1)) (CallSubscribe 11);
    Tx (at_ USER (t0 + 10)) (CallPauseSubscription 2) ].

(** What a callee reaches when it calls back into a transaction. *)
Definition below : Env → Call → World Bank.t → Result (World Bank.t) :=
  reentry ENGINE nonce_id CALL_DEPTH.

(** The payer pays order [77] with 500 tokens. *)
Definition paid : World Bank.t :=
  after (pay ENGINE below (at_ USER t0) 77 500 TOKEN MERCHANT (go setup))
    (go setup).

(** A trial of zero days on the token plan. *)
Definition trial_zero : World Bank.t :=
  after (subscribeWithTrial ENGINE nonce_id below (at_ USER t0) 11 0 (go setup))
    (go setup).

(** A renewal charge sent once the subscription is Expired and the token
    transfers again. *)
Definition expired_charged : World Bank.t :=
  after (charge ENGINE below late 1 (go expired)) (go expired).
End Scenario.

(** ** Invariants of the storage *)

(** Every plan that exists, or is active, charges at intervals of a day or
    more. *)
Definition plans_ok (s : State) : Prop :=
  ∀ planId : bytes32,
    Plan.merchant (plan_at s planId) ≠ 0%N ∨ Plan.active (plan_at s planId) = true →
    DAY ≤ Plan.interval (plan_at s planId).

(** At time [t] the current period of [sub] has begun and is not inverted; it
    is non-empty unless the subscription is Canceled. *)
Definition period_ok (t : Z) (sub : Subscription.t) : Prop :=
  Subscription.currentPeriodStart sub ≤ t
  ∧ Subscription.currentPeriodStart sub ≤ Subscription.currentPeriodEnd sub
  ∧ (Subscription.status sub ≠ Canceled →
     Subscription.currentPeriodStart sub < Subscription.currentPeriodEnd sub).

Definition periods_ok (t : Z) (s : State) : Prop :=
  ∀ subscriptionId : bytes32,
    Subscription.subscriber (sub_at s subscriptionId) ≠ 0%N →
    period_ok t (sub_at s subscriptionId).

(** The period invariant as the specification states it: the period end of
    every existing subscription is strictly after its period start. *)
Definition periods_strict (s : State) : Prop :=
  ∀ subscriptionId : bytes32,
    Subscription.subscriber (sub_at s subscriptionId) ≠ 0%N →
    Subscription.currentPeriodStart (sub_at s subscriptionId)
    < Subscription.currentPeriodEnd (sub_at s subscriptionId).

(** ** Queries

    The read-only functions of the contract.  A memory array made by
    [new T[](n)] starts as [n] zeros; reading or writing past the end of an
    array panics. *)

Definition getSubscriptionsByUser {L : Type} (subscriber : address) (w : World L)
    : list N :=
  default [] (userSubscriptions (st w) !! subscriber).

Definition getSupportedTokens {L : Type} (w : World L) : list N :=
  supportedTokens (st w).

Definition isTokenSupported {L : Type} (token : address) (w : World L) : bool :=
  token_supported (st w) token.

Definition getPlanCount {L : Type} (w : World L) : Z :=
  Z.of_nat (length (planIds (st w))).

Definition getSubscriptionCount {L : Type} (w : World L) : Z :=
  Z.of_nat (length (subscriptionIds (st w))).

(** [for (i = from; i < from + steps; i++) result[i - offset] = source[i]] *)
Fixpoint copy_loop {A : Type} (source : list A) (offset from steps : nat)
    (result : list A) : Result (list A) :=
  match steps with
  | O => Ok result
  | S steps' =>
      match source !! from with
      | None => Revert "Panic(0x32)"
      | Some x =>
          if bool_decide (from - offset < length result)%nat then
            copy_loop source offset (S from) steps'
              (<[(from - offset)%nat := x]> result)
          else Revert "Panic(0x32)"
      end
  end.

Definition getSubscriptionsByPlan {L : Type} (planId : bytes32) (offset limit : Z)
    (w : World L) : Result (list N * Z) :=
  let! _ := abi_uint MAX_UINT256 offset in
  let! _ := abi_uint MAX_UINT256 limit in
  let subs := default [] (planSubscriptions (st w) !! planId) in
  let total := Z.of_nat (length subs) in
  if bool_decide (total ≤ offset) then Ok ([], total)
  else
    let! end0 := checked_add offset limit in
    let end_ := if bool_decide (total < end0) then total else end0 in
    let! size := checked_sub end_ offset in
    let! result :=
      copy_loop subs (Z.to_nat offset) (Z.to_nat offset) (Z.to_nat size)
        (replicate (Z.to_nat size) 0%N) in
    Ok (result, total).

(** [for (i = 0; i < size; i++) { record = records[offset + i];
    amounts[i] = record.amount; timestamps[i] = record.timestamp; }] *)
Fixpoint history_loop (records : list PaymentRecord.t) (offset i steps : nat)
    (amounts timestamps : list Z) : Result (list Z * list Z) :=
  match steps with
  | O => Ok (amounts, timestamps)
  | S steps' =>
      match records !! (offset + i)%nat with
      | None => Revert "Panic(0x32)"
      | Some record =>
          if bool_decide (i < length amounts)%nat
             && bool_decide (i < length timestamps)%nat then
            history_loop records offset (S i) steps'
              (<[i := PaymentRecord.amount record]> amounts)
              (<[i := PaymentRecord.timestamp record]> timestamps)
          else Revert "Panic(0x32)"
      end
  end.

Definition getPaymentHistory {L : Type} (subscriptionId : bytes32)
    (offset limit : Z) (w : World L) : Result (list Z * list Z * Z) :=
  let! _ := abi_uint MAX_UINT256 offset in
  let! _ := abi_uint MAX_UINT256 limit in
  let records := history_at (st w) subscriptionId in
  let total := Z.of_nat (length records) in
  if bool_decide (total ≤ offset) || bool_decide (limit = 0) then
    Ok ([], [], total)
  else
    let! end0 := checked_add offset limit in
    let end_ := if bool_decide (total < end0) then total else end0 in
    let! size := checked_sub end_ offset in
    let! (amounts, timestamps) :=
      history_loop records (Z.to_nat offset) 0 (Z.to_nat size)
        (replicate (Z.to_nat size) 0) (replicate (Z.to_nat size) 0) in
    Ok (amounts, timestamps, total).

Section Queries.
Context {L : Type} `{Ledger L}.
Variable this : address.

(** [for (i = 0; i < subscriptionIds.length; i++)
      if (_canCharge(subscriptionIds[i])) count++;] *)
Fixpoint count_loop (e : Env) (ids : list N) (w : World L) (count : Z)
    : Result Z :=
  match ids with
  | [] => Ok count
  | i :: rest =>
      let! (canChargeNow, _) := _canCharge this e i w in
      if canChargeNow then
        let! count' := checked_add count 1 in
        count_loop e rest w count'
      else count_loop e rest w count
  end.

(** [for (i = 0; i < subscriptionIds.length && added < resultSize; i++)
      if (_canCharge(subscriptionIds[i])) {
        if (found >= offset) { result[added] = subscriptionIds[i]; added++; }
        found++;
      }] *)
Fixpoint collect_loop (e : Env) (ids : list N) (w : World L)
    (offset resultSize found added : Z) (result : list N) : Result (list N) :=
  match ids with
  | [] => Ok result
  | i :: rest =>
      if bool_decide (added < resultSize) then
        let! (canChargeNow, _) := _canCharge this e i w in
        if canChargeNow then
          let! (added', result') :=
            if bool_decide (offset ≤ found) then
              let! _ := require (bool_decide (Z.to_nat added < length result)%nat)
                          "Panic(0x32)" in
              let! added' := checked_add added 1 in
              Ok (added', <[Z.to_nat added := i]> result)
            else Ok (added, result) in
          let! found' := checked_add found 1 in
          collect_loop e rest w offset resultSize found' added' result'
        else collect_loop e rest w offset resultSize found added result
      else Ok result
  end.

Definition getPendingCharges (e : Env) (offset limit : Z) (w : World L)
    : Result (list N * Z) :=
  let! _ := abi_uint MAX_UINT256 offset in
  let! _ := abi_uint MAX_UINT256 limit in
  let! count := count_loop e (subscriptionIds (st w)) w 0 in
  let total := count in
  if bool_decide (total ≤ offset) || bool_decide (limit = 0) then Ok ([], total)
  else
    let! end0 := checked_add offset limit in
    let! resultSize :=
      if bool_decide (total < end0) then checked_sub total offset else Ok limit in
    let! result :=
      collect_loop e (subscriptionIds (st w)) w offset resultSize 0 0
        (replicate (Z.to_nat resultSize) 0%N) in
    Ok (result, total).

End Queries.

(** The page [offset, offset + limit) of a list. *)
Definition page {A : Type} (offset limit : Z) (l : list A) : list A :=
  take (Z.to_nat limit) (drop (Z.to_nat offset) l).

(** [_canCharge] answers, and says yes. *)
Definition says_yes (r : Result (bool * ChargeFailReason)) : bool :=
  match r with
  | Ok (canChargeNow, _) => canChargeNow
  | Revert _ => false
  end.

(** The identifiers among [ids] that [_canCharge] finds eligible, in order. *)
Definition eligible {L : Type} `{Ledger L} (this : address) (e : Env)
    (w : World L) (ids : list N) : list N :=
  filter (λ i, says_yes (_canCharge this e i w) = true) ids.

(** [_canCharge] answers for every identifier of [ids]: no view of a token
    it has to ask reverts. *)
Definition answered {L : Type} `{Ledger L} (this : address) (e : Env)
    (w : World L) (ids : list N) : Prop :=
  Forall (λ i, is_ok (_canCharge this e i w) = true) ids.

(** ** What a transaction can do to the storage *)

(** The subscription that [_subscribe] writes. *)
Definition new_subscription (e : Env) (planId subscriptionId : bytes32)
    (periodEnd : Z) (trial : bool) : Subscription.t :=
  Subscription.mk subscriptionId planId (msg_sender e) Active
    (block_timestamp e) (block_timestamp e) periodEnd false 0
    (if trial then 0 else 1).

(** The storage after [_subscribe] has written the subscription, the three
    indexes, the nonce and the plan's subscriber count. *)
Definition enroll (e : Env) (planId subscriptionId : bytes32)
    (sub : Subscription.t) (s : State) : State :=
  let s1 := set_subscriptionNonce (_subscriptionNonce s + 1) s in
  let s2 := write_sub subscriptionId sub s1 in
  let s3 := set_subscriptionIds (subscriptionIds s2 ++ [subscriptionId]) s2 in
  let s4 :=
    set_userSubscriptions
      (<[msg_sender e :=
           default [] (userSubscriptions s3 !! msg_sender e) ++ [subscriptionId]]>
         (userSubscriptions s3)) s3 in
  let s5 :=
    set_planSubscriptions
      (<[planId :=
           default [] (planSubscriptions s4 !! planId) ++ [subscriptionId]]>
         (planSubscriptions s4)) s4 in
  write_plan planId
    (Plan.set_subscriberCount (Plan.subscriberCount (plan_at s planId) + 1)
       (plan_at s planId)) s5.

(** [msg.sender] is the subscriber of [sub] or the merchant of its plan. *)
Definition is_party (e : Env) (s : State) (sub : Subscription.t) : Prop :=
  msg_sender e = Subscription.subscriber sub
  ∨ msg_sender e = Plan.merchant (plan_at s (Subscription.planId sub)).

(** The first four tests of [_canCharge] pass: the subscription [i] is due
    on an active plan and neither Canceled nor Paused. *)
Definition due (e : Env) (s : State) (i : bytes32) : Prop :=
  Plan.active (plan_at s (Subscription.planId (sub_at s i))) = true
  ∧ Subscription.status (sub_at s i) ≠ Canceled
  ∧ Subscription.status (sub_at s i) ≠ Paused
  ∧ Subscription.currentPeriodEnd (sub_at s i) ≤ block_timestamp e.

(** What a successful call of a function without [nonReentrant] does to the
    storage.  These are the functions a callee can run while the engine
    waits for an external call to return. *)
Inductive Free (e : Env) (s : State) : State → Prop :=
| free_none : Free e s s
| free_add_token token :
    _owner s = msg_sender e →
    token_supported s token = false →
    Free e s
      (set_supportedTokens (supportedTokens s ++ [token])
         (set_tokenSupported (<[token := true]> (tokenSupported s)) s))
| free_remove_token token :
    _owner s = msg_sender e →
    token ≠ 0%N →
    token_supported s token = true →
    Free e s
      (set_supportedTokens (swap_remove token (supportedTokens s))
         (set_tokenSupported (<[token := false]> (tokenSupported s)) s))
| free_switch b :
    _owner s = msg_sender e →
    _paused s = negb b →
    Free e s (set_paused b s)
| free_owner newOwner :
    _owner s = msg_sender e →
    Free e s (set_owner newOwner s)
| free_create_plan planId amount token interval merchantAddress :
    _paused s = false →
    Plan.merchant (plan_at s planId) = 0%N →
    0 < amount ≤ MAX_UINT256 →
    DAY ≤ interval ≤ MAX_UINT32 →
    merchantAddress ≠ 0%N →
    token_supported s token = true →
    Free e s
      (set_planIds (planIds s ++ [planId])
         (write_plan planId
            (Plan.mk planId amount token interval merchantAddress true 0
               (block_timestamp e)) s))
| free_update_plan planId active :
    Plan.merchant (plan_at s planId) ≠ 0%N →
    msg_sender e = Plan.merchant (plan_at s planId)
    ∨ msg_sender e = _owner s →
    Free e s (write_plan planId (Plan.set_active active (plan_at s planId)) s)
| free_cancel subscriptionId (immediately : bool) :
    let sub := sub_at s subscriptionId in
    Subscription.subscriber sub ≠ 0%N →
    is_party e s sub →
    Subscription.status sub = Active ∨ Subscription.status sub = Paused →
    Free e s
      (write_sub subscriptionId
         (if immediately then
            Subscription.set_currentPeriodEnd (block_timestamp e)
              (Subscription.set_status Canceled sub)
          else Subscription.set_cancelAtPeriodEnd true sub) s)
| free_pause subscriptionId :
    let sub := sub_at s subscriptionId in
    Subscription.subscriber sub ≠ 0%N →
    is_party e s sub →
    Subscription.status sub = Active →
    Free e s
      (write_sub subscriptionId
         (Subscription.set_pausedAt (block_timestamp e)
            (Subscription.set_status Paused sub)) s)
| free_resume subscriptionId :
    let sub := sub_at s subscriptionId in
    Subscription.subscriber sub ≠ 0%N →
    msg_sender e = Subscription.subscriber sub →
    Subscription.status sub = Paused →
    Subscription.pausedAt sub ≤ block_timestamp e →
    Free e s
      (write_sub subscriptionId
         (Subscription.set_cancelAtPeriodEnd false
            (Subscription.set_pausedAt 0
               (Subscription.set_currentPeriodEnd
                  (Subscription.currentPeriodEnd sub
                   + (block_timestamp e - Subscription.pausedAt sub))
                  (Subscription.set_status Active sub)))) s).

(** A call of such a function at block time [now], sent by an account in
    [Q]. *)
Definition FreeBy (Q : address → Prop) (now : Z) (s s' : State) : Prop :=
  ∃ e : Env, Q (msg_sender e) ∧ block_timestamp e = now ∧ Free e s s'.

Section Effects.
Variable keccak256_id : bytes32 → address → Z → Z → bytes32.

(** What a function under [nonReentrant] writes once its external call is
    back: [s0] is the storage when the function was called, [s1] the storage
    the external call left (it is [s0] when there was none), and the
    function writes to [s1]. *)
Inductive Finish (e : Env) (s0 s1 : State) : State → Prop :=
| fin_none : Finish e s0 s1 s1
| fin_subscribe planId trialDays periodEnd :
    let plan := plan_at s0 planId in
    let subscriptionId :=
      keccak256_id planId (msg_sender e) (block_timestamp e)
        (_subscriptionNonce s0 + 1) in
    let sub :=
      new_subscription e planId subscriptionId periodEnd
        (bool_decide (0 < trialDays)) in
    _paused s0 = false →
    Plan.merchant plan ≠ 0%N →
    Plan.active plan = true →
    0 ≤ trialDays ≤ MAX_UINT32 →
    _subscriptionNonce s0 + 1 ≤ MAX_UINT256 →
    periodEnd = block_timestamp e
                + (if bool_decide (0 < trialDays) then trialDays * DAY
                   else Plan.interval plan) →
    (0 < trialDays → s1 = s0) →
    Finish e s0 s1
      (if bool_decide (trialDays = 0) then
         push_history subscriptionId
           (PaymentRecord.mk (Plan.amount (plan_at s1 planId))
              (block_timestamp e) (block_timestamp e) periodEnd)
           (enroll e planId subscriptionId sub s1)
       else enroll e planId subscriptionId sub s1)
| fin_charge_cancels subscriptionId :
    let sub := sub_at s0 subscriptionId in
    s1 = s0 →
    Subscription.subscriber sub ≠ 0%N →
    due e s0 subscriptionId →
    Subscription.cancelAtPeriodEnd sub = true →
    Finish e s0 s1
      (write_sub subscriptionId (Subscription.set_status Canceled sub) s1)
| fin_expire subscriptionId :
    let sub := sub_at s0 subscriptionId in
    Subscription.subscriber sub ≠ 0%N →
    due e s0 subscriptionId →
    Subscription.cancelAtPeriodEnd sub = false →
    Finish e s0 s1
      (write_sub subscriptionId
         (Subscription.set_status Expired (sub_at s1 subscriptionId)) s1)
| fin_renew subscriptionId :
    let sub := sub_at s0 subscriptionId in
    let a := sub_at s1 subscriptionId in
    let plan := plan_at s1 (Subscription.planId sub) in
    let oldEnd := Subscription.currentPeriodEnd a in
    let newEnd := oldEnd + Plan.interval plan in
    Subscription.subscriber sub ≠ 0%N →
    due e s0 subscriptionId →
    Subscription.cancelAtPeriodEnd sub = false →
    Plan.token (plan_at s0 (Subscription.planId sub)) ≠ 0%N →
    newEnd ≤ MAX_UINT256 →
    Subscription.paymentCount a + 1 ≤ MAX_UINT256 →
    Finish e s0 s1
      (push_history subscriptionId
         (PaymentRecord.mk (Plan.amount plan) (block_timestamp e) oldEnd newEnd)
         (write_sub subscriptionId
            (Subscription.set_paymentCount (Subscription.paymentCount a + 1)
               (Subscription.set_currentPeriodEnd newEnd
                  (Subscription.set_currentPeriodStart oldEnd a))) s1))
| fin_pay orderId amount token merchant :
    _paused s0 = false →
    Payment.payer (payment_at s0 orderId) = 0%N →
    Finish e s0 s1
      (set_payments
         (<[orderId :=
              Payment.mk orderId (msg_sender e) merchant amount token
                (block_timestamp e) true]> (payments s1)) s1).

(** What one successful call does to the storage, when the accounts that
    call back during its external calls are in [Q]: a function without
    [nonReentrant] does its one thing; a function under [nonReentrant] lets
    the callees do theirs, which only the functions without the guard allow,
    and then finishes. *)
Inductive Effect (Q : address → Prop) (e : Env) (s : State) : State → Prop :=
| eff_free s' : Free e s s' → Effect Q e s s'
| eff_finish s1 s' :
    rtc (FreeBy Q (block_timestamp e)) s s1 →
    Finish e s s1 s' →
    Effect Q e s s'.

Definition EffectBy (Q : address → Prop) (now : Z) (s s' : State) : Prop :=
  ∃ e : Env, Q (msg_sender e) ∧ block_timestamp e = now ∧ Effect Q e s s'.

End Effects.

(** Every account that calls the engine in [does] is in [Q]. *)
Definition quiet {L : Type} (Q : address → Prop) (does : list (Act L)) : Prop :=
  Forall (λ a, match a with Enter sender _ _ => Q sender | Adjust _ => True end)
    does.

(** Whatever the ledger is asked, only accounts in [Q] call the engine
    before the answer comes: accounts outside [Q] have no code that could,
    or are not called. *)
Definition callers {L : Type} `{Ledger L} (Q : address → Prop) : Prop :=
  (∀ (l l' : L) (token spender from to : address) (amount : Z) (success : bool)
      (does : list (Act L)),
     transferFrom l token spender from to amount = Returned success l' does →
     quiet Q does)
  ∧ (∀ (l l' : L) (token from to : address) (amount : Z) (success : bool)
       (does : list (Act L)),
       transfer l token from to amount = Returned success l' does →
       quiet Q does)
  ∧ (∀ (l l' : L) (from to : address) (amount : Z) (does : list (Act L)),
       send_value l from to amount = Some (l', does) → quiet Q does).

(** What the functions without [nonReentrant], called at block time [now],
    leave alone: the payments, the nonce, the lists, the Payment Records,
    which subscriptions are stored, and of each subscription its identity,
    its period start and its payment count; the terms and the subscriber
    count of every plan that exists.  A subscription that is Canceled or
    Expired stays as it is, and one that was due at [now], and paused at
    [now] if it is Paused, is so afterwards, with a period end that is no
    earlier. *)
Definition frame (now : Z) (s s' : State) : Prop :=
  payments s' = payments s
  ∧ _subscriptionNonce s' = _subscriptionNonce s
  ∧ subscriptionIds s' = subscriptionIds s
  ∧ userSubscriptions s' = userSubscriptions s
  ∧ planSubscriptions s' = planSubscriptions s
  ∧ subscriptionPayments s' = subscriptionPayments s
  ∧ (∀ i : bytes32, subscriptions s' !! i = None ↔ subscriptions s !! i = None)
  ∧ (∀ i : bytes32,
       let a := sub_at s i in
       let b := sub_at s' i in
       Subscription.id b = Subscription.id a
       ∧ Subscription.planId b = Subscription.planId a
       ∧ Subscription.subscriber b = Subscription.subscriber a
       ∧ Subscription.startTime b = Subscription.startTime a
       ∧ Subscription.currentPeriodStart b = Subscription.currentPeriodStart a
       ∧ Subscription.paymentCount b = Subscription.paymentCount a
       ∧ (Subscription.status a = Canceled ∨ Subscription.status a = Expired →
          b = a)
       ∧ (Subscription.currentPeriodEnd a ≤ now →
          (Subscription.status a = Paused → Subscription.pausedAt a = now) →
          Subscription.currentPeriodEnd a ≤ Subscription.currentPeriodEnd b
          ∧ Subscription.currentPeriodEnd b ≤ now
          ∧ (Subscription.status b = Paused → Subscription.pausedAt b = now)))
  ∧ (∀ p : bytes32,
       Plan.merchant (plan_at s p) ≠ 0%N →
       Plan.set_active true (plan_at s' p) = Plan.set_active true (plan_at s p)).

(** Every transaction of [xs] is in a block before time [t]. *)
Definition before {L : Type} (t : Z) (xs : list (Step (L := L))) : Prop :=
  Forall (λ x, match x with
               | Tx e _ => block_timestamp e < t
               | Outside _ => True
               end) xs.

(** The hash never gives two positive nonces the same identifier. *)
Definition nonce_injective (h : bytes32 → address → Z → Z → bytes32) : Prop :=
  ∀ (p p' : bytes32) (u u' : address) (t t' n n' : Z),
    0 < n → 0 < n' → h p u t n = h p' u' t' n' → n = n'.

(** Every identifier under which a subscription or a Payment Record is stored
    was drawn with a nonce already used. *)
Definition ids_ok (h : bytes32 → address → Z → Z → bytes32) (s : State) : Prop :=
  0 ≤ _subscriptionNonce s
  ∧ ∀ i : bytes32,
      subscriptions s !! i ≠ None ∨ subscriptionPayments s !! i ≠ None →
      ∃ (p : bytes32) (u : address) (t n : Z),
        0 < n ≤ _subscriptionNonce s ∧ i = h p u t n.

(** The payment count of every subscription is the number of its Payment
    Records. *)
Definition counts_ok (s : State) : Prop :=
  ∀ i : bytes32,
    Subscription.paymentCount (sub_at s i) = Z.of_nat (length (history_at s i)).

(** The registry: the token list has no duplicates, lists exactly the tokens
    flagged as supported, and the native currency is among them. *)
Definition registry_ok (s : State) : Prop :=
  NoDup (supportedTokens s)
  ∧ (∀ token : address, token_supported s token = true ↔ token ∈ supportedTokens s)
  ∧ token_supported s 0%N = true.

(** The plan index: the plan list has no duplicates and lists exactly the
    plans that exist; a plan's subscriber count is the length of its
    subscription list, and a plan that does not exist has none. *)
Definition plan_index_ok (s : State) : Prop :=
  NoDup (planIds s)
  ∧ (∀ planId : bytes32,
       planId ∈ planIds s ↔ Plan.merchant (plan_at s planId) ≠ 0%N)
  ∧ (∀ planId : bytes32,
       Plan.subscriberCount (plan_at s planId)
       = Z.of_nat (length (default [] (planSubscriptions s !! planId))))
  ∧ (∀ planId : bytes32,
       Plan.merchant (plan_at s planId) = 0%N →
       default [] (planSubscriptions s !! planId) = []).

(** The subscription indexes: the global list has no duplicates, has one
    entry per nonce drawn and lists exactly the stored subscriptions; the
    list of a user (of a plan) has no duplicates and lists exactly the
    stored subscriptions of that subscriber (on that plan); every stored
    subscription carries its own identifier. *)
Definition index_ok (s : State) : Prop :=
  NoDup (subscriptionIds s)
  ∧ Z.of_nat (length (subscriptionIds s)) = _subscriptionNonce s
  ∧ (∀ i : bytes32, i ∈ subscriptionIds s ↔ is_Some (subscriptions s !! i))
  ∧ (∀ u : address, NoDup (default [] (userSubscriptions s !! u)))
  ∧ (∀ (u : address) (i : bytes32),
       i ∈ default [] (userSubscriptions s !! u)
       ↔ is_Some (subscriptions s !! i) ∧ Subscription.subscriber (sub_at s i) = u)
  ∧ (∀ p : bytes32, NoDup (default [] (planSubscriptions s !! p)))
  ∧ (∀ p i : bytes32,
       i ∈ default [] (planSubscriptions s !! p)
       ↔ is_Some (subscriptions s !! i) ∧ Subscription.planId (sub_at s i) = p)
  ∧ (∀ i : bytes32,
       is_Some (subscriptions s !! i) → Subscription.id (sub_at s i) = i).

(** The plan of every stored subscription exists. *)
Definition sub_plans_ok (s : State) : Prop :=
  ∀ i : bytes32,
    is_Some (subscriptions s !! i) →
    Plan.merchant (plan_at s (Subscription.planId (sub_at s i))) ≠ 0%N.

(** The invariant carried along a history whose latest block has time [t]. *)
Definition Inv (t : Z) (s : State) : Prop :=
  plans_ok s ∧ periods_ok t s ∧ sub_plans_ok s.

(** The terms of a plan: all of it but the active flag and the subscriber
    count. *)
Definition plan_terms (p : Plan.t) : bytes32 * Z * address * Z * address * Z :=
  (Plan.id p, Plan.amount p, Plan.token p, Plan.interval p, Plan.merchant p,
   Plan.createdAt p).

(** What identifies a subscription: its identifier, plan, subscriber and
    start time. *)
Definition sub_identity (x : Subscription.t) : bytes32 * bytes32 * address * Z :=
  (Subscription.id x, Subscription.planId x, Subscription.subscriber x,
   Subscription.startTime x).

(** Canceled and Expired. *)
Definition closed (x : SubscriptionStatus) : Prop := x = Canceled ∨ x = Expired.

(** The invariants of the subscription storage taken together. *)
Definition storage_ok (h : bytes32 → address → Z → Z → bytes32) (s : State)
    : Prop :=
  ids_ok h s ∧ counts_ok s ∧ index_ok s ∧ sub_plans_ok s.

(** What a transaction of [e] can have done to the subscription [a] when its
    sender is no party to it: the identity, the pause time and the deferred
    cancellation stay; the status stays or is closed; and if anything
    changed, [a] was due and neither Canceled nor Paused. *)
Definition charged_only (e : Env) (a b : Subscription.t) : Prop :=
  sub_identity b = sub_identity a
  ∧ Subscription.pausedAt b = Subscription.pausedAt a
  ∧ Subscription.cancelAtPeriodEnd b = Subscription.cancelAtPeriodEnd a
  ∧ (Subscription.status b = Subscription.status a
     ∨ closed (Subscription.status b))
  ∧ (b = a
     ∨ (Subscription.currentPeriodEnd a ≤ block_timestamp e
        ∧ Subscription.status a ≠ Canceled
        ∧ Subscription.status a ≠ Paused)).

(** The period of a Payment Record is not empty and had begun when the
    payment was taken. *)
Definition record_ok (r : PaymentRecord.t) : Prop :=
  PaymentRecord.periodStart r ≤ PaymentRecord.timestamp r
  ∧ PaymentRecord.periodStart r < PaymentRecord.periodEnd r.

(** Each record of a history was taken no earlier than the one before it and
    pays for a period that starts no earlier than the previous one ends. *)
Definition in_order (rs : list PaymentRecord.t) : Prop :=
  ∀ (k : nat) (r r' : PaymentRecord.t),
    rs !! k = Some r → rs !! S k = Some r' →
    PaymentRecord.timestamp r ≤ PaymentRecord.timestamp r'
    ∧ PaymentRecord.periodEnd r ≤ PaymentRecord.periodStart r'.

(** The histories at time [t]: every one is made of sound records in order,
    and its latest record was taken by [t] and, unless the subscription is
    Canceled, pays for a period that ends by the current period end. *)
Definition history_ok (t : Z) (s : State) : Prop :=
  ∀ i : bytes32,
    Forall record_ok (history_at s i)
    ∧ in_order (history_at s i)
    ∧ (∀ r : PaymentRecord.t,
         last (history_at s i) = Some r →
         PaymentRecord.timestamp r ≤ t
         ∧ (Subscription.status (sub_at s i) ≠ Canceled →
            PaymentRecord.periodEnd r
            ≤ Subscription.currentPeriodEnd (sub_at s i))).

(** The invariants that the histories rest on. *)
Definition sound (h : bytes32 → address → Z → Z → bytes32) (t : Z)
    (s : State) : Prop :=
  Inv t s ∧ ids_ok h s ∧ history_ok t s.

(** Only stored subscriptions have Payment Records, and every record carries
    the amount of the subscription's plan. *)
Definition amounts_ok (s : State) : Prop :=
  ∀ i : bytes32,
    (history_at s i ≠ [] → is_Some (subscriptions s !! i))
    ∧ Forall
        (λ r, PaymentRecord.amount r
              = Plan.amount (plan_at s (Subscription.planId (sub_at s i))))
        (history_at s i).

(** ** More concrete histories *)
Module Cases.
Import Scenario.

(** The world a successful transaction leaves behind. *)
Definition after_exec {L : Type} (r : Result (World L)) (w : World L) : World L :=
  match r with Ok w' => w' | Revert _ => w end.

(** A transaction sent to the engine. *)
Definition top : Env → Call → World Bank.t → Result (World Bank.t) :=
  exec ENGINE nonce_id CALL_DEPTH.

(** Someone who is no party to anything. *)
Definition STRANGER : address := 9%N.

(** The first renewal of subscription [1], charged when it falls due. *)
Definition renewed : list (Step (L := Bank.t)) :=
  subscribed ++ [ Tx due (CallCharge 1) ].

(** The world after that charge, seen from the call. *)
Definition renewed_world : World Bank.t :=
  after (charge ENGINE below due 1 (go subscribed)) (go subscribed).

(** What follows the cancellation: a charge, an attempt to resume, a second
    subscription. *)
Definition aftermath : list (Step (L := Bank.t)) :=
  [ Tx due (CallCharge 1);
    Tx (at_ USER (t0 + MONTH + 1)) (CallResumeSubscription 1);
    Tx (at_ USER (t0 + MONTH + 2)) (CallSubscribe 11);
    Tx (at_ MERCHANT (t0 + MONTH + 3)) (CallUpdatePlan 11 false) ].

(** The payer cancels subscription [1] five seconds after subscribing. *)
Definition user_cancels : World Bank.t :=
  after_exec (top (at_ USER (t0 + 5)) (CallCancelSubscription 1 true)
                (go subscribed))
    (go subscribed).

(** The payer subscribes a second time. *)
Definition user_subscribes_again : World Bank.t :=
  after_exec (top (at_ USER (t0 + 5)) (CallSubscribe 11) (go subscribed))
    (go subscribed).

(** A stranger sends a batch that names the due subscription twice. *)
Definition stranger_charges : World Bank.t :=
  after_exec (top (at_ STRANGER (t0 + MONTH)) (CallBatchCharge [1%N; 1%N])
                (go subscribed))
    (go subscribed).

(** The payer asks for subscription [1] to end with its period. *)
Definition flagged : list (Step (L := Bank.t)) :=
  subscribed ++ [ Tx (at_ USER (t0 + 5)) (CallCancelSubscription 1 false) ].

(** A stranger charges subscription [1] one second before the period that
    the first renewal paid for ends, and the payer pauses and resumes it. *)
Definition early : list (Step (L := Bank.t)) :=
  [ Tx (at_ STRANGER (t0 + MONTH + 10)) (CallCharge 1);
    Tx (at_ USER (t0 + MONTH + 20)) (CallPauseSubscription 1);
    Tx (at_ USER (t0 + MONTH + 30)) (CallResumeSubscription 1);
    Tx (at_ STRANGER (t0 + MONTH + MONTH - 1)) (CallBatchCharge [1%N; 1%N]) ].


(** The owner pauses the engine. *)
Definition engine_paused : list (Step (L := Bank.t)) :=
  subscribed ++ [ Tx (at_ OWNER (t0 + 2)) CallPause ].

(** ... and the merchant then switches the token plan off. *)
Definition paused_plan_off : World Bank.t :=
  after_exec (top (at_ MERCHANT (t0 + 3)) (CallUpdatePlan 11 false)
                (go engine_paused))
    (go engine_paused).
End Cases.

(** ** Histories with tokens that do not keep to the interface *)
Module Incidents.
Import Scenario.

(** A token with transfer hooks, a token that returns no data, and an
    address without code that the owner lists as a token. *)
Definition HOOKED : address := 5%N.
Definition SILENT : address := 6%N.
Definition ABSENT : address := 8%N.

Definition quirks0 : Quirks.t :=
  Quirks.mk
    (Bank.mk {[ (TOKEN, USER) := 5000; (HOOKED, USER) := 5000;
                (SILENT, USER) := 5000 ]}
             {[ (TOKEN, USER, ENGINE) := 5000; (HOOKED, USER, ENGINE) := 5000;
                (SILENT, USER, ENGINE) := 5000 ]} [])
    [SILENT] [ABSENT] [].

Definition deployed : World Quirks.t :=
  deploy (mkEnv OWNER 0 (t0 - 100)) quirks0.

Definition go (xs : list (Step (L := Quirks.t))) : World Quirks.t :=
  run ENGINE nonce_id xs deployed.

(** A transaction sent to the engine. *)
Definition top : Env → Call → World Quirks.t → Result (World Quirks.t) :=
  exec ENGINE nonce_id CALL_DEPTH.

(** The payer's account is a contract that the hooked token calls whenever
    tokens leave it, and that cancels subscription [1] at once when it is
    called. *)
Definition install_hook (l : Quirks.t) : Quirks.t :=
  Quirks.mk (Quirks.bank l) (Quirks.silent l) (Quirks.absent l)
    [(HOOKED, (USER, CallCancelSubscription 1 true))].

(** Monthly plans at 1000: [11] in the plain token, [14] in the hooked one,
    [15] in the silent one and [16] in the token without code. *)
Definition setup : list (Step (L := Quirks.t)) :=
  [ Tx (at_ OWNER (t0 - 60)) (CallAddSupportedToken TOKEN);
    Tx (at_ OWNER (t0 - 60)) (CallAddSupportedToken HOOKED);
    Tx (at_ OWNER (t0 - 60)) (CallAddSupportedToken SILENT);
    Tx (at_ OWNER (t0 - 60)) (CallAddSupportedToken ABSENT);
    Tx (at_ MERCHANT (t0 - 50)) (CallCreatePlan 11 1000 TOKEN MONTH MERCHANT);
    Tx (at_ MERCHANT (t0 - 50)) (CallCreatePlan 14 1000 HOOKED MONTH MERCHANT);
    Tx (at_ MERCHANT (t0 - 50)) (CallCreatePlan 15 1000 SILENT MONTH MERCHANT);
    Tx (at_ MERCHANT (t0 - 50)) (CallCreatePlan 16 1000 ABSENT MONTH MERCHANT) ].

(** The payer subscribes to the hooked plan at [t0]: subscription [1]; the
    hook is installed afterwards. *)
Definition hooked : list (Step (L := Quirks.t)) :=
  setup ++ [ Tx (at_ USER t0) (CallSubscribe 14); Outside install_hook ].

(** Five seconds after the first renewal of that subscription fell due. *)
Definition overdue : Env := at_ OWNER (t0 + MONTH + 5).

(** The world after the renewal charge sent then. *)
Definition hooked_charged : World Quirks.t :=
  Cases.after_exec (top overdue (CallCharge 1) (go hooked)) (go hooked).

(** The owner's account is a contract that the hooked token calls as well,
    and that reopens the engine and lists a plan of its own when called. *)
Definition install_owner_hook (l : Quirks.t) : Quirks.t :=
  Quirks.mk (Quirks.bank l) (Quirks.silent l) (Quirks.absent l)
    [(HOOKED, (OWNER, CallUnpause));
     (HOOKED, (OWNER, CallCreatePlan 17 1000 0 MONTH OWNER))].

(** The payer subscribes to the hooked plan, the owner's hook is installed,
    and the owner pauses the engine. *)
Definition paused_hooked : list (Step (L := Quirks.t)) :=
  setup ++
  [ Tx (at_ USER t0) (CallSubscribe 14);
    Outside install_owner_hook;
    Tx (at_ OWNER (t0 + 1)) CallPause ].

(** The world after the merchant has charged that subscription. *)
Definition paused_hooked_charged : World Quirks.t :=
  Cases.after_exec
    (top (at_ MERCHANT (t0 + MONTH + 5)) (CallCharge 1) (go paused_hooked))
    (go paused_hooked).

(** The payer starts a thirty-day trial of the silent plan at [t0]:
    subscription [1]. *)
Definition silent_trial : list (Step (L := Quirks.t)) :=
  setup ++ [ Tx (at_ USER t0) (CallSubscribeWithTrial 15 30) ].

(** The payer subscribes to the plain plan at [t0], subscription [1], and
    starts a thirty-day trial of the plan in the token without code,
    subscription [2]. *)
Definition two_plans : list (Step (L := Quirks.t)) :=
  setup ++
  [ Tx (at_ USER t0) (CallSubscribe 11);
    Tx (at_ USER t0) (CallSubscribeWithTrial 16 30) ].
End Incidents.
(** ** Inverting successful computations *)

Lemma bind_Ok {A B : Type} (c : Result A) (k : A → Result B) (b : B) :
  bind c k = Ok b ↔ ∃ a, c = Ok a ∧ k a = Ok b.
Proof.
  destruct c as [a|m]; simpl; split.
  - intros Hk. exists a. by split.
  - by intros (a' & [= ->] & Hk).
  - intros [=].
  - by intros (a' & [=] & _).
Qed.

Lemma require_Ok (b : bool) (m : string) (u : unit) :
  require b m = Ok u ↔ b = true.
Proof. destruct b, u; simpl; split; intros; done. Qed.

Lemma checked_add_Ok (a b c : Z) :
  checked_add a b = Ok c ↔ c = a + b ∧ a + b ≤ MAX_UINT256.
Proof.
  unfold checked_add. case_bool_decide; split.
  - by intros [= <-].
  - by intros [-> _].
  - intros [=].
  - intros [_ ?]. lia.
Qed.

Lemma checked_sub_Ok (a b c : Z) :
  checked_sub a b = Ok c ↔ c = a - b ∧ b ≤ a.
Proof.
  unfold checked_sub. case_bool_decide; split.
  - by intros [= <-].
  - by intros [-> _].
  - intros [=].
  - intros [_ ?]. lia.
Qed.

Lemma abi_uint_Ok (bound x : Z) (u : unit) :
  abi_uint bound x = Ok u ↔ 0 ≤ x ≤ bound.
Proof.
  unfold abi_uint. rewrite require_Ok. apply bool_decide_eq_true.
Qed.

Lemma view_call_Ok (answer : option Z) (m : string) (x : Z) :
  view_call answer m = Ok x ↔ answer = Some x.
Proof. destruct answer; simpl; split; congruence. Qed.

Lemma checked_add_fits (a b : Z) :
  a + b ≤ MAX_UINT256 → checked_add a b = Ok (a + b).
Proof. intros. unfold checked_add. by rewrite bool_decide_eq_true_2. Qed.

Ltac inv_ok :=
  repeat match goal with
  | H : bind _ _ = Ok _ |- _ =>
      let a := fresh "a" in apply bind_Ok in H as (a & ? & H)
  | H : require _ _ = Ok _ |- _ => apply require_Ok in H
  | H : abi_uint _ _ = Ok _ |- _ => apply abi_uint_Ok in H
  | H : checked_add _ _ = Ok _ |- _ => apply checked_add_Ok in H as [-> ?]
  | H : checked_sub _ _ = Ok _ |- _ => apply checked_sub_Ok in H as [-> ?]
  | H : view_call _ _ = Ok _ |- _ => apply view_call_Ok in H
  | H : Ok _ = Ok _ |- _ => injection H as H; try subst
  | H : Revert _ = Ok _ |- _ => discriminate H
  | H : bool_decide _ = true |- _ => apply bool_decide_eq_true in H
  | H : bool_decide _ = false |- _ => apply bool_decide_eq_false in H
  | H : negb _ = true |- _ => apply negb_true_iff in H
  | H : negb _ = false |- _ => apply negb_false_iff in H
  | H : _ && _ = true |- _ => apply andb_true_iff in H as [? ?]
  | H : (_, _) = (_, _) |- _ => injection H as ? ?; try subst
  | x : (_ * _)%type |- _ => destruct x
  end.

(** ** Reading storage after a write *)

Lemma sub_at_write_sub_eq (s : State) (i : N) (x : Subscription.t) :
  sub_at (write_sub i x s) i = x.
Proof. unfold sub_at, write_sub; simpl. by rewrite lookup_insert_eq. Qed.

Lemma sub_at_write_sub_ne (s : State) (i j : N) (x : Subscription.t) :
  i ≠ j → sub_at (write_sub i x s) j = sub_at s j.
Proof. intros. unfold sub_at, write_sub; simpl. by rewrite lookup_insert_ne. Qed.

Lemma plan_at_write_plan_eq (s : State) (i : N) (p : Plan.t) :
  plan_at (write_plan i p s) i = p.
Proof. unfold plan_at, write_plan; simpl. by rewrite lookup_insert_eq. Qed.

Lemma plan_at_write_plan_ne (s : State) (i j : N) (p : Plan.t) :
  i ≠ j → plan_at (write_plan i p s) j = plan_at s j.
Proof. intros. unfold plan_at, write_plan; simpl. by rewrite lookup_insert_ne. Qed.

Lemma history_at_push_eq (s : State) (i : N) (r : PaymentRecord.t) :
  history_at (push_history i r s) i = history_at s i ++ [r].
Proof. unfold history_at at 1, push_history; simpl. by rewrite lookup_insert_eq. Qed.

Lemma history_at_push_ne (s : State) (i j : N) (r : PaymentRecord.t) :
  i ≠ j → history_at (push_history i r s) j = history_at s j.
Proof.
  intros. unfold history_at at 1, push_history; simpl.
  by rewrite lookup_insert_ne.
Qed.

(** ** The re-entrancy guard *)

Section Guard.
Context {L : Type}.

Lemma nonReentrant_Ok {A : Type} (body : World L → Result (A * World L))
    (w w' : World L) (a : A) :
  nonReentrant body w = Ok (a, w')
  ↔ _status w = _NOT_ENTERED
    ∧ ∃ w2, body (with_status _ENTERED w) = Ok (a, w2)
            ∧ w' = with_status _NOT_ENTERED w2.
Proof.
  unfold nonReentrant, _nonReentrantBefore, _nonReentrantAfter.
  destruct (_status w) eqn:Hs; simpl.
  - destruct (body _) as [[a' w2]|m]; simpl.
    + split.
      * intros [= -> <-]. split; [done|]. by exists w2.
      * intros (_ & w3 & [= -> ->] & ->). done.
    + split; [done|]. by intros (_ & w3 & [=] & _).
  - split; [done|]. by intros [[=] _].
Qed.

Lemma nonReentrant_entered {A : Type} (body : World L → Result (A * World L))
    (w : World L) :
  _status w = _ENTERED →
  nonReentrant body w = Revert "ReentrancyGuard: reentrant call".
Proof.
  intros Hs. unfold nonReentrant, _nonReentrantBefore. by rewrite Hs.
Qed.

Lemma nonReentrant_open {A : Type} (body : World L → Result (A * World L))
    (w : World L) :
  _status w = _NOT_ENTERED →
  nonReentrant body w
  = let! (a, w2) := body (with_status _ENTERED w) in
    Ok (a, with_status _NOT_ENTERED w2).
Proof.
  intros Hs. unfold nonReentrant, _nonReentrantBefore. by rewrite Hs.
Qed.

(** Closing the guard gives back the world the body started from, up to
    what the body did. *)
Lemma guard_round_trip (w : World L) :
  _status w = _NOT_ENTERED →
  with_status _NOT_ENTERED (with_status _ENTERED w) = w.
Proof. destruct w. simpl. by intros ->. Qed.

End Guard.

(** ** Calls and histories *)

Section Calls.
Context {L : Type} `{Ledger L}.
Variable this : address.
Variable keccak256_id : bytes32 → address → Z → Z → bytes32.

Lemma exec_unfold (depth : nat) (e : Env) (c : Call) (w : World L) :
  exec this keccak256_id depth e c w
  = dispatch this keccak256_id (reentry this keccak256_id depth) e c w.
Proof. by destruct depth. Qed.

Lemma run_cons (x : Step) (xs : list Step) (w : World L) :
  run this keccak256_id (x :: xs) w
  = run this keccak256_id xs (step this keccak256_id w x).
Proof. done. Qed.

Lemma run_app (xs ys : list Step) (w : World L) :
  run this keccak256_id (xs ++ ys) w
  = run this keccak256_id ys (run this keccak256_id xs w).
Proof. apply foldl_app. Qed.

Lemma step_revert (e : Env) (c : Call) (w : World L) :
  (∀ l, ∃ m, exec this keccak256_id CALL_DEPTH e c (with_ledger l w) = Revert m) →
  step this keccak256_id w (Tx e c) = w.
Proof.
  intros Hrev. unfold step. destruct (credit _ _ _ _) as [l1|]; [|done].
  by destruct (Hrev l1) as [m ->].
Qed.

End Calls.

(** ** Eligibility *)

Section Eligibility.
Context {L : Type} `{Ledger L}.
Variable this : address.
Variable reenter : Env → Call → World L → Result (World L).

Lemma first_match_false (rules : list (bool * ChargeFailReason)) :
  Forall (λ cr, cr.1 = false) rules → first_match rules = (true, Success).
Proof.
  induction 1 as [|[c r] rest Hc _ IH]; simpl in *; [done|].
  by rewrite Hc.
Qed.

(** The first four tests decide alone when one of them holds, and always on
    a plan in the native currency. *)
Lemma _canCharge_storage_rules (e : Env) (subscriptionId : bytes32) (w : World L) :
  let sub := sub_at (st w) subscriptionId in
  let plan := plan_at (st w) (Subscription.planId sub) in
  Plan.token plan = 0%N
  ∨ first_match (storage_rules e sub plan) ≠ (true, Success) →
  _canCharge this e subscriptionId w = Ok (first_match (storage_rules e sub plan)).
Proof.
  intros sub plan Hcase. unfold _canCharge, storage_rules in *.
  fold sub. fold plan. simpl in *.
  destruct (Plan.active plan); simpl in *; [|done].
  repeat (case_bool_decide; simpl in *; try done).
  by destruct Hcase.
Qed.


(** C10 (amended).  For an identifier under which nothing is stored,
    [canCharge] does not signal absence: it judges the all-zero subscription
    against the plan stored under the zero identifier, and answers
    (false, PlanInactive) whenever that plan is absent or inactive; [charge]
    on the same identifier reverts, with the not-found error when it is not
    a re-entrant call, so the world stays as it was. *)
Theorem canCharge_unknown_subscription (e : Env) (subscriptionId : bytes32)
    (w : World L) (keccak256_id : bytes32 → address → Z → Z → bytes32) :
  subscriptions (st w) !! subscriptionId = None →
  Plan.active (plan_at (st w) 0%N) = false →
  msg_value e = 0 →
  canCharge this e subscriptionId w = Ok (false, reason_uint8 PlanInactive)
  ∧ (_status w = _NOT_ENTERED →
     charge this reenter e subscriptionId w = Revert "Subscription not found")
  ∧ (∃ m, charge this reenter e subscriptionId w = Revert m)
  ∧ step this keccak256_id w (Tx e (CallCharge subscriptionId)) = w.
Proof.
  intros Hnone Hplan Hval.
  assert (Hsub : sub_at (st w) subscriptionId = Subscription.zero).
  { unfold sub_at. by rewrite Hnone. }
  assert (Hcharge : ∀ (r : Env → Call → World L → Result (World L)) (w0 : World L),
            st w0 = st w →
            (_status w0 = _NOT_ENTERED →
             charge this r e subscriptionId w0 = Revert "Subscription not found")
            ∧ ∃ m, charge this r e subscriptionId w0 = Revert m).
  { intros r w0 Hst.
    assert (_status w0 = _NOT_ENTERED →
            charge this r e subscriptionId w0 = Revert "Subscription not found")
      as Hopen.
    { intros Hs. unfold charge, non_payable. rewrite Hval. simpl.
      rewrite nonReentrant_open by done.
      unfold _requireSubscriptionExists. simpl. by rewrite Hst, Hsub. }
    split; [done|].
    destruct (_status w0) eqn:Hs; [by eexists; apply Hopen|].
    unfold charge, non_payable. rewrite Hval. simpl.
    rewrite nonReentrant_entered by done. by eexists. }
  split; [|split; [|split]].
  - unfold canCharge, _canCharge. rewrite Hsub. simpl. by rewrite Hplan.
  - by apply Hcharge.
  - by apply Hcharge.
  - apply step_revert. intros l. rewrite exec_unfold.
    destruct (Hcharge (reentry this keccak256_id CALL_DEPTH) (with_ledger l w)
                eq_refl) as [_ [m Hm]].
    exists m. simpl. by rewrite Hm.
Qed.

(** C4 (amended).  [charge] on a Canceled subscription returns false, emits
    one failure notification and changes neither storage nor ledger; the
    reason carried is Canceled when the plan is active and PlanInactive when
    it is not. *)
Theorem charge_canceled (e : Env) (subscriptionId : bytes32) (w : World L) :
  let sub := sub_at (st w) subscriptionId in
  let plan := plan_at (st w) (Subscription.planId sub) in
  _status w = _NOT_ENTERED →
  Subscription.subscriber sub ≠ 0%N →
  Subscription.status sub = Canceled →
  msg_value e = 0 →
  charge this reenter e subscriptionId w
    = Ok (false,
          emit (PaymentFailed subscriptionId
                  (reason_uint8 (if Plan.active plan then ReasonCanceled
                                 else PlanInactive))) w).
Proof.
  intros sub plan Hs Hex Hst Hval.
  unfold charge, non_payable. rewrite Hval. simpl.
  rewrite nonReentrant_open by done.
  unfold _requireSubscriptionExists, _canCharge. simpl.
  fold sub. fold plan. rewrite Hst.
  rewrite bool_decide_eq_true_2 by done. simpl.
  destruct w as [s l lg g]. simpl in *. subst g.
  by destruct (Plan.active plan).
Qed.

End Eligibility.

(** ** Subscribing *)

Section Operations.
Context {L : Type} `{Ledger L}.
Variable this : address.
Variable keccak256_id : bytes32 → address → Z → Z → bytes32.
Variable reenter : Env → Call → World L → Result (World L).

(** C3 (amended).  On an active plan, [subscribeWithTrial] with at least
    one trial day creates an Active subscription whose period runs from now
    to now + trialDays days, with payment count 0; it moves no value, writes
    no Payment Record and emits no payment event. *)
Theorem subscribeWithTrial_takes_no_charge (e : Env) (planId : bytes32)
    (trialDays : Z) (w : World L) :
  let plan := plan_at (st w) planId in
  let now := block_timestamp e in
  let subscriptionId :=
    keccak256_id planId (msg_sender e) now (_subscriptionNonce (st w) + 1) in
  _status w = _NOT_ENTERED →
  msg_value e = 0 →
  _paused (st w) = false →
  Plan.merchant plan ≠ 0%N →
  Plan.active plan = true →
  1 ≤ trialDays ≤ MAX_UINT32 →
  _subscriptionNonce (st w) + 1 ≤ MAX_UINT256 →
  now + Plan.interval plan ≤ MAX_UINT256 →
  now + trialDays * DAY ≤ MAX_UINT256 →
  Plan.subscriberCount plan + 1 ≤ MAX_UINT256 →
  ∃ w',
    subscribeWithTrial this keccak256_id reenter e planId trialDays w
      = Ok (subscriptionId, w')
    ∧ sub_at (st w') subscriptionId
      = Subscription.mk subscriptionId planId (msg_sender e) Active now now
          (now + trialDays * DAY) false 0 0
    ∧ ledger w' = ledger w
    ∧ subscriptionPayments (st w') = subscriptionPayments (st w)
    ∧ log w'
      = log w ++ [SubscriptionCreated subscriptionId planId (msg_sender e) now].
Proof.
  intros plan now subscriptionId Hs Hval Hrun Hex Hact Hdays Hn Hi Ht Hc.
  unfold subscribeWithTrial, non_payable, abi_uint, whenNotPaused.
  rewrite Hval, Hrun. simpl.
  rewrite !bool_decide_eq_true_2 by (done || lia). simpl.
  rewrite nonReentrant_open by done.
  unfold _requirePlanExists, _subscribe. simpl.
  fold plan. fold now. rewrite Hact. simpl.
  rewrite !bool_decide_eq_true_2 by (done || lia). simpl.
  rewrite !checked_add_fits by done. simpl.
  change (plan_at (set_subscriptionNonce _ (st w)) planId) with plan.
  rewrite !checked_add_fits by done. simpl.
  rewrite bool_decide_eq_false_2 by lia.
  eexists. split; [reflexivity|]. simpl.
  split; [|done].
  unfold sub_at. simpl. by rewrite lookup_insert_eq.
Qed.

End Operations.
(** ** What the functions without the guard leave alone *)

Lemma stored_of_subscriber (s : State) (i : bytes32) :
  Subscription.subscriber (sub_at s i) ≠ 0%N → is_Some (subscriptions s !! i).
Proof.
  unfold sub_at. destruct (subscriptions s !! i); [by eexists|done].
Qed.

Lemma frame_refl (now : Z) (s : State) : frame now s s.
Proof.
  unfold frame. split_and!; done.
Qed.

Lemma frame_trans (now : Z) (s1 s2 s3 : State) :
  frame now s1 s2 → frame now s2 s3 → frame now s1 s3.
Proof.
  intros (Hp1 & Hn1 & Hi1 & Hu1 & Hl1 & Hh1 & Hd1 & Hs1 & Ht1)
         (Hp2 & Hn2 & Hi2 & Hu2 & Hl2 & Hh2 & Hd2 & Hs2 & Ht2).
  unfold frame. split_and!; try congruence.
  - intros i. rewrite Hd2. apply Hd1.
  - intros i. simpl.
    destruct (Hs1 i) as (E1 & E2 & E3 & E4 & E5 & E6 & C1 & K1).
    destruct (Hs2 i) as (F1 & F2 & F3 & F4 & F5 & F6 & C2 & K2).
    split_and!; try congruence.
    + intros Hc. specialize (C1 Hc). rewrite C1 in C2. by rewrite (C2 Hc).
    + intros Hdue Hp. destruct (K1 Hdue Hp) as (? & ? & ?).
      destruct K2 as (? & ? & ?); [done..|]. split_and!; [lia|done|done].
  - intros p Hp. rewrite <- (Ht1 p Hp). apply Ht2.
    pose proof (f_equal Plan.merchant (Ht1 p Hp)) as Hm. simpl in Hm.
    by rewrite Hm.
Qed.

(** The storage after a write to the subscription [i0] alone. *)
Lemma frame_write_sub (now : Z) (s : State) (i0 : bytes32) (x : Subscription.t) :
  let a := sub_at s i0 in
  Subscription.subscriber a ≠ 0%N →
  Subscription.id x = Subscription.id a →
  Subscription.planId x = Subscription.planId a →
  Subscription.subscriber x = Subscription.subscriber a →
  Subscription.startTime x = Subscription.startTime a →
  Subscription.currentPeriodStart x = Subscription.currentPeriodStart a →
  Subscription.paymentCount x = Subscription.paymentCount a →
  Subscription.status a ≠ Canceled →
  Subscription.status a ≠ Expired →
  (Subscription.currentPeriodEnd a ≤ now →
   (Subscription.status a = Paused → Subscription.pausedAt a = now) →
   Subscription.currentPeriodEnd a ≤ Subscription.currentPeriodEnd x
   ∧ Subscription.currentPeriodEnd x ≤ now
   ∧ (Subscription.status x = Paused → Subscription.pausedAt x = now)) →
  frame now s (write_sub i0 x s).
Proof.
  intros a Hex Hid Hplan Hsub Hstart Hps Hcount Hnc Hne Hdue.
  unfold frame. split_and!; try done.
  - intros i. unfold write_sub. simpl.
    destruct (decide (i0 = i)) as [<-|Hne'].
    + rewrite lookup_insert_eq.
      apply stored_of_subscriber in Hex as [y Hy]. rewrite Hy. done.
    + by rewrite lookup_insert_ne.
  - intros i. simpl. destruct (decide (i0 = i)) as [<-|Hne'].
    + rewrite sub_at_write_sub_eq. fold a. split_and!; try done.
      intros [?|?]; done.
    + rewrite sub_at_write_sub_ne by done. split_and!; done.
Qed.

Lemma Free_frame (e : Env) (s s' : State) :
  Free e s s' → frame (block_timestamp e) s s'.
Proof.
  intros Hfree. destruct Hfree; repeat match goal with x := _ |- _ => subst x end.
  - apply frame_refl.
  - apply (frame_refl _ s).
  - apply (frame_refl _ s).
  - apply (frame_refl _ s).
  - apply (frame_refl _ s).
  - (* createPlan *)
    unfold frame. repeat split; try done.
    intros p Hp. destruct (decide (planId = p)) as [<-|Hne]; [done|].
    change (plan_at (set_planIds _ ?x) p) with (plan_at x p).
    by rewrite plan_at_write_plan_ne.
  - (* updatePlan *)
    unfold frame. repeat split; try done.
    intros p Hp. destruct (decide (planId = p)) as [<-|Hne].
    + by rewrite plan_at_write_plan_eq.
    + by rewrite plan_at_write_plan_ne.
  - (* cancelSubscription *)
    apply frame_write_sub; try done; try (by destruct immediately);
      try (match goal with
           | Hst : _ = Active ∨ _ = Paused |- _ ≠ _ => destruct Hst; congruence
           end).
  - (* pauseSubscription *)
    apply frame_write_sub; try done; congruence.
  - (* resumeSubscription *)
    apply frame_write_sub; try done; try congruence.
    intros Hdue Hp. simpl.
    match goal with
    | Hst : Subscription.status _ = Paused |- _ => specialize (Hp Hst)
    end.
    split_and!; [lia|lia|done].
Qed.

Lemma FreeBy_frame (Q : address → Prop) (now : Z) (s s' : State) :
  rtc (FreeBy Q now) s s' → frame now s s'.
Proof.
  induction 1 as [|s s1 s' (e & _ & <- & Hfree) _ IH]; [apply frame_refl|].
  eapply frame_trans; [by apply Free_frame|done].
Qed.

(** Writing the nonce commutes with everything these functions do. *)
Lemma Free_bump (e : Env) (n : Z) (s s' : State) :
  Free e (set_subscriptionNonce n s) s' →
  ∃ s'', s' = set_subscriptionNonce n s'' ∧ Free e s s''.
Proof.
  intros Hfree. inversion Hfree; subst;
    repeat match goal with x := _ |- _ => subst x end.
  - exists s. split; [done|]. constructor.
  - eexists. split; [|by apply (free_add_token e s token)]. done.
  - eexists. split; [|by apply (free_remove_token e s token)]. done.
  - eexists. split; [|by apply (free_switch e s b)]. done.
  - eexists. split; [|by apply (free_owner e s newOwner)]. done.
  - eexists. split;
      [|by apply (free_create_plan e s planId amount token interval
                    merchantAddress)]. done.
  - eexists. split; [|by apply (free_update_plan e s planId active)]. done.
  - eexists. split;
      [|by apply (free_cancel e s subscriptionId immediately)]. done.
  - eexists. split; [|by apply (free_pause e s subscriptionId)]. done.
  - eexists. split; [|by apply (free_resume e s subscriptionId)]. done.
Qed.

Lemma FreeBy_bump (Q : address → Prop) (now n : Z) (s0 s' : State) :
  rtc (FreeBy Q now) s0 s' →
  ∀ s, s0 = set_subscriptionNonce n s →
  ∃ s'', s' = set_subscriptionNonce n s'' ∧ rtc (FreeBy Q now) s s''.
Proof.
  induction 1 as [s0|s0 s1 s' (e & HQ & Hnow & Hfree) _ IH]; intros s ->.
  - by exists s.
  - apply Free_bump in Hfree as (s1' & -> & Hfree).
    destruct (IH s1' eq_refl) as (s'' & -> & Hrtc).
    exists s''. split; [done|].
    eapply rtc_l; [|done]. by exists e.
Qed.

Lemma FreeBy_weaken (Q Q' : address → Prop) (now : Z) (s s' : State) :
  (∀ a, Q a → Q' a) → rtc (FreeBy Q now) s s' → rtc (FreeBy Q' now) s s'.
Proof.
  intros Hsub. induction 1 as [|s s1 s' (e & HQ & Hnow & Hfree) _ IH]; [done|].
  eapply rtc_l; [|done]. exists e. auto.
Qed.

(** ** Every successful call is a sequence of storage effects *)

Lemma quiet_all {L : Type} (does : list (Act L)) : quiet (λ _, True) does.
Proof. apply Forall_forall. by intros []. Qed.

Lemma callers_all {L : Type} `{Ledger L} : callers (λ _, True).
Proof. repeat split; intros; apply quiet_all. Qed.

Section Trace.
Context {L : Type} `{Ledger L}.
Variable this : address.
Variable keccak256_id : bytes32 → address → Z → Z → bytes32.
Variable Q : address → Prop.
Hypothesis Hcallers : callers Q.

Section Nested.
Variable reenter : Env → Call → World L → Result (World L).
Variable g : GuardStatus.
Variable R : Z → State → State → Prop.
Hypothesis Hre :
  ∀ (e : Env) (c : Call) (w w' : World L),
    _status w = g → Q (msg_sender e) → reenter e c w = Ok w' →
    rtc (R (block_timestamp e)) (st w) (st w') ∧ _status w' = g.

Lemma during_trace (now : Z) (does : list (Act L)) :
  ∀ w : World L,
    quiet Q does → _status w = g →
    rtc (R now) (st w) (st (during this reenter now does w))
    ∧ _status (during this reenter now does w) = g.
Proof.
  unfold during.
  induction does as [|a does IH]; intros w Hq Hs; simpl; [done|].
  apply Forall_cons in Hq as [Ha Hq].
  assert (rtc (R now) (st w) (st (act this reenter now w a))
          ∧ _status (act this reenter now w a) = g) as [Hfirst Hs1].
  { destruct a as [sender value c|f]; simpl; [|done].
    destruct (credit _ _ _ _) as [l1|]; [|done].
    destruct (reenter _ _ _) as [w'|m] eqn:Hcall; [|done].
    by apply Hre in Hcall. }
  destruct (IH _ Hq Hs1) as [Hrest Hs2].
  split; [|done]. by etrans.
Qed.

Lemma safeTransferFrom_trace (e : Env) (token from to : address) (amount : Z)
    (w w1 : World L) :
  safeTransferFrom this reenter e token from to amount w = Ok w1 →
  _status w = g →
  rtc (R (block_timestamp e)) (st w) (st w1) ∧ _status w1 = g.
Proof.
  unfold safeTransferFrom. intros Hok Hs.
  destruct (transferFrom _ _ _ _ _ _) as [[] l' does| |] eqn:Hcall; try done.
  injection Hok as <-.
  apply (during_trace _ does (with_ledger l' w)); [|done].
  destruct Hcallers as (Hq & _). by eapply Hq.
Qed.

Lemma safeTransfer_trace (e : Env) (token to : address) (amount : Z)
    (w w1 : World L) :
  safeTransfer this reenter e token to amount w = Ok w1 →
  _status w = g →
  rtc (R (block_timestamp e)) (st w) (st w1) ∧ _status w1 = g.
Proof.
  unfold safeTransfer. intros Hok Hs.
  destruct (transfer _ _ _ _ _) as [[] l' does| |] eqn:Hcall; try done.
  injection Hok as <-.
  apply (during_trace _ does (with_ledger l' w)); [|done].
  destruct Hcallers as (_ & Hq & _). by eapply Hq.
Qed.

Lemma send_or_revert_trace (e : Env) (to : address) (amount : Z) (m : string)
    (w w1 : World L) :
  send_or_revert this reenter e to amount m w = Ok w1 →
  _status w = g →
  rtc (R (block_timestamp e)) (st w) (st w1) ∧ _status w1 = g.
Proof.
  unfold send_or_revert. intros Hok Hs.
  destruct (send_value _ _ _ _) as [[l' does]|] eqn:Hcall; [|done].
  injection Hok as <-.
  apply (during_trace _ does (with_ledger l' w)); [|done].
  destruct Hcallers as (_ & _ & Hq). by eapply Hq.
Qed.

Lemma push_native_trace (e : Env) (to back : address) (amount : Z)
    (m1 m2 m3 : string) (w w1 : World L) :
  push_native this reenter e to back amount m1 m2 m3 w = Ok w1 →
  _status w = g →
  rtc (R (block_timestamp e)) (st w) (st w1) ∧ _status w1 = g.
Proof.
  unfold push_native. intros Hok Hs. inv_ok.
  match goal with
  | Hsend : send_or_revert _ _ _ _ _ _ w = Ok ?w0 |- _ =>
      apply send_or_revert_trace in Hsend as [Hfirst Hs1]; [|done]
  end.
  case_bool_decide.
  - apply send_or_revert_trace in Hok as [Hsecond Hs2]; [|done].
    split; [|done]. by etrans.
  - by inv_ok.
Qed.

Lemma _executePayment_trace (e : Env) (planId : bytes32) (payer : address)
    (w w1 : World L) :
  _executePayment this reenter e planId payer w = Ok w1 →
  _status w = g →
  rtc (R (block_timestamp e)) (st w) (st w1) ∧ _status w1 = g.
Proof.
  unfold _executePayment. intros Hok Hs. case_bool_decide.
  - inv_ok.
    match goal with
    | Hsend : send_or_revert _ _ _ _ _ _ w = Ok ?w0 |- _ =>
        apply send_or_revert_trace in Hsend as [Hfirst Hs1]; [|done]
    end.
    case_bool_decide.
    + apply send_or_revert_trace in Hok as [Hsecond Hs2]; [|done].
      split; [|done]. by etrans.
    + by inv_ok.
  - by eapply safeTransferFrom_trace.
Qed.

Lemma _executePaymentFrom_trace (e : Env) (planId : bytes32) (payer : address)
    (w w1 : World L) (success : bool) :
  _executePaymentFrom this reenter e planId payer w = Ok (success, w1) →
  _status w = g →
  rtc (R (block_timestamp e)) (st w) (st w1) ∧ _status w1 = g
  ∧ (success = true → Plan.token (plan_at (st w) planId) ≠ 0%N).
Proof.
  unfold _executePaymentFrom. intros Hok Hs. case_bool_decide.
  - by inv_ok.
  - destruct (transferFrom _ _ _ _ _ _) as [b l' does| |] eqn:Hcall;
      [|by inv_ok|done].
    injection Hok as <- <-.
    destruct (during_trace (block_timestamp e) does (with_ledger l' w))
      as [Hrtc Hs1]; [|done|done].
    destruct Hcallers as (Hq & _). by eapply Hq.
Qed.

End Nested.

(** The first four tests of an eligible subscription have passed. *)
Lemma _canCharge_true (e : Env) (subscriptionId : bytes32) (w : World L)
    (r : ChargeFailReason) :
  _canCharge this e subscriptionId w = Ok (true, r) →
  r = Success ∧ due e (st w) subscriptionId.
Proof.
  intros Hc. unfold _canCharge, due in *.
  destruct (Plan.active _); simpl in Hc; [|done].
  repeat (case_bool_decide; simpl in Hc; try done);
    try (injection Hc as <-; repeat split; try done; lia).
  inv_ok. repeat case_bool_decide; inv_ok; simplify_eq.
  repeat split; try done; lia.
Qed.

Section Guarded.
Variable reenter : Env → Call → World L → Result (World L).
Hypothesis Hre :
  ∀ (e : Env) (c : Call) (w w' : World L),
    _status w = _ENTERED → Q (msg_sender e) → reenter e c w = Ok w' →
    rtc (FreeBy Q (block_timestamp e)) (st w) (st w') ∧ _status w' = _ENTERED.

Lemma _chargeSubscription_Effect (e : Env) (subscriptionId : bytes32)
    (w w' : World L) (r : bool) :
  _chargeSubscription this reenter e subscriptionId w = Ok (r, w') →
  _status w = _ENTERED →
  Subscription.subscriber (sub_at (st w) subscriptionId) ≠ 0%N →
  due e (st w) subscriptionId →
  Effect keccak256_id Q e (st w) (st w') ∧ _status w' = _ENTERED.
Proof.
  unfold _chargeSubscription. intros Hok Hs Hex Hdue.
  destruct (Subscription.cancelAtPeriodEnd _) eqn:Hflag.
  - injection Hok as <- <-. split; [|done]. simpl.
    eapply (eff_finish _ _ _ _ (st w)); [done|].
    by apply (fin_charge_cancels keccak256_id e (st w) (st w) subscriptionId).
  - inv_ok.
    match goal with
    | Hpull : _executePaymentFrom _ _ _ _ _ _ = Ok (?b, ?w1) |- _ =>
        apply (_executePaymentFrom_trace reenter _ENTERED (FreeBy Q) Hre)
          in Hpull as (Hrtc & Hs1 & Htok); [|done];
        destruct b; simpl in Hok; inv_ok
    end.
    + split; [|done]. simpl.
      eapply (eff_finish _ _ _ _ _); [done|].
      by apply (fin_renew keccak256_id e (st w) _ subscriptionId); auto.
    + split; [|done]. simpl.
      eapply (eff_finish _ _ _ _ _); [done|].
      by apply (fin_expire keccak256_id e (st w) _ subscriptionId).
Qed.

Lemma charge_item_Effect (e : Env) (subId : bytes32) (w w' : World L) (r : bool) :
  charge_item this reenter e subId w = Ok (r, w') →
  _status w = _ENTERED →
  Effect keccak256_id Q e (st w) (st w') ∧ _status w' = _ENTERED.
Proof.
  unfold charge_item. intros Hok Hs. case_bool_decide as Hex.
  - inv_ok. split; [|done]. apply eff_free. constructor.
  - inv_ok.
    match goal with
    | Hcan : _canCharge _ _ _ _ = Ok (?b, _) |- _ => destruct b
    end.
    + match goal with
      | Hcan : _canCharge _ _ _ _ = Ok _ |- _ =>
          apply _canCharge_true in Hcan as [_ Hdue]
      end.
      by eapply _chargeSubscription_Effect.
    + inv_ok. split; [|done]. apply eff_free. constructor.
Qed.

Lemma batch_loop_Effects (e : Env) (ids : list N) :
  ∀ (w w' : World L) (rs : list bool),
    batch_loop this reenter e ids w = Ok (rs, w') →
    _status w = _ENTERED →
    rtc (Effect keccak256_id Q e) (st w) (st w') ∧ _status w' = _ENTERED.
Proof.
  induction ids as [|i ids IH]; intros w w' rs Hok Hs; simpl in Hok; inv_ok.
  - done.
  - match goal with
    | Hi : charge_item _ _ _ _ _ = Ok _ |- _ =>
        apply charge_item_Effect in Hi as [Heff Hs1]; [|done]
    end.
    match goal with
    | Hl : batch_loop _ _ _ _ _ = Ok _ |- _ =>
        apply IH in Hl as [Hrest Hs2]; [|done]
    end.
    split; [|done]. by eapply rtc_l.
Qed.

Lemma charge_Effect (e : Env) (subscriptionId : bytes32) (w w' : World L)
    (r : bool) :
  charge this reenter e subscriptionId w = Ok (r, w') →
  Effect keccak256_id Q e (st w) (st w') ∧ _status w' = _NOT_ENTERED.
Proof.
  unfold charge. intros Hok. inv_ok.
  apply nonReentrant_Ok in Hok as (Hs & w2 & Hbody & ->).
  split; [|done]. simpl.
  unfold _requireSubscriptionExists in Hbody. inv_ok. simpl in *.
  match goal with
  | Hcan : _canCharge _ _ _ _ = Ok (?b, _) |- _ => destruct b
  end; simpl in Hbody.
  - match goal with
    | Hcan : _canCharge _ _ _ _ = Ok _ |- _ =>
        apply _canCharge_true in Hcan as [_ Hdue]
    end.
    by apply _chargeSubscription_Effect in Hbody as [Heff _].
  - inv_ok. apply eff_free. constructor.
Qed.

Lemma batchCharge_Effects (e : Env) (ids : list N) (w w' : World L)
    (rs : list bool) :
  batchCharge this reenter e ids w = Ok (rs, w') →
  rtc (Effect keccak256_id Q e) (st w) (st w') ∧ _status w' = _NOT_ENTERED.
Proof.
  unfold batchCharge. intros Hok. inv_ok.
  apply nonReentrant_Ok in Hok as (Hs & w2 & Hbody & ->).
  split; [|done]. simpl. inv_ok.
  by apply batch_loop_Effects in Hbody as [Hrtc _].
Qed.

Lemma _subscribe_Effect (e : Env) (planId : bytes32) (trialDays : Z)
    (w w' : World L) (i : N) :
  0 ≤ trialDays ≤ MAX_UINT32 →
  _paused (st w) = false →
  Plan.merchant (plan_at (st w) planId) ≠ 0%N →
  _status w = _ENTERED →
  _subscribe this keccak256_id reenter e planId trialDays w = Ok (i, w') →
  Effect keccak256_id Q e (st w) (st w').
Proof.
  intros Hdays Hrun Hplan Hs Hok. unfold _subscribe in Hok. inv_ok.
  match goal with
  | Hif : (if bool_decide (0 < trialDays) then _ else _) = Ok (?z, ?x) |- _ =>
      rename z into periodEnd; rename x into w1; rename Hif into Hpay
  end.
  assert (∃ s1,
            st w1 = set_subscriptionNonce (_subscriptionNonce (st w) + 1) s1
            ∧ rtc (FreeBy Q (block_timestamp e)) (st w) s1
            ∧ (0 < trialDays → s1 = st w)
            ∧ periodEnd
              = block_timestamp e
                + (if bool_decide (0 < trialDays) then trialDays * DAY
                   else Plan.interval (plan_at (st w) planId)))
    as (s1 & Hst1 & Hrtc & Hsame & Hend).
  { destruct (bool_decide (0 < trialDays)) eqn:Htrial; inv_ok.
    - exists (st w). by repeat split.
    - match goal with
      | Hp : _executePayment _ _ _ _ _ _ = Ok _ |- _ =>
          apply (_executePayment_trace reenter _ENTERED (FreeBy Q) Hre)
            in Hp as [Hrtc _]; [|done]
      end.
      simpl in Hrtc.
      destruct (FreeBy_bump Q _ _ _ _ Hrtc (st w) eq_refl) as (s1 & Hst1 & Hrtc1).
      exists s1. repeat split; try done; lia. }
  pose proof (FreeBy_frame _ _ _ _ Hrtc) as (_ & Hnonce & _).
  eapply (eff_finish _ _ _ _ s1); [done|].
  match goal with
  | |- Finish _ _ _ _ ?s' =>
      assert (s' = (if bool_decide (trialDays = 0) then
                      push_history
                        (keccak256_id planId (msg_sender e) (block_timestamp e)
                           (_subscriptionNonce (st w) + 1))
                        (PaymentRecord.mk (Plan.amount (plan_at s1 planId))
                           (block_timestamp e) (block_timestamp e) periodEnd)
                        (enroll e planId
                           (keccak256_id planId (msg_sender e)
                              (block_timestamp e) (_subscriptionNonce (st w) + 1))
                           (new_subscription e planId
                              (keccak256_id planId (msg_sender e)
                                 (block_timestamp e)
                                 (_subscriptionNonce (st w) + 1))
                              periodEnd (bool_decide (0 < trialDays))) s1)
                    else
                      enroll e planId
                        (keccak256_id planId (msg_sender e) (block_timestamp e)
                           (_subscriptionNonce (st w) + 1))
                        (new_subscription e planId
                           (keccak256_id planId (msg_sender e)
                              (block_timestamp e)
                              (_subscriptionNonce (st w) + 1))
                           periodEnd (bool_decide (0 < trialDays))) s1)) as ->
  end.
  { unfold enroll, new_subscription. rewrite Hnonce.
    destruct (bool_decide (trialDays = 0)); simpl; rewrite Hst1; reflexivity. }
  by apply (fin_subscribe keccak256_id e (st w) s1 planId trialDays periodEnd).
Qed.

Lemma subscribe_Effect (e : Env) (planId : bytes32) (w w' : World L) (i : N) :
  subscribe this keccak256_id reenter e planId w = Ok (i, w') →
  Effect keccak256_id Q e (st w) (st w') ∧ _status w' = _NOT_ENTERED.
Proof.
  unfold subscribe, whenNotPaused. intros Hok. inv_ok.
  apply nonReentrant_Ok in Hok as (Hs & w2 & Hbody & ->).
  split; [|done]. simpl. unfold _requirePlanExists in Hbody. inv_ok.
  eapply (_subscribe_Effect e planId 0 (with_status _ENTERED w)); try done;
    unfold MAX_UINT32; lia.
Qed.

Lemma subscribeWithTrial_Effect (e : Env) (planId : bytes32) (trialDays : Z)
    (w w' : World L) (i : N) :
  subscribeWithTrial this keccak256_id reenter e planId trialDays w = Ok (i, w') →
  Effect keccak256_id Q e (st w) (st w') ∧ _status w' = _NOT_ENTERED.
Proof.
  unfold subscribeWithTrial, whenNotPaused. intros Hok. inv_ok.
  apply nonReentrant_Ok in Hok as (Hs & w2 & Hbody & ->).
  split; [|done]. simpl. unfold _requirePlanExists in Hbody. inv_ok.
  by eapply (_subscribe_Effect e planId trialDays (with_status _ENTERED w)).
Qed.

Lemma refund_Effect (e : Env) (subscriptionId : bytes32) (amount : Z)
    (to : address) (w w' : World L) :
  refund this reenter e subscriptionId amount to w = Ok (tt, w') →
  Effect keccak256_id Q e (st w) (st w') ∧ _status w' = _NOT_ENTERED.
Proof.
  unfold refund. intros Hok. inv_ok.
  apply nonReentrant_Ok in Hok as (Hs & w2 & Hbody & ->).
  split; [|done]. simpl. inv_ok.
  match goal with
  | Hif : (if bool_decide _ then _ else _) = Ok ?w1 |- _ =>
      assert (rtc (FreeBy Q (block_timestamp e)) (st w) (st w1)) as Hrtc
  end.
  { case_bool_decide.
    - match goal with
      | Hp : push_native _ _ _ _ _ _ _ _ _ _ = Ok _ |- _ =>
          by apply (push_native_trace reenter _ENTERED (FreeBy Q) Hre)
            in Hp as [Hrtc _]
      end.
    - match goal with
      | Hp : safeTransferFrom _ _ _ _ _ _ _ _ = Ok _ |- _ =>
          by apply (safeTransferFrom_trace reenter _ENTERED (FreeBy Q) Hre)
            in Hp as [Hrtc _]
      end. }
  simpl. eapply (eff_finish _ _ _ _ _); [done|]. constructor.
Qed.

Lemma pay_Effect (e : Env) (orderId : bytes32) (amount : Z)
    (token merchant : address) (w w' : World L) :
  pay this reenter e orderId amount token merchant w = Ok (tt, w') →
  Effect keccak256_id Q e (st w) (st w') ∧ _status w' = _NOT_ENTERED.
Proof.
  unfold pay, whenNotPaused. intros Hok. inv_ok.
  apply nonReentrant_Ok in Hok as (Hs & w2 & Hbody & ->).
  split; [|done]. simpl. inv_ok.
  match goal with
  | Hif : (if bool_decide _ then _ else _) = Ok ?w1 |- _ =>
      assert (rtc (FreeBy Q (block_timestamp e)) (st w) (st w1)) as Hrtc
  end.
  { case_bool_decide.
    - match goal with
      | Hp : push_native _ _ _ _ _ _ _ _ _ _ = Ok _ |- _ =>
          by apply (push_native_trace reenter _ENTERED (FreeBy Q) Hre)
            in Hp as [Hrtc _]
      end.
    - match goal with
      | Hp : safeTransferFrom _ _ _ _ _ _ _ _ = Ok _ |- _ =>
          by apply (safeTransferFrom_trace reenter _ENTERED (FreeBy Q) Hre)
            in Hp as [Hrtc _]
      end. }
  simpl. eapply (eff_finish _ _ _ _ _); [done|].
  by apply (fin_pay keccak256_id e (st w) _ orderId amount token merchant).
Qed.

End Guarded.

(** A successful call of a function without the guard, other than
    [emergencyWithdraw], does one thing, whatever the state of the guard. *)
Lemma dispatch_Free (reenter : Env → Call → World L → Result (World L))
    (e : Env) (c : Call) (w w' : World L) :
  match c with
  | CallSubscribe _ | CallSubscribeWithTrial _ _ | CallCharge _
  | CallBatchCharge _ | CallRefund _ _ _ | CallPay _ _ _ _
  | CallEmergencyWithdraw _ _ _ => False
  | _ => True
  end →
  dispatch this keccak256_id reenter e c w = Ok w' →
  Free e (st w) (st w') ∧ _status w' = _status w.
Proof.
  intros Hc Hok. destruct c; try done; simpl in Hok; unfold forget in Hok; inv_ok.
  - unfold addSupportedToken, _onlyOwner in *. inv_ok.
    split; [|done]. by apply (free_add_token e (st w) token).
  - unfold removeSupportedToken, _onlyOwner in *. inv_ok.
    split; [|done]. by apply (free_remove_token e (st w) token).
  - unfold pause, _onlyOwner, whenNotPaused in *. inv_ok.
    split; [|done]. by apply (free_switch e (st w) true).
  - unfold unpause, _onlyOwner in *. inv_ok.
    split; [|done]. by apply (free_switch e (st w) false).
  - unfold createPlan, whenNotPaused in *. inv_ok.
    split; [|done].
    apply (free_create_plan e (st w) planId amount token interval
             merchantAddress); try done; lia.
  - unfold updatePlan, _requirePlanExists in *. inv_ok.
    split; [|done].
    apply (free_update_plan e (st w) planId active); [done|].
    match goal with Ho : _ || _ = true |- _ =>
      apply orb_true_iff in Ho as [Ho|Ho]; inv_ok; [by left|by right] end.
  - unfold cancelSubscription, _requireSubscriptionExists,
      _onlySubscriberOrMerchant in *. inv_ok.
    assert (is_party e (st w) (sub_at (st w) subscriptionId)) as Hparty.
    { match goal with Ho : _ || bool_decide (msg_sender e = _) = true |- _ =>
        apply orb_true_iff in Ho as [Ho|Ho]; inv_ok; [by left|by right] end. }
    assert (Subscription.status (sub_at (st w) subscriptionId) = Active
            ∨ Subscription.status (sub_at (st w) subscriptionId) = Paused)
      as Hstatus.
    { match goal with Ho : _ || bool_decide (_ = Paused) = true |- _ =>
        apply orb_true_iff in Ho as [Ho|Ho]; inv_ok; [by left|by right] end. }
    destruct immediately; (split; [|done]); simpl.
    + by apply (free_cancel e (st w) subscriptionId true).
    + by apply (free_cancel e (st w) subscriptionId false).
  - unfold pauseSubscription, _requireSubscriptionExists,
      _onlySubscriberOrMerchant in *. inv_ok.
    split; [|done].
    apply (free_pause e (st w) subscriptionId); try done.
    match goal with Ho : _ || _ = true |- _ =>
      apply orb_true_iff in Ho as [Ho|Ho]; inv_ok; [by left|by right] end.
  - unfold resumeSubscription, _requireSubscriptionExists in *. inv_ok.
    simpl in *. split; [|done].
    by apply (free_resume e (st w) subscriptionId).
  - unfold renounceOwnership, _onlyOwner in *. inv_ok.
    split; [|done]. by apply (free_owner e (st w) 0%N).
  - unfold transferOwnership, _onlyOwner in *. inv_ok.
    split; [|done]. by apply (free_owner e (st w) newOwner).
Qed.

(** A function under the guard reverts when the guard is closed. *)
Lemma dispatch_entered (reenter : Env → Call → World L → Result (World L))
    (e : Env) (c : Call) (w : World L) :
  match c with
  | CallSubscribe _ | CallSubscribeWithTrial _ _ | CallCharge _
  | CallBatchCharge _ | CallRefund _ _ _ | CallPay _ _ _ _ => True
  | _ => False
  end →
  _status w = _ENTERED →
  ∃ m, dispatch this keccak256_id reenter e c w = Revert m.
Proof.
  intros Hc Hs. destruct c; try done; simpl; unfold forget.
  - unfold subscribe.
    destruct (abi_uint _ _); simpl; [|by eexists].
    destruct (whenNotPaused _); simpl; [|by eexists].
    rewrite nonReentrant_entered by done. by eexists.
  - unfold subscribeWithTrial.
    destruct (non_payable _); simpl; [|by eexists].
    destruct (abi_uint _ _); simpl; [|by eexists].
    destruct (whenNotPaused _); simpl; [|by eexists].
    rewrite nonReentrant_entered by done. by eexists.
  - unfold charge.
    destruct (non_payable _); simpl; [|by eexists].
    rewrite nonReentrant_entered by done. by eexists.
  - unfold batchCharge.
    destruct (non_payable _); simpl; [|by eexists].
    rewrite nonReentrant_entered by done. by eexists.
  - unfold refund.
    destruct (abi_uint _ _); simpl; [|by eexists].
    destruct (abi_uint _ _); simpl; [|by eexists].
    rewrite nonReentrant_entered by done. by eexists.
  - unfold pay.
    destruct (abi_uint _ _); simpl; [|by eexists].
    destruct (abi_uint _ _); simpl; [|by eexists].
    destruct (whenNotPaused _); simpl; [|by eexists].
    rewrite nonReentrant_entered by done. by eexists.
Qed.

Lemma emergencyWithdraw_trace
    (reenter : Env → Call → World L → Result (World L)) (g : GuardStatus)
    (R : Z → State → State → Prop) (e : Env) (token to : address) (amount : Z)
    (w w' : World L) :
  (∀ (e : Env) (c : Call) (w w' : World L),
     _status w = g → Q (msg_sender e) → reenter e c w = Ok w' →
     rtc (R (block_timestamp e)) (st w) (st w') ∧ _status w' = g) →
  emergencyWithdraw this reenter e token to amount w = Ok (tt, w') →
  _status w = g →
  rtc (R (block_timestamp e)) (st w) (st w') ∧ _status w' = g.
Proof.
  intros Hre Hok. unfold emergencyWithdraw in Hok. inv_ok. intros Hs.
  case_bool_decide.
  - match goal with
    | Hp : send_or_revert _ _ _ _ _ _ _ = Ok _ |- _ =>
        by apply (send_or_revert_trace reenter g R Hre) in Hp
    end.
  - match goal with
    | Hp : safeTransfer _ _ _ _ _ _ _ = Ok _ |- _ =>
        by apply (safeTransfer_trace reenter g R Hre) in Hp
    end.
Qed.

(** While the guard is closed, a successful call is a sequence of calls of
    the functions without the guard. *)
Lemma dispatch_closed (reenter : Env → Call → World L → Result (World L))
    (e : Env) (c : Call) (w w' : World L) :
  (∀ (e : Env) (c : Call) (w w' : World L),
     _status w = _ENTERED → Q (msg_sender e) → reenter e c w = Ok w' →
     rtc (FreeBy Q (block_timestamp e)) (st w) (st w') ∧ _status w' = _ENTERED) →
  _status w = _ENTERED → Q (msg_sender e) →
  dispatch this keccak256_id reenter e c w = Ok w' →
  rtc (FreeBy Q (block_timestamp e)) (st w) (st w') ∧ _status w' = _ENTERED.
Proof.
  intros Hre Hs HQ Hok.
  assert (Hfree : (match c with
                   | CallSubscribe _ | CallSubscribeWithTrial _ _ | CallCharge _
                   | CallBatchCharge _ | CallRefund _ _ _ | CallPay _ _ _ _
                   | CallEmergencyWithdraw _ _ _ => False
                   | _ => True
                   end) →
                  rtc (FreeBy Q (block_timestamp e)) (st w) (st w')
                  ∧ _status w' = _ENTERED).
  { intros Hc. destruct (dispatch_Free reenter e c w w' Hc Hok) as [Hf Hs'].
    split; [|congruence]. apply rtc_once. by exists e. }
  assert (Hguard : (match c with
                    | CallSubscribe _ | CallSubscribeWithTrial _ _ | CallCharge _
                    | CallBatchCharge _ | CallRefund _ _ _ | CallPay _ _ _ _ =>
                        True
                    | _ => False
                    end) → False).
  { intros Hc. destruct (dispatch_entered reenter e c w Hc Hs) as [m Hm].
    congruence. }
  destruct c; try (by apply Hfree); try (by destruct Hguard).
  simpl in Hok. unfold forget in Hok. inv_ok.
  match goal with
  | Hw : emergencyWithdraw _ _ _ _ _ _ _ = Ok (?u, _) |- _ => destruct u
  end.
  by eapply (emergencyWithdraw_trace reenter _ENTERED (FreeBy Q)).
Qed.

(** While the guard is open, a successful call is a sequence of effects,
    and leaves the guard open. *)
Lemma dispatch_open (reenter : Env → Call → World L → Result (World L))
    (e : Env) (c : Call) (w w' : World L) :
  (∀ (e : Env) (c : Call) (w w' : World L),
     _status w = _ENTERED → Q (msg_sender e) → reenter e c w = Ok w' →
     rtc (FreeBy Q (block_timestamp e)) (st w) (st w') ∧ _status w' = _ENTERED) →
  (∀ (e : Env) (c : Call) (w w' : World L),
     _status w = _NOT_ENTERED → Q (msg_sender e) → reenter e c w = Ok w' →
     rtc (EffectBy keccak256_id Q (block_timestamp e)) (st w) (st w')
     ∧ _status w' = _NOT_ENTERED) →
  _status w = _NOT_ENTERED → Q (msg_sender e) →
  dispatch this keccak256_id reenter e c w = Ok w' →
  rtc (EffectBy keccak256_id Q (block_timestamp e)) (st w) (st w')
  ∧ _status w' = _NOT_ENTERED.
Proof.
  intros HreF HreE Hs HQ Hok.
  assert (Hone : ∀ s s', Effect keccak256_id Q e s s' →
                         EffectBy keccak256_id Q (block_timestamp e) s s').
  { intros s s' Heff. by exists e. }
  assert (Hfree : (match c with
                   | CallSubscribe _ | CallSubscribeWithTrial _ _ | CallCharge _
                   | CallBatchCharge _ | CallRefund _ _ _ | CallPay _ _ _ _
                   | CallEmergencyWithdraw _ _ _ => False
                   | _ => True
                   end) →
                  rtc (EffectBy keccak256_id Q (block_timestamp e)) (st w) (st w')
                  ∧ _status w' = _NOT_ENTERED).
  { intros Hc. destruct (dispatch_Free reenter e c w w' Hc Hok) as [Hf Hs'].
    split; [|congruence]. apply rtc_once. apply Hone. by apply eff_free. }
  destruct c; try (by apply Hfree); simpl in Hok; unfold forget in Hok; inv_ok.
  - match goal with
    | Hw : emergencyWithdraw _ _ _ _ _ _ _ = Ok (?u, _) |- _ => destruct u
    end.
    by eapply (emergencyWithdraw_trace reenter _NOT_ENTERED
                 (EffectBy keccak256_id Q)).
  - match goal with
    | Hc : subscribe _ _ _ _ _ _ = Ok _ |- _ =>
        apply (subscribe_Effect reenter HreF) in Hc as [Heff Hs']
    end.
    split; [|done]. apply rtc_once. by apply Hone.
  - match goal with
    | Hc : subscribeWithTrial _ _ _ _ _ _ _ = Ok _ |- _ =>
        apply (subscribeWithTrial_Effect reenter HreF) in Hc as [Heff Hs']
    end.
    split; [|done]. apply rtc_once. by apply Hone.
  - match goal with
    | Hc : charge _ _ _ _ _ = Ok _ |- _ =>
        apply (charge_Effect reenter HreF) in Hc as [Heff Hs']
    end.
    split; [|done]. apply rtc_once. by apply Hone.
  - match goal with
    | Hc : batchCharge _ _ _ _ _ = Ok _ |- _ =>
        apply (batchCharge_Effects reenter HreF) in Hc as [Heff Hs']
    end.
    split; [|done].
    clear -Heff HQ. induction Heff as [|s s1 s' Hstep _ IH]; [done|].
    eapply rtc_l; [|done]. by exists e.
  - match goal with
    | Hc : refund _ _ _ _ _ _ _ = Ok (?u, _) |- _ =>
        destruct u; apply (refund_Effect reenter HreF) in Hc as [Heff Hs']
    end.
    split; [|done]. apply rtc_once. by apply Hone.
  - match goal with
    | Hc : pay _ _ _ _ _ _ _ _ = Ok (?u, _) |- _ =>
        destruct u; apply (pay_Effect reenter HreF) in Hc as [Heff Hs']
    end.
    split; [|done]. apply rtc_once. by apply Hone.
Qed.

Lemma exec_closed (depth : nat) :
  ∀ (e : Env) (c : Call) (w w' : World L),
    _status w = _ENTERED → Q (msg_sender e) →
    exec this keccak256_id depth e c w = Ok w' →
    rtc (FreeBy Q (block_timestamp e)) (st w) (st w') ∧ _status w' = _ENTERED.
Proof.
  induction depth as [|depth IH]; intros e c w w' Hs HQ Hok;
    rewrite exec_unfold in Hok.
  - eapply dispatch_closed; [|done..]. intros; done.
  - eapply dispatch_closed; [|done..]. intros. by eapply IH.
Qed.

Lemma exec_open (depth : nat) :
  ∀ (e : Env) (c : Call) (w w' : World L),
    _status w = _NOT_ENTERED → Q (msg_sender e) →
    exec this keccak256_id depth e c w = Ok w' →
    rtc (EffectBy keccak256_id Q (block_timestamp e)) (st w) (st w')
    ∧ _status w' = _NOT_ENTERED.
Proof.
  induction depth as [|depth IH]; intros e c w w' Hs HQ Hok;
    rewrite exec_unfold in Hok.
  - eapply dispatch_open; [| |done..]; intros; done.
  - eapply dispatch_open; [| |done..].
    + intros. by eapply exec_closed.
    + intros. by eapply IH.
Qed.

Lemma reentry_closed (depth : nat) (e : Env) (c : Call) (w w' : World L) :
  _status w = _ENTERED → Q (msg_sender e) →
  reentry this keccak256_id depth e c w = Ok w' →
  rtc (FreeBy Q (block_timestamp e)) (st w) (st w') ∧ _status w' = _ENTERED.
Proof.
  destruct depth as [|depth]; [done|]. apply exec_closed.
Qed.

(** A successful transaction other than [batchCharge] and
    [emergencyWithdraw] has one effect. *)
Lemma exec_Effect (depth : nat) (e : Env) (c : Call) (w w' : World L) :
  (∀ ids, c ≠ CallBatchCharge ids) →
  (∀ token to amount, c ≠ CallEmergencyWithdraw token to amount) →
  _status w = _NOT_ENTERED →
  exec this keccak256_id depth e c w = Ok w' →
  Effect keccak256_id Q e (st w) (st w').
Proof.
  intros Hbatch Hwithdraw Hs Hok.
  assert (∃ reenter,
            (∀ (e : Env) (c : Call) (w w' : World L),
               _status w = _ENTERED → Q (msg_sender e) → reenter e c w = Ok w' →
               rtc (FreeBy Q (block_timestamp e)) (st w) (st w')
               ∧ _status w' = _ENTERED)
            ∧ dispatch this keccak256_id reenter e c w = Ok w')
    as (reenter & Hre & Hd).
  { rewrite exec_unfold in Hok. eexists. split; [|exact Hok].
    intros. by eapply reentry_closed. }
  clear Hok.
  assert (Hfree : (match c with
                   | CallSubscribe _ | CallSubscribeWithTrial _ _ | CallCharge _
                   | CallBatchCharge _ | CallRefund _ _ _ | CallPay _ _ _ _
                   | CallEmergencyWithdraw _ _ _ => False
                   | _ => True
                   end) → Effect keccak256_id Q e (st w) (st w')).
  { intros Hc. destruct (dispatch_Free reenter e c w w' Hc Hd) as [Hf _].
    by apply eff_free. }
  destruct c; try (by apply Hfree); simpl in Hd; unfold forget in Hd; inv_ok.
  - exfalso. by eapply Hwithdraw.
  - by match goal with
    | Hc : subscribe _ _ _ _ _ _ = Ok _ |- _ =>
        apply (subscribe_Effect reenter Hre) in Hc as [Heff Hs']
    end.
  - by match goal with
    | Hc : subscribeWithTrial _ _ _ _ _ _ _ = Ok _ |- _ =>
        apply (subscribeWithTrial_Effect reenter Hre) in Hc as [Heff Hs']
    end.
  - by match goal with
    | Hc : charge _ _ _ _ _ = Ok _ |- _ =>
        apply (charge_Effect reenter Hre) in Hc as [Heff Hs']
    end.
  - exfalso. by eapply Hbatch.
  - by match goal with
    | Hc : refund _ _ _ _ _ _ _ = Ok (?u, _) |- _ =>
        destruct u; apply (refund_Effect reenter Hre) in Hc as [Heff Hs']
    end.
  - by match goal with
    | Hc : pay _ _ _ _ _ _ _ _ = Ok (?u, _) |- _ =>
        destruct u; apply (pay_Effect reenter Hre) in Hc as [Heff Hs']
    end.
Qed.

End Trace.
(** ** Histories *)

(** Splits what a function without the guard does into its cases. *)
Ltac free_cases Hfree :=
  destruct Hfree;
  repeat match goal with x := _ |- _ => subst x end.

(** Splits what a function under the guard writes at the end into its cases;
    a subscription comes with or without a first Payment Record. *)
Ltac finish_cases Hfin :=
  destruct Hfin;
  repeat match goal with x := _ |- _ => subst x end;
  try match goal with
      | |- context [bool_decide (?trialDays = 0)] =>
          destruct (bool_decide (trialDays = 0))
      end.

Section Histories.
Context {L : Type} `{Ledger L}.
Variable this : address.
Variable keccak256_id : bytes32 → address → Z → Z → bytes32.

(** Whatever the state of the guard, a successful call is a sequence of
    effects and leaves the guard as it found it. *)
Lemma exec_Effects (depth : nat) (e : Env) (c : Call) (w w' : World L) :
  exec this keccak256_id depth e c w = Ok w' →
  rtc (EffectBy keccak256_id (λ _, True) (block_timestamp e)) (st w) (st w')
  ∧ _status w' = _status w.
Proof.
  intros Hok. destruct (_status w) eqn:Hs.
  - by eapply (exec_open this keccak256_id _ callers_all).
  - destruct (exec_closed this keccak256_id _ callers_all depth e c w w')
      as [Hrtc Hs']; try done.
    split; [|done]. clear -Hrtc.
    induction Hrtc as [|s s1 s' (e' & HQ & Hnow & Hfree) _ IH]; [done|].
    eapply rtc_l; [|done]. exists e'. split; [done|]. split; [done|].
    by apply eff_free.
Qed.

(** A property that every function without the guard keeps, and that every
    function under the guard keeps when it finishes, is kept by every
    effect. *)
Lemma Effect_preserves (P : State → Prop) (Q : address → Prop) (e : Env) :
  (∀ (e' : Env) (s s' : State),
     block_timestamp e' = block_timestamp e → Free e' s s' → P s → P s') →
  (∀ s0 s1 s' : State,
     frame (block_timestamp e) s0 s1 → Finish keccak256_id e s0 s1 s' →
     P s0 → P s1 → P s') →
  ∀ s s' : State, Effect keccak256_id Q e s s' → P s → P s'.
Proof.
  intros Hfree Hfin s s' Heff HP. destruct Heff as [s' Hf|s1 s' Hrtc Hf].
  - by eapply (Hfree e).
  - eapply Hfin; [by eapply FreeBy_frame|done..|].
    clear Hf. induction Hrtc as [|s s2 s1 (e' & _ & Hnow & Hf) _ IH]; [done|].
    apply IH. by eapply (Hfree e').
Qed.

Lemma EffectBy_preserves (P : State → Prop) (Q : address → Prop) (now : Z) :
  (∀ (e : Env) (s s' : State),
     block_timestamp e = now → Free e s s' → P s → P s') →
  (∀ (e : Env) (s0 s1 s' : State),
     block_timestamp e = now →
     frame now s0 s1 → Finish keccak256_id e s0 s1 s' → P s0 → P s1 → P s') →
  ∀ s s' : State, rtc (EffectBy keccak256_id Q now) s s' → P s → P s'.
Proof.
  intros Hfree Hfin s s' Hrtc.
  induction Hrtc as [|s s1 s' (e & _ & <- & Heff) _ IH]; [done|].
  intros HP. apply IH.
  eapply (Effect_preserves P Q e); [| |done..].
  - intros e' s0 s0' Heq. by apply Hfree.
  - intros s0 s2 s0'. by apply Hfin.
Qed.

(** A property of the storage that no increasing clock breaks and every
    effect keeps is kept by every chronological history. *)
Lemma run_preserves (P : Z → State → Prop) :
  (∀ (t t' : Z) (s : State), t ≤ t' → P t s → P t' s) →
  (∀ (e : Env) (s s' : State),
     Free e s s' → P (block_timestamp e) s → P (block_timestamp e) s') →
  (∀ (e : Env) (s0 s1 s' : State),
     frame (block_timestamp e) s0 s1 → Finish keccak256_id e s0 s1 s' →
     P (block_timestamp e) s0 → P (block_timestamp e) s1 →
     P (block_timestamp e) s') →
  ∀ (xs : list Step) (t : Z) (w : World L),
    chronological t xs → P t (st w) →
    ∃ t', t ≤ t' ∧ P t' (st (run this keccak256_id xs w)).
Proof.
  intros Hmono Hfree Hfin. induction xs as [|x xs IH]; intros t w Hchron HP.
  - exists t. by split.
  - rewrite run_cons. destruct x as [e c|f]; simpl in Hchron.
    + destruct Hchron as [Ht Hrest].
      destruct (IH (block_timestamp e) (step this keccak256_id w (Tx e c)) Hrest)
        as (t' & Hle & HP').
      * apply (Hmono _ _ _ Ht) in HP. unfold step.
        destruct (credit _ _ _ _) as [l1|]; [|done].
        destruct (exec _ _ _ _ _ _) as [w'|m] eqn:Hexec; [|done].
        apply exec_Effects in Hexec as [Hrtc _].
        eapply (EffectBy_preserves (P (block_timestamp e))); [| |done..].
        -- intros e' s s' <-. apply Hfree.
        -- intros e' s0 s1 s' <-. apply Hfin.
      * exists t'. split; [lia|done].
    + by apply (IH t (step this keccak256_id w (Outside f))).
Qed.

Lemma run_preserves_st (P : State → Prop) :
  (∀ (e : Env) (s s' : State), Free e s s' → P s → P s') →
  (∀ (e : Env) (s0 s1 s' : State),
     frame (block_timestamp e) s0 s1 → Finish keccak256_id e s0 s1 s' →
     P s0 → P s1 → P s') →
  ∀ (xs : list Step) (w : World L),
    P (st w) → P (st (run this keccak256_id xs w)).
Proof.
  intros Hfree Hfin. induction xs as [|x xs IH]; intros w HP; [done|].
  rewrite run_cons. apply IH.
  destruct x as [e c|f]; unfold step; [|done].
  destruct (credit _ _ _ _) as [l1|]; [|done].
  destruct (exec _ _ _ _ _ _) as [w'|m] eqn:Hexec; [|done].
  apply exec_Effects in Hexec as [Hrtc _].
  eapply (EffectBy_preserves P); [| |done..].
  - intros e' s s' _. apply Hfree.
  - intros e' s0 s1 s' <-. apply Hfin.
Qed.

Lemma run_status (xs : list Step) :
  ∀ w : World L, _status (run this keccak256_id xs w) = _status w.
Proof.
  induction xs as [|x xs IH]; intros w; [done|].
  rewrite run_cons, IH.
  destruct x as [e c|f]; unfold step; [|done].
  destruct (credit _ _ _ _) as [l1|]; [|done].
  destruct (exec _ _ _ _ _ _) as [w'|m] eqn:Hexec; [|done].
  by apply exec_Effects in Hexec as [_ ->].
Qed.

Lemma Reachable_st (P : State → Prop) :
  (∀ e0 : Env, P (constructor e0)) →
  (∀ (e : Env) (s s' : State), Free e s s' → P s → P s') →
  (∀ (e : Env) (s0 s1 s' : State),
     frame (block_timestamp e) s0 s1 → Finish keccak256_id e s0 s1 s' →
     P s0 → P s1 → P s') →
  ∀ w : World L, Reachable this keccak256_id w → P (st w).
Proof.
  intros H0 Hfree Hfin w (e0 & l0 & xs & _ & ->).
  apply run_preserves_st; [done..|]. apply H0.
Qed.

Lemma Reachable_status (w : World L) :
  Reachable this keccak256_id w → _status w = _NOT_ENTERED.
Proof. intros (e0 & l0 & xs & _ & ->). by rewrite run_status. Qed.

End Histories.

(** ** The period invariant *)

Lemma periods_ok_mono (t t' : Z) (s : State) :
  t ≤ t' → periods_ok t s → periods_ok t' s.
Proof.
  intros Ht Hok i Hex. destruct (Hok i Hex) as (? & ? & ?).
  repeat split; try done. lia.
Qed.

Lemma periods_ok_same (t : Z) (s s' : State) :
  subscriptions s' = subscriptions s → periods_ok t s → periods_ok t s'.
Proof. intros Heq Hok i. unfold sub_at. rewrite Heq. apply Hok. Qed.

Lemma plans_ok_same (s s' : State) :
  plans s' = plans s → plans_ok s → plans_ok s'.
Proof. intros Heq Hok i. unfold plan_at. rewrite Heq. apply Hok. Qed.

Lemma periods_ok_write_sub (t : Z) (s : State) (i : N) (x : Subscription.t) :
  periods_ok t s →
  (Subscription.subscriber x ≠ 0%N → period_ok t x) →
  periods_ok t (write_sub i x s).
Proof.
  intros Hok Hx j. destruct (decide (i = j)) as [<-|Hne].
  - by rewrite sub_at_write_sub_eq.
  - rewrite sub_at_write_sub_ne by done. apply Hok.
Qed.

Lemma plans_ok_write_plan (s : State) (i : N) (p : Plan.t) :
  plans_ok s →
  (Plan.merchant p ≠ 0%N ∨ Plan.active p = true → DAY ≤ Plan.interval p) →
  plans_ok (write_plan i p s).
Proof.
  intros Hok Hp j. destruct (decide (i = j)) as [<-|Hne].
  - by rewrite plan_at_write_plan_eq.
  - rewrite plan_at_write_plan_ne by done. apply Hok.
Qed.

Lemma sub_plans_ok_same (s s' : State) :
  subscriptions s' = subscriptions s → plans s' = plans s →
  sub_plans_ok s → sub_plans_ok s'.
Proof.
  intros Hs Hp Hok i. unfold sub_at, plan_at. rewrite Hs, Hp. apply Hok.
Qed.

(** Writing a subscription whose plan exists. *)
Lemma sub_plans_ok_write_sub (s : State) (i : N) (x : Subscription.t) :
  sub_plans_ok s →
  Plan.merchant (plan_at s (Subscription.planId x)) ≠ 0%N →
  sub_plans_ok (write_sub i x s).
Proof.
  intros Hok Hx j Hj. destruct (decide (i = j)) as [<-|Hne].
  - by rewrite sub_at_write_sub_eq.
  - rewrite sub_at_write_sub_ne by done.
    change (plan_at (write_sub i x s)) with (plan_at s). apply Hok.
    unfold write_sub in Hj. simpl in Hj. by rewrite lookup_insert_ne in Hj.
Qed.

(** Writing a plan that exists afterwards. *)
Lemma sub_plans_ok_write_plan (s : State) (p : N) (x : Plan.t) :
  sub_plans_ok s →
  Plan.merchant x ≠ 0%N →
  sub_plans_ok (write_plan p x s).
Proof.
  intros Hok Hx j Hj.
  change (sub_at (write_plan p x s)) with (sub_at s).
  destruct (decide (p = Subscription.planId (sub_at s j))) as [->|Hne].
  - by rewrite plan_at_write_plan_eq.
  - rewrite plan_at_write_plan_ne by done. by apply Hok.
Qed.

(** The plan of a stored subscription, read after the functions without the
    guard have run. *)
Lemma frame_plan (now : Z) (s0 s1 : State) (p : bytes32) :
  frame now s0 s1 →
  Plan.merchant (plan_at s0 p) ≠ 0%N →
  Plan.merchant (plan_at s1 p) = Plan.merchant (plan_at s0 p)
  ∧ Plan.interval (plan_at s1 p) = Plan.interval (plan_at s0 p)
  ∧ Plan.amount (plan_at s1 p) = Plan.amount (plan_at s0 p)
  ∧ Plan.token (plan_at s1 p) = Plan.token (plan_at s0 p)
  ∧ Plan.id (plan_at s1 p) = Plan.id (plan_at s0 p)
  ∧ Plan.createdAt (plan_at s1 p) = Plan.createdAt (plan_at s0 p)
  ∧ Plan.subscriberCount (plan_at s1 p) = Plan.subscriberCount (plan_at s0 p).
Proof.
  intros (_ & _ & _ & _ & _ & _ & _ & _ & Hplans) Hp.
  specialize (Hplans p Hp).
  split_and!.
  - exact (f_equal Plan.merchant Hplans).
  - exact (f_equal Plan.interval Hplans).
  - exact (f_equal Plan.amount Hplans).
  - exact (f_equal Plan.token Hplans).
  - exact (f_equal Plan.id Hplans).
  - exact (f_equal Plan.createdAt Hplans).
  - exact (f_equal Plan.subscriberCount Hplans).
Qed.

(** A subscription that was due when the call began, read after the
    functions without the guard have run. *)
Lemma frame_due (e : Env) (s0 s1 : State) (i : bytes32) :
  frame (block_timestamp e) s0 s1 →
  due e s0 i →
  let a := sub_at s0 i in
  let b := sub_at s1 i in
  Subscription.id b = Subscription.id a
  ∧ Subscription.planId b = Subscription.planId a
  ∧ Subscription.subscriber b = Subscription.subscriber a
  ∧ Subscription.startTime b = Subscription.startTime a
  ∧ Subscription.currentPeriodStart b = Subscription.currentPeriodStart a
  ∧ Subscription.paymentCount b = Subscription.paymentCount a
  ∧ Subscription.currentPeriodEnd a ≤ Subscription.currentPeriodEnd b
  ∧ Subscription.currentPeriodEnd b ≤ block_timestamp e.
Proof.
  intros (_ & _ & _ & _ & _ & _ & _ & Hsubs & _) (_ & _ & Hnp & Hdue). simpl.
  destruct (Hsubs i) as (? & ? & ? & ? & ? & ? & _ & Hk).
  destruct Hk as (? & ? & _); [done..|]. by split_and!.
Qed.

Lemma frame_stored (now : Z) (s0 s1 : State) (i : bytes32) :
  frame now s0 s1 →
  is_Some (subscriptions s1 !! i) ↔ is_Some (subscriptions s0 !! i).
Proof.
  intros (_ & _ & _ & _ & _ & _ & Hdom & _).
  rewrite <- !not_eq_None_Some. by rewrite Hdom.
Qed.

Lemma frame_history (now : Z) (s0 s1 : State) (i : bytes32) :
  frame now s0 s1 → history_at s1 i = history_at s0 i.
Proof.
  intros (_ & _ & _ & _ & _ & Hh & _). unfold history_at. by rewrite Hh.
Qed.

Section PeriodInvariant.
Context {L : Type} `{Ledger L}.
Variable this : address.
Variable keccak256_id : bytes32 → address → Z → Z → bytes32.

Lemma Inv_mono (t t' : Z) (s : State) : t ≤ t' → Inv t s → Inv t' s.
Proof.
  intros Ht (Hplans & Hsubs & Hsp). split; [done|]. split; [|done].
  by eapply periods_ok_mono.
Qed.

Lemma Free_Inv (e : Env) (s s' : State) :
  Free e s s' → Inv (block_timestamp e) s → Inv (block_timestamp e) s'.
Proof.
  intros Hfree (Hplans & Hsubs & Hsp).
  destruct Hfree; repeat match goal with x := _ |- _ => subst x end;
    try (by split_and!).
  - (* createPlan *)
    split_and!; [|done|].
    + apply (plans_ok_same (write_plan planId
               (Plan.mk planId amount token interval merchantAddress true 0
                  (block_timestamp e)) s)); [done|].
      apply plans_ok_write_plan; [done|]. simpl. lia.
    + apply (sub_plans_ok_same (write_plan planId
               (Plan.mk planId amount token interval merchantAddress true 0
                  (block_timestamp e)) s)); [done..|].
      by apply sub_plans_ok_write_plan.
  - (* updatePlan *)
    split_and!; [|done|].
    + apply plans_ok_write_plan; [done|]. intros _. simpl.
      apply Hplans. by left.
    + by apply sub_plans_ok_write_plan.
  - (* cancelSubscription *)
    match goal with Hx : Subscription.subscriber _ ≠ _ |- _ =>
      destruct (Hsubs _ Hx) as (Hstart & Hle & Hlt);
      pose proof (Hsp _ (stored_of_subscriber _ _ Hx)) as Hplan end.
    split_and!; [done| |].
    + apply periods_ok_write_sub; [done|]. intros _.
      destruct immediately; repeat split; simpl; done.
    + apply sub_plans_ok_write_sub; [done|]. by destruct immediately.
  - (* pauseSubscription *)
    match goal with Hx : Subscription.subscriber _ ≠ _ |- _ =>
      destruct (Hsubs _ Hx) as (Hstart & Hle & Hlt);
      pose proof (Hsp _ (stored_of_subscriber _ _ Hx)) as Hplan end.
    split_and!; [done| |].
    + apply periods_ok_write_sub; [done|]. intros _.
      repeat split; simpl; try done. intros _. apply Hlt. congruence.
    + by apply sub_plans_ok_write_sub.
  - (* resumeSubscription *)
    match goal with Hx : Subscription.subscriber _ ≠ _ |- _ =>
      destruct (Hsubs _ Hx) as (Hstart & Hle & Hlt);
      pose proof (Hsp _ (stored_of_subscriber _ _ Hx)) as Hplan end.
    split_and!; [done| |].
    + apply periods_ok_write_sub; [done|]. intros _.
      assert (Subscription.currentPeriodStart (sub_at s subscriptionId)
              < Subscription.currentPeriodEnd (sub_at s subscriptionId))
        by (apply Hlt; congruence).
      repeat split; simpl; lia.
    + by apply sub_plans_ok_write_sub.
Qed.

Lemma Inv_enroll (e : Env) (s : State) (planId i : bytes32) (x : Subscription.t) :
  Inv (block_timestamp e) s →
  Plan.merchant (plan_at s planId) ≠ 0%N →
  Subscription.planId x = planId →
  period_ok (block_timestamp e) x →
  Inv (block_timestamp e) (enroll e planId i x s).
Proof.
  intros (Hplans & Hsubs & Hsp) Hplan Hx Hperiod. unfold enroll.
  split_and!.
  - apply plans_ok_write_plan.
    + apply (plans_ok_same s); done.
    + intros _. simpl. apply Hplans. by left.
  - apply (periods_ok_same _ (write_sub i x s)); [done|].
    by apply periods_ok_write_sub.
  - apply sub_plans_ok_write_plan; [|done].
    apply (sub_plans_ok_same (write_sub i x s)); [done..|].
    apply sub_plans_ok_write_sub; [done|]. by rewrite Hx.
Qed.

Lemma Inv_push_history (t : Z) (s : State) (i : bytes32) (r : PaymentRecord.t) :
  Inv t s → Inv t (push_history i r s).
Proof.
  intros (Hplans & Hsubs & Hsp). split_and!.
  - by apply (plans_ok_same s).
  - by apply (periods_ok_same _ s).
  - by apply (sub_plans_ok_same s).
Qed.

Lemma Finish_Inv (e : Env) (s0 s1 s' : State) :
  frame (block_timestamp e) s0 s1 →
  Finish keccak256_id e s0 s1 s' →
  Inv (block_timestamp e) s0 → Inv (block_timestamp e) s1 →
  Inv (block_timestamp e) s'.
Proof.
  intros Hframe Hfin (Hplans0 & Hsubs0 & Hsp0) Hinv1.
  pose proof Hinv1 as (Hplans & Hsubs & Hsp).
  destruct Hfin; repeat match goal with x := _ |- _ => subst x end.
  - done.
  - (* subscribe *)
    match goal with
    | Hm : Plan.merchant (plan_at s0 planId) ≠ 0%N |- _ =>
        destruct (frame_plan _ _ _ planId Hframe Hm) as (Hm1 & Hint & _);
        pose proof (Hplans0 planId (or_introl Hm)) as Hday
    end.
    assert (Inv (block_timestamp e)
              (enroll e planId
                 (keccak256_id planId (msg_sender e) (block_timestamp e)
                    (_subscriptionNonce s0 + 1))
                 (new_subscription e planId
                    (keccak256_id planId (msg_sender e) (block_timestamp e)
                       (_subscriptionNonce s0 + 1)) periodEnd
                    (bool_decide (0 < trialDays))) s1)) as Henroll.
    { apply Inv_enroll; [done|congruence|done|].
      unfold period_ok, new_subscription. simpl. unfold DAY in *.
      subst periodEnd. case_bool_decide; repeat split; intros; lia. }
    destruct (bool_decide (trialDays = 0)); [|done]. by apply Inv_push_history.
  - (* charge: deferred cancellation *)
    subst s1.
    match goal with Hx : Subscription.subscriber _ ≠ _ |- _ =>
      destruct (Hsubs _ Hx) as (Hstart & Hle & Hlt);
      pose proof (Hsp _ (stored_of_subscriber _ _ Hx)) as Hplan end.
    split_and!; [done| |].
    + apply periods_ok_write_sub; [done|]. intros _. by repeat split.
    + by apply sub_plans_ok_write_sub.
  - (* charge: the pull failed *)
    match goal with
    | Hx : Subscription.subscriber _ ≠ _, Hd : due _ _ _ |- _ =>
        destruct (Hsubs0 _ Hx) as (Hstart & Hle & Hlt);
        pose proof (Hsp0 _ (stored_of_subscriber _ _ Hx)) as Hplan;
        destruct (frame_due e s0 s1 subscriptionId Hframe Hd)
          as (_ & Hpid & Hsub & _ & Hps & _ & Hend & Hnow);
        destruct Hd as (_ & Hnc & _ & _)
    end.
    specialize (Hlt Hnc).
    destruct (frame_plan _ _ _ _ Hframe Hplan) as (Hm1 & _).
    split_and!; [done| |].
    + apply periods_ok_write_sub; [done|]. intros _.
      repeat split; simpl; lia.
    + apply sub_plans_ok_write_sub; [done|]. simpl. congruence.
  - (* charge: renewal *)
    match goal with
    | Hx : Subscription.subscriber _ ≠ _, Hd : due _ _ _ |- _ =>
        destruct (Hsubs0 _ Hx) as (Hstart & Hle & Hlt);
        pose proof (Hsp0 _ (stored_of_subscriber _ _ Hx)) as Hplan;
        destruct (frame_due e s0 s1 subscriptionId Hframe Hd)
          as (_ & Hpid & Hsub & _ & Hps & _ & Hend & Hnow);
        destruct Hd as (_ & Hnc & _ & _)
    end.
    destruct (frame_plan _ _ _ _ Hframe Hplan) as (Hm1 & _).
    assert (DAY ≤ Plan.interval
                    (plan_at s1 (Subscription.planId (sub_at s0 subscriptionId))))
      as Hday by (apply Hplans; left; congruence).
    apply Inv_push_history. split_and!; [done| |].
    + apply periods_ok_write_sub; [done|]. intros _.
      unfold DAY in *. repeat split; simpl; lia.
    + apply sub_plans_ok_write_sub; [done|]. simpl. congruence.
  - (* pay *)
    done.
Qed.

Lemma constructor_Inv (e0 : Env) : Inv (block_timestamp e0) (constructor e0).
Proof.
  split_and!.
  - intros i. unfold plan_at. simpl. rewrite lookup_empty. simpl.
    by intros [|].
  - intros i. unfold sub_at. simpl. by rewrite lookup_empty.
  - intros i. simpl. rewrite lookup_empty. by intros [].
Qed.

(** C5 (amended).  In every reachable world, whatever the operations that
    led to it, every existing subscription has
    currentPeriodEnd ≥ currentPeriodStart, and currentPeriodEnd is strictly
    greater unless the subscription is Canceled. *)
Theorem period_end_follows_start (w : World L) (subscriptionId : bytes32) :
  Reachable this keccak256_id w →
  Subscription.subscriber (sub_at (st w) subscriptionId) ≠ 0%N →
  Subscription.currentPeriodStart (sub_at (st w) subscriptionId)
    ≤ Subscription.currentPeriodEnd (sub_at (st w) subscriptionId)
  ∧ (Subscription.status (sub_at (st w) subscriptionId) ≠ Canceled →
     Subscription.currentPeriodStart (sub_at (st w) subscriptionId)
     < Subscription.currentPeriodEnd (sub_at (st w) subscriptionId)).
Proof.
  intros (e0 & l0 & xs & Hchron & ->) Hex.
  destruct (run_preserves this keccak256_id Inv Inv_mono Free_Inv Finish_Inv
              xs _ (deploy e0 l0) Hchron (constructor_Inv e0))
    as (t' & _ & _ & Hsubs & _).
  by destruct (Hsubs subscriptionId Hex) as (_ & ? & ?).
Qed.

End PeriodInvariant.

(** ** One payment per order identifier *)

Section OneTimePayment.
Context {L : Type} `{Ledger L}.
Variable this : address.
Variable keccak256_id : bytes32 → address → Z → Z → bytes32.
Variable reenter : Env → Call → World L → Result (World L).




End OneTimePayment.
(** ** The token registry *)

Lemma swap_remove_Permutation (token : address) (l : list N) :
  token ∈ l → token :: swap_remove token l ≡ₚ l.
Proof.
  intros Hin. unfold swap_remove.
  destruct (list_find (λ x, x = token) l) as [[i x]|] eqn:Hfind.
  2: { apply list_find_None in Hfind. rewrite Forall_forall in Hfind.
       by destruct (Hfind token Hin). }
  apply list_find_Some in Hfind as (Hi & -> & _).
  destruct l as [|a l0 _] using rev_ind; [done|].
  rewrite last_snoc, length_app. simpl.
  replace (length l0 + 1 - 1)%nat with (length l0) by lia.
  destruct (decide (i < length l0)%nat) as [Hlt|Hge].
  - rewrite insert_app_l by done.
    rewrite take_app_length' by (by rewrite length_insert).
    rewrite lookup_app_l in Hi by done.
    rewrite insert_take_drop by done.
    rewrite <- (take_drop_middle l0 i token Hi) at 3.
    rewrite <- !app_assoc. simpl.
    rewrite <- Permutation_middle. rewrite (Permutation_app_comm _ [a]). simpl.
    rewrite <- Permutation_middle.
    f_equiv. apply Permutation_middle.
  - apply lookup_lt_Some in Hi as Hb. rewrite length_app in Hb. simpl in Hb.
    assert (i = length l0) as -> by lia.
    rewrite lookup_app_r in Hi by lia.
    replace (length l0 - length l0)%nat with 0%nat in Hi by lia.
    injection Hi as ->.
    rewrite insert_app_r_alt by lia.
    replace (length l0 - length l0)%nat with 0%nat by lia. simpl.
    rewrite take_app_length.
    by rewrite Permutation_app_comm.
Qed.

Lemma Free_registry (e : Env) (s s' : State) :
  Free e s s' → registry_ok s → registry_ok s'.
Proof.
  intros Hfree (Hnodup & Hiff & Hnative). unfold registry_ok, token_supported in *.
  free_cases Hfree; unfold token_supported in *; simpl; try done.
  - (* addSupportedToken *)
    assert (token ∉ supportedTokens s) as Hnotin.
    { intros Hin. apply Hiff in Hin. congruence. }
    split; [|split].
    + apply NoDup_app. split; [done|]. split; [|apply NoDup_singleton].
      intros x Hx ->%list_elem_of_singleton. done.
    + intros t. rewrite elem_of_app, list_elem_of_singleton.
      destruct (decide (t = token)) as [->|Hne].
      * rewrite lookup_insert_eq. simpl. split; [by right|done].
      * rewrite lookup_insert_ne by done. rewrite Hiff. split; [by left|].
        by intros [|].
    + destruct (decide (0%N = token)) as [<-|Hne].
      * by rewrite lookup_insert_eq.
      * by rewrite lookup_insert_ne.
  - (* removeSupportedToken *)
    assert (token ∈ supportedTokens s) as Hin by by apply Hiff.
    pose proof (swap_remove_Permutation token _ Hin) as Hperm.
    assert (NoDup (token :: swap_remove token (supportedTokens s))) as Hnd
      by by rewrite Hperm.
    apply NoDup_cons in Hnd as [Hnotin Hnd].
    split; [done|]. split.
    + intros t. destruct (decide (t = token)) as [->|Hne].
      * rewrite lookup_insert_eq. simpl. split; [done|]. by intros.
      * rewrite lookup_insert_ne by done. rewrite Hiff.
        assert (t ∈ supportedTokens s
                ↔ t ∈ token :: swap_remove token (supportedTokens s))
          as -> by by rewrite Hperm.
        rewrite elem_of_cons. split; [by intros [|]|by right].
    + by rewrite lookup_insert_ne.
Qed.

Lemma Finish_registry (h : bytes32 → address → Z → Z → bytes32) (e : Env)
    (s0 s1 s' : State) :
  Finish h e s0 s1 s' → registry_ok s1 → registry_ok s'.
Proof. intros Hfin Hok. by finish_cases Hfin. Qed.

(** ** The plan index *)

Lemma Free_plan_index (e : Env) (s s' : State) :
  Free e s s' → plan_index_ok s → plan_index_ok s'.
Proof.
  intros Hfree (Hnodup & Hiff & Hcount & Hnone). unfold plan_index_ok.
  free_cases Hfree; try done.
  all: try (destruct immediately; done).
  - (* createPlan *)
    match goal with Hm : Plan.merchant (plan_at _ planId) = 0%N |- _ =>
      rename Hm into Hnew end.
    assert (planId ∉ planIds s) as Hnotin.
    { intros Hin. by apply Hiff in Hin. }
    pose proof (Hnone planId Hnew) as Hempty.
    unfold plan_at in *. simpl.
    split_and!.
    + apply NoDup_app. split; [done|]. split; [|apply NoDup_singleton].
      by intros x Hx ->%list_elem_of_singleton.
    + intros q. rewrite elem_of_app, list_elem_of_singleton.
      destruct (decide (q = planId)) as [->|Hne].
      * rewrite lookup_insert_eq. simpl. split; [done|by right].
      * rewrite lookup_insert_ne by done. rewrite Hiff. split; [|by left].
        by intros [|].
    + intros q. destruct (decide (q = planId)) as [->|Hne].
      * rewrite lookup_insert_eq. simpl. by rewrite Hempty.
      * rewrite lookup_insert_ne by done. apply Hcount.
    + intros q. destruct (decide (q = planId)) as [->|Hne].
      * by rewrite lookup_insert_eq.
      * rewrite lookup_insert_ne by done. apply Hnone.
  - (* updatePlan *)
    assert (∀ q, Plan.merchant
                   (plan_at (write_plan planId
                               (Plan.set_active active (plan_at s planId)) s) q)
                 = Plan.merchant (plan_at s q)) as Hsame.
    { intros q. destruct (decide (planId = q)) as [->|Hne].
      - by rewrite plan_at_write_plan_eq.
      - by rewrite plan_at_write_plan_ne. }
    split_and!; try done.
    + intros q. rewrite Hsame. apply Hiff.
    + intros q. destruct (decide (planId = q)) as [->|Hne].
      * rewrite plan_at_write_plan_eq. apply Hcount.
      * rewrite plan_at_write_plan_ne by done. apply Hcount.
    + intros q. rewrite Hsame. apply Hnone.
Qed.

Lemma plan_index_ok_enroll (e : Env) (s : State) (planId i : bytes32)
    (x : Subscription.t) :
  Plan.merchant (plan_at s planId) ≠ 0%N →
  plan_index_ok s → plan_index_ok (enroll e planId i x s).
Proof.
  intros Hplan (Hnodup & Hiff & Hcount & Hnone).
  unfold plan_index_ok, enroll, plan_at in *. simpl.
  fold (plan_at s planId).
  assert (∀ q, Plan.merchant
                 (default Plan.zero
                    (<[planId := Plan.set_subscriberCount
                         (Plan.subscriberCount (plan_at s planId) + 1)
                         (plan_at s planId)]> (plans s) !! q))
               = Plan.merchant (default Plan.zero (plans s !! q))) as Hsame.
  { intros q. destruct (decide (q = planId)) as [->|Hne].
    - by rewrite lookup_insert_eq.
    - by rewrite lookup_insert_ne. }
  split_and!; try done.
  - intros q. rewrite Hsame. apply Hiff.
  - intros q. destruct (decide (q = planId)) as [->|Hne].
    + rewrite !lookup_insert_eq. simpl. rewrite length_app.
      unfold plan_at. rewrite Hcount. simpl. lia.
    + rewrite !lookup_insert_ne by done. apply Hcount.
  - intros q. rewrite Hsame. intros Hq.
    destruct (decide (q = planId)) as [->|Hne]; [done|].
    rewrite lookup_insert_ne by done. by apply Hnone.
Qed.

Lemma Finish_plan_index (h : bytes32 → address → Z → Z → bytes32) (e : Env)
    (s0 s1 s' : State) :
  frame (block_timestamp e) s0 s1 →
  Finish h e s0 s1 s' → plan_index_ok s1 → plan_index_ok s'.
Proof.
  intros Hframe Hfin Hok.
  destruct Hfin; repeat match goal with x := _ |- _ => subst x end; try done.
  match goal with
  | Hm : Plan.merchant (plan_at s0 planId) ≠ 0%N |- _ =>
      destruct (frame_plan _ _ _ planId Hframe Hm) as (Hm1 & _)
  end.
  assert (plan_index_ok
            (enroll e planId
               (h planId (msg_sender e) (block_timestamp e)
                  (_subscriptionNonce s0 + 1))
               (new_subscription e planId
                  (h planId (msg_sender e) (block_timestamp e)
                     (_subscriptionNonce s0 + 1)) periodEnd
                  (bool_decide (0 < trialDays))) s1)) as Henroll.
  { apply plan_index_ok_enroll; [congruence|done]. }
  by destruct (bool_decide (trialDays = 0)).
Qed.

(** ** Subscription identifiers *)

Lemma stored_of_status (s : State) (i : bytes32) :
  Subscription.status (sub_at s i) ≠ Active → is_Some (subscriptions s !! i).
Proof.
  unfold sub_at. destruct (subscriptions s !! i) as [x|]; [by eexists|done].
Qed.

Lemma is_Some_insert_stored {A : Type} (m : gmap N A) (i j : N) (x : A) :
  is_Some (m !! i) → is_Some (<[i := x]> m !! j) ↔ is_Some (m !! j).
Proof.
  intros Hi. destruct (decide (i = j)) as [->|Hne].
  - rewrite lookup_insert_eq. split; [done|by eexists].
  - by rewrite lookup_insert_ne.
Qed.

(** The identifier that the next subscription gets is in use nowhere. *)
Lemma next_id_fresh (h : bytes32 → address → Z → Z → bytes32) (s : State)
    (p : bytes32) (u : address) (t : Z) :
  nonce_injective h → ids_ok h s →
  subscriptions s !! h p u t (_subscriptionNonce s + 1) = None
  ∧ subscriptionPayments s !! h p u t (_subscriptionNonce s + 1) = None.
Proof.
  intros Hinj [Hn Hall].
  assert (¬ (subscriptions s !! h p u t (_subscriptionNonce s + 1) ≠ None
             ∨ subscriptionPayments s !! h p u t (_subscriptionNonce s + 1) ≠ None))
    as Hnot.
  { intros Hused. destruct (Hall _ Hused) as (p' & u' & t' & n' & Hn' & Heq).
    apply Hinj in Heq; lia. }
  split.
  - destruct (subscriptions s !! _); [|done]. destruct Hnot. by left.
  - destruct (subscriptionPayments s !! _); [|done]. destruct Hnot. by right.
Qed.

Section Identifiers.
Variable keccak256_id : bytes32 → address → Z → Z → bytes32.

Lemma ids_ok_update (s s' : State) (i : bytes32) (x : Subscription.t)
    (rs : list PaymentRecord.t) :
  is_Some (subscriptions s !! i) →
  subscriptions s' = <[i := x]> (subscriptions s) →
  subscriptionPayments s' = subscriptionPayments s
  ∨ subscriptionPayments s' = <[i := rs]> (subscriptionPayments s) →
  _subscriptionNonce s' = _subscriptionNonce s →
  ids_ok keccak256_id s → ids_ok keccak256_id s'.
Proof.
  intros Hi Hsubs Hpays Hnonce [Hn Hall]. split; [by rewrite Hnonce|].
  intros j Hj. rewrite Hnonce. apply Hall.
  destruct (decide (j = i)) as [->|Hne].
  { left. by apply not_eq_None_Some. }
  rewrite Hsubs, lookup_insert_ne in Hj by done.
  destruct Hpays as [Hp|Hp]; rewrite Hp in Hj; [done|].
  by rewrite lookup_insert_ne in Hj.
Qed.

Lemma ids_ok_write_sub (s : State) (i : bytes32) (x : Subscription.t) :
  Subscription.subscriber (sub_at s i) ≠ 0%N →
  ids_ok keccak256_id s → ids_ok keccak256_id (write_sub i x s).
Proof.
  intros Hex. eapply (ids_ok_update s _ i x []); try done.
  - by apply stored_of_subscriber.
  - by left.
Qed.

Lemma Free_ids_ok (e : Env) (s s' : State) :
  Free e s s' → ids_ok keccak256_id s → ids_ok keccak256_id s'.
Proof.
  intros Hfree Hids. free_cases Hfree; try done; by apply ids_ok_write_sub.
Qed.

Lemma ids_ok_enroll (e : Env) (s : State) (planId : bytes32)
    (x : Subscription.t) :
  _subscriptionNonce s + 1 ≤ MAX_UINT256 →
  ids_ok keccak256_id s →
  ids_ok keccak256_id
    (enroll e planId
       (keccak256_id planId (msg_sender e) (block_timestamp e)
          (_subscriptionNonce s + 1)) x s).
Proof.
  intros Hfits [Hn Hall].
  set (i := keccak256_id planId (msg_sender e) (block_timestamp e)
              (_subscriptionNonce s + 1)).
  split; [simpl; lia|]. intros j Hj. simpl in *.
  destruct (decide (j = i)) as [->|Hne].
  - exists planId, (msg_sender e), (block_timestamp e), (_subscriptionNonce s + 1).
    split; [lia|done].
  - rewrite lookup_insert_ne in Hj by done.
    destruct (Hall j Hj) as (p & u & t & n & Hle & Heq).
    exists p, u, t, n. split; [lia|done].
Qed.

Lemma ids_ok_push_history (s : State) (i : bytes32) (r : PaymentRecord.t) :
  is_Some (subscriptions s !! i) →
  ids_ok keccak256_id s → ids_ok keccak256_id (push_history i r s).
Proof.
  intros Hi [Hn Hall]. split; [done|]. intros j Hj. simpl in *. apply Hall.
  destruct (decide (j = i)) as [->|Hne].
  - left. by apply not_eq_None_Some.
  - by rewrite lookup_insert_ne in Hj.
Qed.

Lemma Finish_ids_ok (e : Env) (s0 s1 s' : State) :
  frame (block_timestamp e) s0 s1 →
  Finish keccak256_id e s0 s1 s' →
  ids_ok keccak256_id s1 → ids_ok keccak256_id s'.
Proof.
  intros Hframe Hfin Hids.
  pose proof Hframe as (_ & Hnonce & _).
  destruct Hfin; repeat match goal with x := _ |- _ => subst x end; try done.
  - (* subscribe *)
    rewrite <- Hnonce in *.
    match goal with
    | |- ids_ok _ (if _ then push_history ?i ?r ?s else _) =>
        assert (ids_ok keccak256_id s) as Henroll by by apply ids_ok_enroll
    end.
    destruct (bool_decide (trialDays = 0)); [|done].
    apply ids_ok_push_history; [|done]. simpl. rewrite lookup_insert_eq.
    by eexists.
  - subst s1. by apply ids_ok_write_sub.
  - apply ids_ok_write_sub; [|done].
    match goal with
    | Hd : due _ _ _ |- _ =>
        destruct (frame_due e s0 s1 subscriptionId Hframe Hd)
          as (_ & _ & Hsub & _)
    end.
    congruence.
  - match goal with
    | Hd : due _ _ _ |- _ =>
        destruct (frame_due e s0 s1 subscriptionId Hframe Hd)
          as (_ & _ & Hsub & _)
    end.
    apply ids_ok_push_history.
    + simpl. rewrite lookup_insert_eq. by eexists.
    + apply ids_ok_write_sub; [congruence|done].
Qed.

End Identifiers.

(** ** Payment counts *)

(** Writing one subscription and, possibly, appending to its history keeps
    the counts when the written count matches. *)
Lemma counts_ok_update (s s' : State) (i : bytes32) (x : Subscription.t)
    (rs : list PaymentRecord.t) :
  subscriptions s' = <[i := x]> (subscriptions s) →
  subscriptionPayments s' = <[i := rs]> (subscriptionPayments s) →
  Subscription.paymentCount x = Z.of_nat (length rs) →
  counts_ok s → counts_ok s'.
Proof.
  intros Hsubs Hpays Hx Hcounts j. unfold sub_at, history_at.
  rewrite Hsubs, Hpays. destruct (decide (j = i)) as [->|Hne].
  - by rewrite !lookup_insert_eq.
  - rewrite !lookup_insert_ne by done. apply Hcounts.
Qed.

Lemma counts_ok_write_sub (s : State) (i : bytes32) (x : Subscription.t) :
  Subscription.paymentCount x = Subscription.paymentCount (sub_at s i) →
  counts_ok s → counts_ok (write_sub i x s).
Proof.
  intros Hx Hcounts j. destruct (decide (j = i)) as [->|Hne].
  - rewrite sub_at_write_sub_eq, Hx. apply Hcounts.
  - rewrite sub_at_write_sub_ne by done. apply Hcounts.
Qed.

Lemma counts_ok_enroll (e : Env) (s : State) (planId i : bytes32)
    (x : Subscription.t) :
  subscriptionPayments s !! i = None →
  Subscription.paymentCount x = 0 →
  counts_ok s → counts_ok (enroll e planId i x s).
Proof.
  intros Hnone Hx Hcounts j. unfold sub_at, history_at, enroll. simpl.
  destruct (decide (j = i)) as [->|Hne].
  - by rewrite lookup_insert_eq, Hnone.
  - rewrite lookup_insert_ne by done. apply Hcounts.
Qed.

Lemma counts_ok_enroll_paid (e : Env) (s : State) (planId i : bytes32)
    (x : Subscription.t) (r : PaymentRecord.t) :
  subscriptionPayments s !! i = None →
  Subscription.paymentCount x = 1 →
  counts_ok s → counts_ok (push_history i r (enroll e planId i x s)).
Proof.
  intros Hnone Hx Hcounts j.
  change (sub_at (push_history i r ?s0) j) with (sub_at s0 j).
  destruct (decide (i = j)) as [<-|Hne].
  - rewrite history_at_push_eq.
    assert (history_at (enroll e planId i x s) i = []) as ->
      by (unfold history_at, enroll; simpl; by rewrite Hnone).
    unfold sub_at, enroll. simpl. by rewrite lookup_insert_eq.
  - rewrite history_at_push_ne by done.
    unfold sub_at, history_at, enroll. simpl.
    rewrite lookup_insert_ne by done. apply Hcounts.
Qed.

Lemma Free_counts_ok (e : Env) (s s' : State) :
  Free e s s' → counts_ok s → counts_ok s'.
Proof.
  intros Hfree Hcounts. free_cases Hfree; try done.
  - by destruct immediately; apply counts_ok_write_sub.
  - by apply counts_ok_write_sub.
  - by apply counts_ok_write_sub.
Qed.

Lemma Finish_counts_ok (h : bytes32 → address → Z → Z → bytes32) (e : Env)
    (s0 s1 s' : State) :
  nonce_injective h →
  frame (block_timestamp e) s0 s1 →
  Finish h e s0 s1 s' →
  ids_ok h s1 → counts_ok s1 → counts_ok s'.
Proof.
  intros Hinj Hframe Hfin Hids Hcounts.
  pose proof Hframe as (_ & Hnonce & _).
  destruct Hfin; repeat match goal with x := _ |- _ => subst x end; try done.
  - (* subscribe *)
    rewrite <- Hnonce in *.
    destruct (next_id_fresh h s1 planId (msg_sender e) (block_timestamp e)
                Hinj Hids) as [_ Hnone].
    destruct (bool_decide (0 < trialDays)) eqn:Htrial;
      destruct (bool_decide (trialDays = 0)) eqn:Hzero; inv_ok; try lia.
    + by apply counts_ok_enroll.
    + by apply counts_ok_enroll_paid.
  - subst s1. by apply counts_ok_write_sub.
  - by apply counts_ok_write_sub.
  - eapply counts_ok_update; [done..| |done].
    pose proof (Hcounts subscriptionId) as Hc.
    unfold history_at, sub_at in *. simpl in *. rewrite length_app. simpl. lia.
Qed.

(** ** The subscription indexes *)

Lemma elem_of_push_index (m : gmap N (list N)) (k k' i j : N) :
  j ∈ default [] (<[k := default [] (m !! k) ++ [i]]> m !! k')
  ↔ j ∈ default [] (m !! k') ∨ (k' = k ∧ j = i).
Proof.
  destruct (decide (k' = k)) as [->|Hne].
  - rewrite lookup_insert_eq. simpl. rewrite elem_of_app, list_elem_of_singleton.
    intuition congruence.
  - rewrite lookup_insert_ne by done. intuition congruence.
Qed.

Lemma NoDup_push_index (m : gmap N (list N)) (k i : N) :
  (∀ k', NoDup (default [] (m !! k'))) →
  i ∉ default [] (m !! k) →
  ∀ k', NoDup (default [] (<[k := default [] (m !! k) ++ [i]]> m !! k')).
Proof.
  intros Hnodup Hnotin k'. destruct (decide (k' = k)) as [->|Hne].
  - rewrite lookup_insert_eq. simpl. apply NoDup_app. split; [done|].
    split; [|apply NoDup_singleton].
    by intros x Hx ->%list_elem_of_singleton.
  - by rewrite lookup_insert_ne.
Qed.

Lemma index_ok_update (s s' : State) (i : bytes32) (x : Subscription.t) :
  is_Some (subscriptions s !! i) →
  subscriptions s' = <[i := x]> (subscriptions s) →
  sub_identity x = sub_identity (sub_at s i) →
  subscriptionIds s' = subscriptionIds s →
  userSubscriptions s' = userSubscriptions s →
  planSubscriptions s' = planSubscriptions s →
  _subscriptionNonce s' = _subscriptionNonce s →
  index_ok s → index_ok s'.
Proof.
  intros Hi Hsubs Hx Hids Husers Hplans Hnonce
    (Hnd & Hlen & Hall & Hndu & Hu & Hndp & Hp & Hid).
  injection Hx as Hxid Hxplan Hxsub _.
  assert (∀ j, is_Some (subscriptions s' !! j) ↔ is_Some (subscriptions s !! j))
    as Hstored.
  { intros j. rewrite Hsubs. by apply is_Some_insert_stored. }
  assert (∀ j, Subscription.id (sub_at s' j) = Subscription.id (sub_at s j)
               ∧ Subscription.planId (sub_at s' j) = Subscription.planId (sub_at s j)
               ∧ Subscription.subscriber (sub_at s' j)
                 = Subscription.subscriber (sub_at s j)) as Hsame.
  { intros j. unfold sub_at. rewrite Hsubs.
    destruct (decide (j = i)) as [->|Hne].
    - by rewrite lookup_insert_eq.
    - by rewrite lookup_insert_ne. }
  unfold index_ok. rewrite Hids, Husers, Hplans, Hnonce.
  split; [done|]. split; [done|]. split; [|split; [done|split; [|split; [done|split]]]].
  - intros j. rewrite Hstored. apply Hall.
  - intros u j. rewrite Hstored. destruct (Hsame j) as (_ & _ & ->). apply Hu.
  - intros p j. rewrite Hstored. destruct (Hsame j) as (_ & -> & _). apply Hp.
  - intros j Hj. destruct (Hsame j) as (-> & _). by apply Hid, Hstored.
Qed.

Lemma index_ok_enroll (s s' : State) (i p : bytes32) (u : address)
    (x : Subscription.t) :
  subscriptions s !! i = None →
  Subscription.id x = i → Subscription.planId x = p →
  Subscription.subscriber x = u →
  subscriptions s' = <[i := x]> (subscriptions s) →
  subscriptionIds s' = subscriptionIds s ++ [i] →
  userSubscriptions s'
  = <[u := default [] (userSubscriptions s !! u) ++ [i]]> (userSubscriptions s) →
  planSubscriptions s'
  = <[p := default [] (planSubscriptions s !! p) ++ [i]]> (planSubscriptions s) →
  _subscriptionNonce s' = _subscriptionNonce s + 1 →
  index_ok s → index_ok s'.
Proof.
  intros Hfresh Hxid Hxplan Hxsub Hsubs Hids Husers Hplans Hnonce
    (Hnd & Hlen & Hall & Hndu & Hu & Hndp & Hp & Hid).
  assert (¬ is_Some (subscriptions s !! i)) as Hnot
    by (rewrite Hfresh; by intros [? ?]).
  assert (∀ j, is_Some (subscriptions s' !! j)
               ↔ is_Some (subscriptions s !! j) ∨ j = i) as Hstored.
  { intros j. rewrite Hsubs. destruct (decide (j = i)) as [->|Hne].
    - rewrite lookup_insert_eq. split; [by right|by eexists].
    - rewrite lookup_insert_ne by done. intuition congruence. }
  assert (sub_at s' i = x) as Hnew.
  { unfold sub_at. by rewrite Hsubs, lookup_insert_eq. }
  assert (∀ j, j ≠ i → sub_at s' j = sub_at s j) as Hold.
  { intros j Hne. unfold sub_at. by rewrite Hsubs, lookup_insert_ne. }
  unfold index_ok. rewrite Hids, Husers, Hplans, Hnonce.
  split; [|split; [|split; [|split; [|split; [|split; [|split]]]]]].
  - apply NoDup_app. split; [done|]. split; [|apply NoDup_singleton].
    intros j Hj ->%list_elem_of_singleton. by apply Hnot, Hall.
  - rewrite length_app. simpl. lia.
  - intros j. rewrite elem_of_app, list_elem_of_singleton, Hstored, Hall. done.
  - apply NoDup_push_index; [done|]. intros Hin. by apply Hnot, (Hu u i).
  - intros u' j. rewrite elem_of_push_index, Hstored, Hu.
    destruct (decide (j = i)) as [->|Hne].
    + rewrite Hnew, Hxsub. intuition congruence.
    + rewrite Hold by done. intuition congruence.
  - apply NoDup_push_index; [done|]. intros Hin. by apply Hnot, (Hp p i).
  - intros p' j. rewrite elem_of_push_index, Hstored, Hp.
    destruct (decide (j = i)) as [->|Hne].
    + rewrite Hnew, Hxplan. intuition congruence.
    + rewrite Hold by done. intuition congruence.
  - intros j Hj. destruct (decide (j = i)) as [->|Hne].
    + by rewrite Hnew.
    + rewrite Hold by done. apply Hid. apply Hstored in Hj. by destruct Hj.
Qed.

Lemma index_ok_write_sub (s : State) (i : bytes32) (x : Subscription.t) :
  Subscription.subscriber (sub_at s i) ≠ 0%N →
  sub_identity x = sub_identity (sub_at s i) →
  index_ok s → index_ok (write_sub i x s).
Proof.
  intros Hex Hx. eapply (index_ok_update s _ i x); try done.
  by apply stored_of_subscriber.
Qed.

Lemma index_ok_push_history (s : State) (i : bytes32) (r : PaymentRecord.t) :
  index_ok s → index_ok (push_history i r s).
Proof. done. Qed.

Lemma Free_index_ok (e : Env) (s s' : State) :
  Free e s s' → index_ok s → index_ok s'.
Proof.
  intros Hfree Hindex. free_cases Hfree; try done.
  - by destruct immediately; apply index_ok_write_sub.
  - by apply index_ok_write_sub.
  - by apply index_ok_write_sub.
Qed.

Lemma Finish_index_ok (h : bytes32 → address → Z → Z → bytes32) (e : Env)
    (s0 s1 s' : State) :
  nonce_injective h →
  frame (block_timestamp e) s0 s1 →
  Finish h e s0 s1 s' →
  ids_ok h s1 → index_ok s1 → index_ok s'.
Proof.
  intros Hinj Hframe Hfin Hids Hindex.
  pose proof Hframe as (_ & Hnonce & _).
  destruct Hfin; repeat match goal with x := _ |- _ => subst x end; try done.
  - (* subscribe *)
    rewrite <- Hnonce in *.
    destruct (next_id_fresh h s1 planId (msg_sender e) (block_timestamp e)
                Hinj Hids) as [Hfresh _].
    set (i := h planId (msg_sender e) (block_timestamp e)
                (_subscriptionNonce s1 + 1)) in *.
    set (x := new_subscription e planId i periodEnd (bool_decide (0 < trialDays))).
    destruct (bool_decide (trialDays = 0));
      by apply (index_ok_enroll s1 _ i planId (msg_sender e) x).
  - subst s1. by apply index_ok_write_sub.
  - match goal with
    | Hd : due _ _ _ |- _ =>
        destruct (frame_due e s0 s1 subscriptionId Hframe Hd)
          as (_ & _ & Hsub & _)
    end.
    apply index_ok_write_sub; [congruence|done..].
  - match goal with
    | Hd : due _ _ _ |- _ =>
        destruct (frame_due e s0 s1 subscriptionId Hframe Hd)
          as (_ & _ & Hsub & _)
    end.
    apply index_ok_push_history. apply index_ok_write_sub; [congruence|done..].
Qed.

(** ** The invariants hold in every reachable world *)
Section Reachability.
Context {L : Type} `{Ledger L}.
Variable this : address.
Variable keccak256_id : bytes32 → address → Z → Z → bytes32.

Lemma constructor_storage_ok (e0 : Env) :
  storage_ok keccak256_id (constructor e0).
Proof.
  unfold storage_ok, ids_ok, counts_ok, index_ok, sub_plans_ok,
    sub_at, history_at. simpl.
  split; [split; [done|]|split; [done|split]].
  - intros i. rewrite !lookup_empty. by intros [|].
  - split; [apply NoDup_nil_2|]. split; [done|].
    split; [|split; [|split; [|split; [|split]]]]; intros **;
      rewrite ?lookup_empty; simpl; try apply NoDup_nil_2.
    + split; [by intros ?%elem_of_nil|by intros [? ?]].
    + split; [by intros ?%elem_of_nil|by intros [[? ?] _]].
    + split; [by intros ?%elem_of_nil|by intros [[? ?] _]].
    + match goal with Hs : is_Some _ |- _ =>
        rewrite lookup_empty in Hs; by destruct Hs end.
  - intros i Hi. rewrite lookup_empty in Hi. by destruct Hi.
Qed.

Lemma constructor_plan_index_ok (e0 : Env) : plan_index_ok (constructor e0).
Proof.
  unfold plan_index_ok, plan_at. simpl.
  split; [apply NoDup_nil_2|]. split; [|split]; intros q;
    rewrite ?lookup_empty; simpl; try done.
  split; [by intros ?%elem_of_nil|done].
Qed.

Lemma constructor_registry_ok (e0 : Env) : registry_ok (constructor e0).
Proof.
  unfold registry_ok, token_supported. simpl.
  split; [apply NoDup_singleton|]. split; [|done].
  intros token. rewrite list_elem_of_singleton.
  destruct (decide (token = 0%N)) as [->|Hne].
  - by rewrite lookup_singleton_eq.
  - by rewrite lookup_singleton_ne.
Qed.

Hypothesis keccak256_id_inj : nonce_injective keccak256_id.

Lemma Free_storage_ok (e : Env) (s s' : State) :
  Free e s s' → storage_ok keccak256_id s → storage_ok keccak256_id s'.
Proof.
  intros Hfree (Hids & Hcounts & Hindex & Hplans).
  split; [by eapply Free_ids_ok|].
  split; [by eapply Free_counts_ok|].
  split; [by eapply Free_index_ok|].
  free_cases Hfree; try done.
  - apply (sub_plans_ok_same (write_plan planId
             (Plan.mk planId amount token interval merchantAddress true 0
                (block_timestamp e)) s)); [done..|].
    by apply sub_plans_ok_write_plan.
  - by apply sub_plans_ok_write_plan.
  - apply sub_plans_ok_write_sub; [done|].
    match goal with Hx : Subscription.subscriber _ ≠ _ |- _ =>
      pose proof (Hplans _ (stored_of_subscriber _ _ Hx)) end.
    by destruct immediately.
  - apply sub_plans_ok_write_sub; [done|].
    match goal with Hx : Subscription.subscriber _ ≠ _ |- _ =>
      by pose proof (Hplans _ (stored_of_subscriber _ _ Hx)) end.
  - apply sub_plans_ok_write_sub; [done|].
    match goal with Hx : Subscription.subscriber _ ≠ _ |- _ =>
      by pose proof (Hplans _ (stored_of_subscriber _ _ Hx)) end.
Qed.

Lemma sub_plans_ok_enroll (e : Env) (s : State) (planId i : bytes32)
    (x : Subscription.t) :
  sub_plans_ok s →
  Plan.merchant (plan_at s planId) ≠ 0%N →
  Subscription.planId x = planId →
  sub_plans_ok (enroll e planId i x s).
Proof.
  intros Hsp Hplan Hx. unfold enroll.
  apply sub_plans_ok_write_plan; [|done].
  apply (sub_plans_ok_same (write_sub i x s)); [done..|].
  apply sub_plans_ok_write_sub; [done|]. by rewrite Hx.
Qed.

Lemma Finish_sub_plans_ok (e : Env) (s0 s1 s' : State) :
  frame (block_timestamp e) s0 s1 →
  Finish keccak256_id e s0 s1 s' →
  sub_plans_ok s0 → sub_plans_ok s1 → sub_plans_ok s'.
Proof.
  intros Hframe Hfin Hsp0 Hsp.
  destruct Hfin; repeat match goal with x := _ |- _ => subst x end; try done.
  - match goal with
    | Hm : Plan.merchant (plan_at s0 planId) ≠ 0%N |- _ =>
        destruct (frame_plan _ _ _ planId Hframe Hm) as (Hm1 & _)
    end.
    match goal with
    | |- sub_plans_ok (if _ then push_history ?i ?r ?s else _) =>
        assert (sub_plans_ok s) as Henroll
          by (apply sub_plans_ok_enroll; [done|congruence|done])
    end.
    destruct (bool_decide (trialDays = 0)); [|done].
    by eapply sub_plans_ok_same.
  - subst s1. apply sub_plans_ok_write_sub; [done|].
    match goal with Hx : Subscription.subscriber _ ≠ _ |- _ =>
      by pose proof (Hsp _ (stored_of_subscriber _ _ Hx)) end.
  - match goal with
    | Hx : Subscription.subscriber _ ≠ _, Hd : due _ _ _ |- _ =>
        pose proof (Hsp0 _ (stored_of_subscriber _ _ Hx)) as Hplan;
        destruct (frame_due e s0 s1 subscriptionId Hframe Hd)
          as (_ & Hpid & _)
    end.
    destruct (frame_plan _ _ _ _ Hframe Hplan) as (Hm1 & _).
    apply sub_plans_ok_write_sub; [done|]. simpl. congruence.
  - match goal with
    | Hx : Subscription.subscriber _ ≠ _, Hd : due _ _ _ |- _ =>
        pose proof (Hsp0 _ (stored_of_subscriber _ _ Hx)) as Hplan;
        destruct (frame_due e s0 s1 subscriptionId Hframe Hd)
          as (_ & Hpid & _)
    end.
    destruct (frame_plan _ _ _ _ Hframe Hplan) as (Hm1 & _).
    eapply sub_plans_ok_same; [| |apply sub_plans_ok_write_sub]; try done.
    simpl. congruence.
Qed.

Lemma Finish_storage_ok (e : Env) (s0 s1 s' : State) :
  frame (block_timestamp e) s0 s1 →
  Finish keccak256_id e s0 s1 s' →
  storage_ok keccak256_id s0 → storage_ok keccak256_id s1 →
  storage_ok keccak256_id s'.
Proof.
  intros Hframe Hfin (_ & _ & _ & Hplans0) (Hids & Hcounts & Hindex & Hplans).
  split; [by eapply Finish_ids_ok|].
  split; [by eapply Finish_counts_ok|].
  split; [by eapply Finish_index_ok|by eapply Finish_sub_plans_ok].
Qed.

Lemma Reachable_storage_ok (w : World L) :
  Reachable this keccak256_id w → storage_ok keccak256_id (st w).
Proof.
  apply (Reachable_st this keccak256_id (storage_ok keccak256_id)).
  - apply constructor_storage_ok.
  - apply Free_storage_ok.
  - apply Finish_storage_ok.
Qed.

Lemma Reachable_registry_ok (w : World L) :
  Reachable this keccak256_id w → registry_ok (st w).
Proof.
  apply (Reachable_st this keccak256_id registry_ok).
  - apply constructor_registry_ok.
  - apply Free_registry.
  - intros e s0 s1 s' _ Hfin _. by apply (Finish_registry keccak256_id e s0).
Qed.

(** X4.  In every reachable world the list of supported tokens has no
    duplicates, a token is flagged as supported exactly when it is on the
    list, and the native currency (the zero address) is supported. *)
Theorem supported_tokens_registry (w : World L) :
  Reachable this keccak256_id w →
  NoDup (getSupportedTokens w)
  ∧ (∀ token : address,
       isTokenSupported token w = true ↔ token ∈ getSupportedTokens w)
  ∧ isTokenSupported 0%N w = true.
Proof.
  intros Hreach.
  destruct (Reachable_registry_ok w Hreach) as (Hnodup & Hlisted & Hnative).
  unfold getSupportedTokens, isTokenSupported.
  split; [exact Hnodup|]. split; [exact Hlisted|exact Hnative].
Qed.

(** X5.  In every reachable world the list of plan identifiers has no
    duplicates and holds exactly the plans that exist, and the subscriber
    count that getPlan reports is the length of the plan's subscription
    list. *)
Theorem plan_index_consistent (w : World L) :
  Reachable this keccak256_id w →
  NoDup (planIds (st w))
  ∧ (∀ planId : bytes32,
       planId ∈ planIds (st w) ↔ planExists planId w = true)
  ∧ (∀ planId : bytes32,
       (getPlan planId w).2
       = Z.of_nat (length (default [] (planSubscriptions (st w) !! planId)))).
Proof.
  intros Hreach.
  assert (plan_index_ok (st w)) as (Hnd & Hiff & Hcount & _).
  { apply (Reachable_st this keccak256_id plan_index_ok); [| | |done].
    - apply constructor_plan_index_ok.
    - apply Free_plan_index.
    - intros e s0 s1 s' Hframe Hfin _.
      by apply (Finish_plan_index keccak256_id e s0). }
  split; [done|]. split; [|done].
  intros planId. unfold planExists. rewrite bool_decide_eq_true. apply Hiff.
Qed.

(** X6.  In every reachable world the payment count of a subscription is
    the number of its Payment Records, provided the hash gives distinct
    nonces distinct identifiers. *)
Theorem payment_count_is_history_length (w : World L) (subscriptionId : bytes32) :
  Reachable this keccak256_id w →
  Subscription.paymentCount (sub_at (st w) subscriptionId)
  = Z.of_nat (length (history_at (st w) subscriptionId)).
Proof.
  intros Hreach.
  by destruct (Reachable_storage_ok w Hreach) as (_ & Hcounts & _).
Qed.

(** X7.  In every reachable world getSubscriptionCount is the nonce, the
    global list has no duplicates, and the list of a user (of a plan) has no
    duplicates and holds exactly the listed subscriptions whose subscriber
    is that user (whose plan is that plan), provided the hash gives distinct
    nonces distinct identifiers. *)
Theorem subscription_indexes_consistent (w : World L) :
  Reachable this keccak256_id w →
  getSubscriptionCount w = _subscriptionNonce (st w)
  ∧ NoDup (subscriptionIds (st w))
  ∧ (∀ (user : address) (i : bytes32),
       NoDup (getSubscriptionsByUser user w)
       ∧ (i ∈ getSubscriptionsByUser user w
          ↔ i ∈ subscriptionIds (st w)
            ∧ Subscription.subscriber (sub_at (st w) i) = user))
  ∧ (∀ planId i : bytes32,
       NoDup (default [] (planSubscriptions (st w) !! planId))
       ∧ (i ∈ default [] (planSubscriptions (st w) !! planId)
          ↔ i ∈ subscriptionIds (st w)
            ∧ Subscription.planId (sub_at (st w) i) = planId)).
Proof.
  intros Hreach.
  destruct (Reachable_storage_ok w Hreach)
    as (_ & _ & (Hnd & Hlen & Hall & Hndu & Hu & Hndp & Hp & _) & _).
  split; [done|]. split; [done|]. split.
  - intros user i. split; [apply Hndu|]. unfold getSubscriptionsByUser.
    rewrite Hall. apply Hu.
  - intros planId i. split; [apply Hndp|]. rewrite Hall. apply Hp.
Qed.

End Reachability.
(** ** What stays fixed along a history *)

Lemma Free_plan_terms (e : Env) (s s' : State) (planId : bytes32) :
  Free e s s' →
  Plan.merchant (plan_at s planId) ≠ 0%N →
  plan_terms (plan_at s' planId) = plan_terms (plan_at s planId).
Proof.
  intros Hfree Hex. apply Free_frame in Hfree.
  destruct (frame_plan _ _ _ planId Hfree Hex) as (? & ? & ? & ? & ? & ? & _).
  unfold plan_terms. congruence.
Qed.

(** What a function under the guard writes leaves the plans alone, but for
    the subscriber count. *)
Lemma Finish_plan (h : bytes32 → address → Z → Z → bytes32) (e : Env)
    (s0 s1 s' : State) (p : bytes32) :
  Finish h e s0 s1 s' →
  Plan.set_subscriberCount 0 (plan_at s' p)
  = Plan.set_subscriberCount 0 (plan_at s1 p).
Proof.
  intros Hfin. finish_cases Hfin; try done.
  - change (plan_at (push_history ?a ?r ?s) p) with (plan_at s p).
    unfold enroll. destruct (decide (planId = p)) as [->|Hne].
    + by rewrite plan_at_write_plan_eq.
    + by rewrite plan_at_write_plan_ne.
  - unfold enroll. destruct (decide (planId = p)) as [->|Hne].
    + by rewrite plan_at_write_plan_eq.
    + by rewrite plan_at_write_plan_ne.
Qed.

Lemma Finish_plan_terms (h : bytes32 → address → Z → Z → bytes32) (e : Env)
    (s0 s1 s' : State) (p : bytes32) :
  Finish h e s0 s1 s' →
  plan_terms (plan_at s' p) = plan_terms (plan_at s1 p)
  ∧ Plan.active (plan_at s' p) = Plan.active (plan_at s1 p).
Proof.
  intros Hfin. pose proof (Finish_plan h e s0 s1 s' p Hfin) as Heq.
  unfold plan_terms. split.
  - pose proof (f_equal Plan.id Heq). pose proof (f_equal Plan.amount Heq).
    pose proof (f_equal Plan.token Heq). pose proof (f_equal Plan.interval Heq).
    pose proof (f_equal Plan.merchant Heq).
    pose proof (f_equal Plan.createdAt Heq). simpl in *. congruence.
  - exact (f_equal Plan.active Heq).
Qed.

(** What a function under the guard writes, seen from one stored
    subscription: nothing, or one of the three ends of a charge of that
    subscription, which was due when the function was called. *)
Lemma Finish_sub (h : bytes32 → address → Z → Z → bytes32) (e : Env)
    (s0 s1 s' : State) (i : bytes32) :
  nonce_injective h →
  frame (block_timestamp e) s0 s1 →
  ids_ok h s1 →
  Finish h e s0 s1 s' →
  is_Some (subscriptions s1 !! i) →
  is_Some (subscriptions s' !! i)
  ∧ history_at s' i = history_at s1 i ∧ sub_at s' i = sub_at s1 i
    ∨ (Subscription.subscriber (sub_at s0 i) ≠ 0%N ∧ due e s0 i
       ∧ is_Some (subscriptions s' !! i)
       ∧ (s1 = s0 ∧ Subscription.cancelAtPeriodEnd (sub_at s0 i) = true
          ∧ history_at s' i = history_at s1 i
          ∧ sub_at s' i = Subscription.set_status Canceled (sub_at s1 i)
          ∨ Subscription.cancelAtPeriodEnd (sub_at s0 i) = false
            ∧ history_at s' i = history_at s1 i
            ∧ sub_at s' i = Subscription.set_status Expired (sub_at s1 i)
          ∨ Subscription.cancelAtPeriodEnd (sub_at s0 i) = false
            ∧ (let a := sub_at s1 i in
               let plan := plan_at s1 (Subscription.planId (sub_at s0 i)) in
               let oldEnd := Subscription.currentPeriodEnd a in
               let newEnd := oldEnd + Plan.interval plan in
               history_at s' i
               = history_at s1 i
                 ++ [PaymentRecord.mk (Plan.amount plan) (block_timestamp e)
                       oldEnd newEnd]
               ∧ sub_at s' i
                 = Subscription.set_paymentCount
                     (Subscription.paymentCount a + 1)
                     (Subscription.set_currentPeriodEnd newEnd
                        (Subscription.set_currentPeriodStart oldEnd a))))).
Proof.
  intros Hinj Hframe Hids Hfin Hi.
  pose proof Hframe as (_ & Hnonce & _).
  assert (∀ (j : bytes32) (x : Subscription.t),
            is_Some (<[j := x]> (subscriptions s1) !! i)) as Hins.
  { intros j x. rewrite lookup_insert_is_Some. destruct (decide (j = i)); auto. }
  destruct Hfin; repeat match goal with x := _ |- _ => subst x end.
  - by left.
  - (* subscribe *)
    left. rewrite <- Hnonce in *.
    destruct (next_id_fresh h s1 planId (msg_sender e) (block_timestamp e)
                Hinj Hids) as [Hfresh _].
    assert (h planId (msg_sender e) (block_timestamp e)
              (_subscriptionNonce s1 + 1) ≠ i) as Hne.
    { intros Heq. rewrite Heq in Hfresh. rewrite Hfresh in Hi. by destruct Hi. }
    destruct (bool_decide (trialDays = 0)).
    + rewrite history_at_push_ne by done.
      change (sub_at (push_history ?a ?r ?s) i) with (sub_at s i).
      change (subscriptions (push_history ?a ?r ?s)) with (subscriptions s).
      unfold enroll, sub_at, history_at. simpl.
      rewrite ?lookup_insert_ne by done. split; [first [done|apply Hins]|done].
    + unfold enroll, sub_at, history_at. simpl.
      rewrite ?lookup_insert_ne by done. split; [first [done|apply Hins]|done].
  - (* charge: deferred cancellation *)
    change (history_at (write_sub ?a ?x ?s) i) with (history_at s i).
    destruct (decide (subscriptionId = i)) as [->|Hne].
    + right. rewrite sub_at_write_sub_eq. subst s1.
      split_and!; try done; [apply Hins|]. left. by split_and!.
    + left. rewrite sub_at_write_sub_ne by done. split; [apply Hins|done].
  - (* charge: the pull failed *)
    change (history_at (write_sub ?a ?x ?s) i) with (history_at s i).
    destruct (decide (subscriptionId = i)) as [->|Hne].
    + right. rewrite sub_at_write_sub_eq.
      split_and!; try done; [apply Hins|]. right. left. by split_and!.
    + left. rewrite sub_at_write_sub_ne by done. split; [apply Hins|done].
  - (* charge: renewal *)
    change (sub_at (push_history ?a ?r ?s) i) with (sub_at s i).
    change (subscriptions (push_history ?a ?r ?s)) with (subscriptions s).
    destruct (decide (subscriptionId = i)) as [->|Hne].
    + right. rewrite sub_at_write_sub_eq, history_at_push_eq.
      split_and!; try done; [apply Hins|]. right. right. by split_and!.
    + left. rewrite sub_at_write_sub_ne, history_at_push_ne by done.
      split; [apply Hins|done].
  - by left.
Qed.

Section Fixed.
Context {L : Type} `{Ledger L}.
Variable this : address.
Variable keccak256_id : bytes32 → address → Z → Z → bytes32.

(** X8.  The terms of a plan never change: along any history the
    identifier, amount, token, interval, merchant and creation time of an
    existing plan stay what they are. *)
Theorem plan_terms_are_fixed (w : World L) (xs : list Step) (planId : bytes32) :
  Plan.merchant (plan_at (st w) planId) ≠ 0%N →
  plan_terms (plan_at (st (run this keccak256_id xs w)) planId)
  = plan_terms (plan_at (st w) planId).
Proof.
  intros Hex.
  apply (run_preserves_st this keccak256_id
           (λ s, plan_terms (plan_at s planId)
                 = plan_terms (plan_at (st w) planId))); [| |done].
  - intros e s s' Hfree Hsame. rewrite <- Hsame.
    apply (Free_plan_terms e s s' planId Hfree).
    injection Hsame as _ _ _ _ Hm _. by rewrite Hm.
  - intros e s0 s1 s' _ Hfin _ Hsame. rewrite <- Hsame.
    by destruct (Finish_plan_terms keccak256_id e s0 s1 s' planId Hfin).
Qed.

Hypothesis keccak256_id_inj : nonce_injective keccak256_id.

(** X9.  A closed subscription stays closed: once a subscription of a
    reachable world is Canceled or Expired, it is Canceled or Expired in
    every world of any history that follows, never Active or Paused again;
    and Canceled is final.  The hash is taken to give distinct nonces
    distinct identifiers. *)
Theorem closed_status_stays_closed (w : World L) (xs : list Step)
    (subscriptionId : bytes32) :
  Reachable this keccak256_id w →
  closed (Subscription.status (sub_at (st w) subscriptionId)) →
  closed
    (Subscription.status
       (sub_at (st (run this keccak256_id xs w)) subscriptionId))
  ∧ (Subscription.status (sub_at (st w) subscriptionId) = Canceled →
     Subscription.status
       (sub_at (st (run this keccak256_id xs w)) subscriptionId) = Canceled).
Proof.
  intros Hreach Hclosed.
  pose proof (Reachable_storage_ok this keccak256_id keccak256_id_inj w Hreach)
    as Hok.
  set (c := Subscription.status (sub_at (st w) subscriptionId)) in *.
  assert (storage_ok keccak256_id (st (run this keccak256_id xs w))
          ∧ closed
              (Subscription.status
                 (sub_at (st (run this keccak256_id xs w)) subscriptionId))
          ∧ (c = Canceled →
             Subscription.status
               (sub_at (st (run this keccak256_id xs w)) subscriptionId)
             = Canceled))
    as (_ & Hgoal); [|done].
  apply (run_preserves_st this keccak256_id
           (λ s, storage_ok keccak256_id s
                 ∧ closed (Subscription.status (sub_at s subscriptionId))
                 ∧ (c = Canceled →
                    Subscription.status (sub_at s subscriptionId) = Canceled)));
    [| |done].
  - intros e s s' Hfree (Hok1 & Hc & Hfinal).
    split; [by eapply Free_storage_ok|].
    apply Free_frame in Hfree as (_ & _ & _ & _ & _ & _ & _ & Hsubs & _).
    destruct (Hsubs subscriptionId) as (_ & _ & _ & _ & _ & _ & Hsame & _).
    by rewrite (Hsame Hc).
  - intros e s0 s1 s' Hframe Hfin (Hok0 & Hc0 & Hfinal0) (Hok1 & Hc1 & Hfinal1).
    split; [by eapply Finish_storage_ok|].
    destruct Hok1 as (Hids & _).
    assert (is_Some (subscriptions s1 !! subscriptionId)) as Hstored.
    { apply stored_of_status. by destruct Hc1 as [->| ->]. }
    destruct (Finish_sub keccak256_id e s0 s1 s' subscriptionId
                keccak256_id_inj Hframe Hids Hfin Hstored)
      as [(_ & _ & ->)|(_ & (_ & Hnc & _) & _ & Hcases)]; [done|].
    assert (c ≠ Canceled) as Hopen by (intros Hcc; by apply Hnc, Hfinal0).
    destruct Hcases as [(_ & _ & _ & ->)|[(_ & _ & ->)|(_ & _ & ->)]]; simpl.
    + split; [by left|done].
    + split; [by right|done].
    + done.
Qed.

(** X10.  The identifier, plan, subscriber and start time of a stored
    subscription of a reachable world never change along any history that
    follows, provided the hash gives distinct nonces distinct
    identifiers. *)
Theorem subscription_identity_is_fixed (w : World L) (xs : list Step)
    (subscriptionId : bytes32) :
  Reachable this keccak256_id w →
  Subscription.subscriber (sub_at (st w) subscriptionId) ≠ 0%N →
  sub_identity (sub_at (st (run this keccak256_id xs w)) subscriptionId)
  = sub_identity (sub_at (st w) subscriptionId).
Proof.
  intros Hreach Hex.
  pose proof (Reachable_storage_ok this keccak256_id keccak256_id_inj w Hreach)
    as Hok.
  set (v := sub_identity (sub_at (st w) subscriptionId)).
  assert (storage_ok keccak256_id (st (run this keccak256_id xs w))
          ∧ is_Some (subscriptions (st (run this keccak256_id xs w))
                       !! subscriptionId)
          ∧ sub_identity
              (sub_at (st (run this keccak256_id xs w)) subscriptionId) = v)
    as (_ & _ & Hgoal); [|done].
  apply (run_preserves_st this keccak256_id
           (λ s, storage_ok keccak256_id s
                 ∧ is_Some (subscriptions s !! subscriptionId)
                 ∧ sub_identity (sub_at s subscriptionId) = v)).
  - intros e s s' Hfree (Hok1 & Hstored & Hv).
    split; [by eapply Free_storage_ok|].
    apply Free_frame in Hfree as Hframe.
    split; [by apply (frame_stored _ _ _ subscriptionId Hframe)|].
    destruct Hframe as (_ & _ & _ & _ & _ & _ & _ & Hsubs & _).
    destruct (Hsubs subscriptionId) as (? & ? & ? & ? & _).
    rewrite <- Hv. unfold sub_identity. congruence.
  - intros e s0 s1 s' Hframe Hfin (Hok0 & _) (Hok1 & Hstored & Hv).
    split; [by eapply Finish_storage_ok|].
    destruct Hok1 as (Hids & _).
    destruct (Finish_sub keccak256_id e s0 s1 s' subscriptionId
                keccak256_id_inj Hframe Hids Hfin Hstored)
      as [(? & _ & ->)|(_ & _ & ? & Hcases)]; [done|].
    split; [done|]. rewrite <- Hv.
    by destruct Hcases as [(_ & _ & _ & ->)|[(_ & _ & ->)|(_ & _ & ->)]].
  - split; [done|]. split; [by apply stored_of_subscriber|done].
Qed.

End Fixed.

(** ** Payment histories *)

Lemma in_order_snoc (rs : list PaymentRecord.t) (r : PaymentRecord.t) :
  in_order rs →
  (∀ r0, last rs = Some r0 →
         PaymentRecord.timestamp r0 ≤ PaymentRecord.timestamp r
         ∧ PaymentRecord.periodEnd r0 ≤ PaymentRecord.periodStart r) →
  in_order (rs ++ [r]).
Proof.
  intros Hrs Hlast k r1 r2 H1 H2.
  destruct (decide (S k < length rs)%nat) as [Hlt|Hge].
  - rewrite lookup_app_l in H1 by lia. rewrite lookup_app_l in H2 by lia.
    by eapply Hrs.
  - apply lookup_lt_Some in H2 as Hb. rewrite length_app in Hb. simpl in Hb.
    assert (S k = length rs) as Hk by lia.
    rewrite lookup_app_r in H2 by lia.
    replace (S k - length rs)%nat with 0%nat in H2 by lia.
    injection H2 as <-.
    rewrite lookup_app_l in H1 by lia.
    apply Hlast. rewrite last_lookup. by rewrite <- Hk.
Qed.

Lemma history_ok_mono (t t' : Z) (s : State) :
  t ≤ t' → history_ok t s → history_ok t' s.
Proof.
  intros Ht Hok i. destruct (Hok i) as (Hall & Hord & Hlast).
  split; [done|]. split; [done|]. intros r Hr.
  destruct (Hlast r Hr) as [Hts Hend]. split; [lia|done].
Qed.

(** Only the subscription [i] and its history changed, and what they are
    now is sound. *)
Lemma history_ok_at (t : Z) (s s' : State) (i : bytes32) :
  (∀ j, j ≠ i → sub_at s' j = sub_at s j ∧ history_at s' j = history_at s j) →
  Forall record_ok (history_at s' i) →
  in_order (history_at s' i) →
  (∀ r, last (history_at s' i) = Some r →
        PaymentRecord.timestamp r ≤ t
        ∧ (Subscription.status (sub_at s' i) ≠ Canceled →
           PaymentRecord.periodEnd r
           ≤ Subscription.currentPeriodEnd (sub_at s' i))) →
  history_ok t s → history_ok t s'.
Proof.
  intros Hothers Hall Hord Hlast Hok j.
  destruct (decide (j = i)) as [->|Hne]; [done|].
  destruct (Hothers j Hne) as [-> ->]. apply Hok.
Qed.

Lemma history_ok_same (t : Z) (s s' : State) :
  subscriptions s' = subscriptions s →
  subscriptionPayments s' = subscriptionPayments s →
  history_ok t s → history_ok t s'.
Proof.
  intros Hs Hp Hok i. unfold history_at, sub_at. rewrite Hs, Hp. apply Hok.
Qed.

(** The subscription [i] is rewritten and its history is kept. *)
Lemma history_ok_write_sub (t : Z) (s : State) (i : bytes32)
    (x : Subscription.t) :
  (Subscription.status x ≠ Canceled →
   ∀ r, last (history_at s i) = Some r →
        PaymentRecord.periodEnd r ≤ Subscription.currentPeriodEnd x) →
  history_ok t s → history_ok t (write_sub i x s).
Proof.
  intros Hx Hok. destruct (Hok i) as (Hall & Hord & Hlast).
  apply (history_ok_at t s _ i); try done.
  - intros j Hne. by rewrite sub_at_write_sub_ne.
  - intros r Hr. destruct (Hlast r Hr) as [Hts Hend]. split; [done|].
    rewrite sub_at_write_sub_eq. intros Hnc. by apply Hx.
Qed.

(** A write that keeps the status open and does not shorten the period. *)
Lemma history_ok_write_later (t : Z) (s : State) (i : bytes32)
    (x : Subscription.t) :
  (Subscription.status x ≠ Canceled →
   Subscription.status (sub_at s i) ≠ Canceled
   ∧ Subscription.currentPeriodEnd (sub_at s i)
     ≤ Subscription.currentPeriodEnd x) →
  history_ok t s → history_ok t (write_sub i x s).
Proof.
  intros Hx Hok. apply history_ok_write_sub; [|done].
  intros Hnc r Hr. destruct (Hx Hnc) as [Hold Hle].
  destruct (Hok i) as (_ & _ & Hlast). destruct (Hlast r Hr) as [_ Hend].
  specialize (Hend Hold). lia.
Qed.

Section Histories2.
Context {L : Type} `{Ledger L}.
Variable this : address.
Variable keccak256_id : bytes32 → address → Z → Z → bytes32.
Hypothesis keccak256_id_inj : nonce_injective keccak256_id.

Lemma Free_history_ok (e : Env) (s s' : State) :
  Free e s s' →
  history_ok (block_timestamp e) s → history_ok (block_timestamp e) s'.
Proof.
  intros Hfree Hok. free_cases Hfree; try done.
  - (* cancelSubscription *)
    by destruct immediately; apply history_ok_write_later.
  - (* pauseSubscription *)
    apply history_ok_write_later; simpl; [|done].
    intros _. split; [congruence|lia].
  - (* resumeSubscription *)
    apply history_ok_write_later; simpl; [|done].
    intros _. split; [congruence|lia].
Qed.

Lemma Finish_history_ok (e : Env) (s0 s1 s' : State) :
  frame (block_timestamp e) s0 s1 →
  Finish keccak256_id e s0 s1 s' →
  sound keccak256_id (block_timestamp e) s0 → sound keccak256_id (block_timestamp e) s1 →
  history_ok (block_timestamp e) s'.
Proof.
  intros Hframe Hfin ((Hplans0 & Hsubs0 & Hsp0) & Hids0 & Hok0)
    ((Hplans & Hsubs & Hsp) & Hids & Hok).
  pose proof Hframe as (_ & Hnonce & _).
  destruct Hfin; repeat match goal with x := _ |- _ => subst x end; try done.
  - (* subscribe *)
    rewrite <- Hnonce in *.
    destruct (next_id_fresh keccak256_id s1 planId (msg_sender e)
                (block_timestamp e) keccak256_id_inj Hids) as [Hfresh Hnone].
    set (i := keccak256_id planId (msg_sender e) (block_timestamp e)
                (_subscriptionNonce s1 + 1)) in *.
    assert (DAY ≤ Plan.interval (plan_at s0 planId)) as Hint
      by (apply Hplans0; by left).
    destruct (bool_decide (0 < trialDays)) eqn:Htrial;
      destruct (bool_decide (trialDays = 0)) eqn:Hzero; inv_ok; try lia.
    + apply (history_ok_at _ s1 _ i).
      * intros j Hne. unfold sub_at, history_at. simpl.
        by rewrite lookup_insert_ne.
      * unfold history_at. simpl. by rewrite Hnone.
      * unfold history_at. simpl. rewrite Hnone. by intros k r r' ?.
      * unfold history_at. simpl. by rewrite Hnone.
      * done.
    + apply (history_ok_at _ s1 _ i).
      * intros j Hne. unfold sub_at, history_at. simpl.
        by rewrite !lookup_insert_ne.
      * rewrite history_at_push_eq. unfold history_at. simpl. rewrite Hnone.
        apply Forall_singleton. unfold record_ok, DAY in *. simpl. lia.
      * rewrite history_at_push_eq. unfold history_at. simpl. rewrite Hnone.
        by intros [|k] r r' ? ?.
      * rewrite history_at_push_eq. unfold history_at, sub_at. simpl.
        rewrite lookup_insert_eq, Hnone. simpl.
        intros r [= <-]. simpl. split; lia.
      * done.
  - (* charge: deferred cancellation *)
    subst s1. by apply history_ok_write_later.
  - (* charge: the pull failed *)
    match goal with
    | Hd : due _ _ _ |- _ =>
        destruct (frame_due e s0 s1 subscriptionId Hframe Hd)
          as (_ & _ & _ & _ & _ & _ & Hend & Hnow);
        destruct Hd as (_ & Hnc & _ & _)
    end.
    apply history_ok_write_sub; [|done]. simpl. intros _ r Hr.
    rewrite (frame_history _ _ _ subscriptionId Hframe) in Hr.
    destruct (Hok0 subscriptionId) as (_ & _ & Hlast).
    destruct (Hlast r Hr) as [_ Hle]. specialize (Hle Hnc). lia.
  - (* charge: renewal *)
    match goal with
    | Hx : Subscription.subscriber _ ≠ _, Hd : due _ _ _ |- _ =>
        pose proof (Hsp0 _ (stored_of_subscriber _ _ Hx)) as Hplan;
        destruct (frame_due e s0 s1 subscriptionId Hframe Hd)
          as (_ & _ & _ & _ & _ & _ & Hend & Hnow);
        destruct Hd as (_ & Hnc & _ & _)
    end.
    destruct (frame_plan _ _ _ _ Hframe Hplan) as (Hm1 & _).
    assert (DAY ≤ Plan.interval
                    (plan_at s1 (Subscription.planId (sub_at s0 subscriptionId))))
      as Hint by (apply Hplans; left; congruence).
    destruct (Hok subscriptionId) as (Hall & Hord & Hlast).
    destruct (Hok0 subscriptionId) as (_ & _ & Hlast0).
    rewrite <- (frame_history _ _ _ subscriptionId Hframe) in Hlast0.
    eapply (history_ok_at _ s1 _ subscriptionId); [| | | |done].
    + intros j Hne. rewrite history_at_push_ne by done.
      split; [|done].
      change (sub_at (push_history ?a ?r ?s) j) with (sub_at s j).
      by rewrite sub_at_write_sub_ne.
    + rewrite history_at_push_eq. apply Forall_app. split; [done|].
      apply Forall_singleton. unfold record_ok, DAY in *. simpl. lia.
    + rewrite history_at_push_eq. apply in_order_snoc; [done|].
      intros r0 Hr0. destruct (Hlast r0 Hr0) as [Hts _].
      destruct (Hlast0 r0 Hr0) as [_ Hle]. specialize (Hle Hnc). simpl.
      split; [done|lia].
    + rewrite history_at_push_eq, last_snoc. intros r [= <-]. simpl.
      split; [lia|].
      change (sub_at (push_history ?a ?r ?s) subscriptionId)
        with (sub_at s subscriptionId).
      rewrite sub_at_write_sub_eq. simpl. lia.
Qed.

Lemma sound_mono (t t' : Z) (s : State) : t ≤ t' → sound keccak256_id t s → sound keccak256_id t' s.
Proof.
  intros Ht (Hinv & Hids & Hh). split; [by eapply Inv_mono|].
  split; [done|]. by eapply history_ok_mono.
Qed.

Lemma Free_sound (e : Env) (s s' : State) :
  Free e s s' → sound keccak256_id (block_timestamp e) s → sound keccak256_id (block_timestamp e) s'.
Proof.
  intros Hfree (Hinv & Hids & Hh). split; [by eapply Free_Inv|].
  split; [by eapply Free_ids_ok|by eapply Free_history_ok].
Qed.

Lemma Finish_sound (e : Env) (s0 s1 s' : State) :
  frame (block_timestamp e) s0 s1 →
  Finish keccak256_id e s0 s1 s' →
  sound keccak256_id (block_timestamp e) s0 → sound keccak256_id (block_timestamp e) s1 →
  sound keccak256_id (block_timestamp e) s'.
Proof.
  intros Hframe Hfin Hs0 Hs1.
  split; [|split].
  - destruct Hs0 as (Hinv0 & _). destruct Hs1 as (Hinv1 & _).
    by eapply (Finish_Inv keccak256_id).
  - destruct Hs1 as (_ & Hids & _). by eapply Finish_ids_ok.
  - by eapply Finish_history_ok.
Qed.

Lemma constructor_sound (e0 : Env) : sound keccak256_id (block_timestamp e0) (constructor e0).
Proof.
  split; [apply constructor_Inv|].
  split; [exact (proj1 (constructor_storage_ok keccak256_id e0))|].
  intros i. unfold history_at. simpl. rewrite lookup_empty. simpl.
  split; [done|]. split; [by intros k r r' ?|done].
Qed.

Lemma Reachable_sound (w : World L) :
  Reachable this keccak256_id w → ∃ t, sound keccak256_id t (st w).
Proof.
  intros (e0 & l0 & xs & Hchron & ->).
  destruct (run_preserves this keccak256_id (sound keccak256_id) sound_mono Free_sound
              Finish_sound xs _ (deploy e0 l0) Hchron (constructor_sound e0))
    as (t' & _ & Hsound).
  by exists t'.
Qed.

(** X20.  In every reachable world the Payment Records of a subscription
    are in order: each was taken no earlier than the one before it and pays
    for a non-empty period that had begun when it was taken and starts no
    earlier than the period of the previous record ends.  The hash is taken
    to give distinct nonces distinct identifiers. *)
Theorem payment_periods_never_overlap (w : World L) (subscriptionId : bytes32) :
  Reachable this keccak256_id w →
  Forall record_ok (history_at (st w) subscriptionId)
  ∧ in_order (history_at (st w) subscriptionId).
Proof.
  intros Hreach. destruct (Reachable_sound w Hreach) as (t & _ & _ & Hhist).
  by destruct (Hhist subscriptionId) as (? & ? & _).
Qed.

End Histories2.

(** ** The query and the charge *)
Section Agreement.
Context {L : Type} `{Ledger L}.
Variable this : address.
Variable reenter : Env → Call → World L → Result (World L).

(** X21.  charge does what canCharge announces: when canCharge answers
    false with a reason, charge on an existing subscription returns false,
    reports that reason and changes nothing but the log; and charge returns
    true only when canCharge answers (true, 0). *)
Theorem charge_agrees_with_canCharge (e : Env) (subscriptionId : bytes32)
    (w : World L) :
  _status w = _NOT_ENTERED →
  msg_value e = 0 →
  Subscription.subscriber (sub_at (st w) subscriptionId) ≠ 0%N →
  (∀ reason : Z,
     canCharge this e subscriptionId w = Ok (false, reason) →
     charge this reenter e subscriptionId w
     = Ok (false, emit (PaymentFailed subscriptionId reason) w))
  ∧ (∀ w' : World L,
       charge this reenter e subscriptionId w = Ok (true, w') →
       canCharge this e subscriptionId w = Ok (true, 0)).
Proof.
  intros Hs Hv Hex. unfold canCharge, charge, non_payable.
  rewrite Hv. simpl. rewrite nonReentrant_open by done.
  unfold _requireSubscriptionExists. simpl.
  rewrite bool_decide_eq_true_2 by done. simpl.
  change (_canCharge this e subscriptionId (with_status _ENTERED w))
    with (_canCharge this e subscriptionId w).
  destruct (_canCharge this e subscriptionId w) as [[[] r]|m] eqn:Hcan; simpl.
  - apply _canCharge_true in Hcan as [-> _]. split; [by intros ? [=]|done].
  - split; [|by intros ? [=]]. intros ? [= <-].
    destruct w as [s l lg g]. simpl in *. by subst g.
  - split; [by intros ? [=]|by intros ? [=]].
Qed.

End Agreement.

(** ** The price of a subscription *)
Section Price.
Context {L : Type} `{Ledger L}.
Variable this : address.
Variable keccak256_id : bytes32 → address → Z → Z → bytes32.
Hypothesis keccak256_id_inj : nonce_injective keccak256_id.

Lemma amounts_ok_plans (s s' : State) :
  subscriptions s' = subscriptions s →
  subscriptionPayments s' = subscriptionPayments s →
  (∀ i, is_Some (subscriptions s !! i) →
        Plan.amount (plan_at s' (Subscription.planId (sub_at s i)))
        = Plan.amount (plan_at s (Subscription.planId (sub_at s i)))) →
  amounts_ok s → amounts_ok s'.
Proof.
  intros Hsubs Hpays Hplans Hok i. destruct (Hok i) as [Hstored Hall].
  unfold history_at, sub_at in *. rewrite Hsubs, Hpays.
  split; [done|].
  destruct (decide (default [] (subscriptionPayments s !! i) = [])) as [->|Hne];
    [done|].
  specialize (Hplans i (Hstored Hne)). unfold sub_at in Hplans.
  by rewrite Hplans.
Qed.

Lemma amounts_ok_write_sub (s : State) (i : bytes32) (x : Subscription.t) :
  is_Some (subscriptions s !! i) →
  Subscription.planId x = Subscription.planId (sub_at s i) →
  amounts_ok s → amounts_ok (write_sub i x s).
Proof.
  intros Hi Hx Hok j. destruct (Hok j) as [Hstored Hall].
  change (history_at (write_sub i x s) j) with (history_at s j).
  change (plan_at (write_sub i x s)) with (plan_at s).
  split.
  - intros Hne. unfold write_sub. simpl.
    apply is_Some_insert_stored; [done|]. by apply Hstored.
  - destruct (decide (j = i)) as [->|Hne].
    + by rewrite sub_at_write_sub_eq, Hx.
    + by rewrite sub_at_write_sub_ne.
Qed.

Lemma Free_amounts_ok (e : Env) (s s' : State) :
  Free e s s' → sub_plans_ok s → amounts_ok s → amounts_ok s'.
Proof.
  intros Hfree Hplans Hok. free_cases Hfree; try done.
  - (* createPlan *)
    eapply (amounts_ok_plans s); [done..| |done].
    intros i Hi. unfold plan_at at 1. simpl.
    rewrite lookup_insert_ne; [done|]. intros Heq.
    apply (Hplans i Hi). by rewrite <- Heq.
  - (* updatePlan *)
    eapply (amounts_ok_plans s); [done..| |done].
    intros i Hi. unfold plan_at at 1. simpl.
    destruct (decide (planId = Subscription.planId (sub_at s i)))
      as [->|Hne].
    + by rewrite lookup_insert_eq.
    + by rewrite lookup_insert_ne.
  - destruct immediately;
      (apply amounts_ok_write_sub; [by apply stored_of_subscriber|done..]).
  - apply amounts_ok_write_sub; [by apply stored_of_subscriber|done..].
  - apply amounts_ok_write_sub; [by apply stored_of_subscriber|done..].
Qed.

Lemma Finish_amounts_ok (e : Env) (s0 s1 s' : State) :
  frame (block_timestamp e) s0 s1 →
  Finish keccak256_id e s0 s1 s' →
  ids_ok keccak256_id s1 →
  amounts_ok s1 → amounts_ok s'.
Proof.
  intros Hframe Hfin Hids Hok.
  pose proof Hframe as (_ & Hnonce & _).
  destruct Hfin; repeat match goal with x := _ |- _ => subst x end; try done.
  - (* subscribe *)
    rewrite <- Hnonce in *.
    destruct (next_id_fresh keccak256_id s1 planId (msg_sender e)
                (block_timestamp e) keccak256_id_inj Hids) as [Hfresh Hnone].
    set (i := keccak256_id planId (msg_sender e) (block_timestamp e)
                (_subscriptionNonce s1 + 1)) in *.
    set (x := new_subscription e planId i periodEnd
                (bool_decide (0 < trialDays))) in *.
    set (p := Plan.set_subscriberCount
                (Plan.subscriberCount (plan_at s1 planId) + 1)
                (plan_at s1 planId)).
    assert (∀ (s' : State) (rs : list PaymentRecord.t),
              subscriptions s' = <[i := x]> (subscriptions s1) →
              plans s' = <[planId := p]> (plans s1) →
              (∀ j, j ≠ i → history_at s' j = history_at s1 j) →
              history_at s' i = rs →
              Forall (λ r, PaymentRecord.amount r
                           = Plan.amount (plan_at s1 planId)) rs →
              amounts_ok s') as Hgoal.
    { intros s' rs Hsubs Hpl Hothers Hnew Hrs j.
      assert (∀ q, Plan.amount (plan_at s' q) = Plan.amount (plan_at s1 q))
        as Hamount.
      { intros q. unfold plan_at at 1. rewrite Hpl.
        destruct (decide (q = planId)) as [->|Hne].
        - by rewrite lookup_insert_eq.
        - by rewrite lookup_insert_ne. }
      destruct (decide (j = i)) as [->|Hne].
      - rewrite Hnew. unfold sub_at. rewrite Hsubs, lookup_insert_eq. simpl.
        split; [by eexists|]. by rewrite Hamount.
      - destruct (Hok j) as [Hstored Hall]. rewrite (Hothers j Hne).
        unfold sub_at. rewrite Hsubs, lookup_insert_ne by done.
        split; [done|]. fold (sub_at s1 j).
        eapply Forall_impl; [exact Hall|]. intros r Hr. by rewrite Hamount. }
    destruct (bool_decide (trialDays = 0)).
    + eapply (Hgoal _ [_]); [done..| | |].
      * intros j Hne. by rewrite history_at_push_ne.
      * rewrite history_at_push_eq. unfold history_at. simpl.
        by rewrite Hnone.
      * by apply Forall_singleton.
    + eapply (Hgoal _ []); [done..| | |done].
      * done.
      * unfold history_at. simpl. by rewrite Hnone.
  - subst s1. apply amounts_ok_write_sub; [by apply stored_of_subscriber|done..].
  - match goal with
    | Hx : Subscription.subscriber _ ≠ _, Hd : due _ _ _ |- _ =>
        destruct (frame_due e s0 s1 subscriptionId Hframe Hd)
          as (_ & _ & Hsub & _)
    end.
    apply amounts_ok_write_sub; [|done..].
    apply stored_of_subscriber. congruence.
  - (* renewal *)
    match goal with
    | Hx : Subscription.subscriber _ ≠ _, Hd : due _ _ _ |- _ =>
        destruct (frame_due e s0 s1 subscriptionId Hframe Hd)
          as (_ & Hpid & Hsub & _)
    end.
    assert (is_Some (subscriptions s1 !! subscriptionId)) as Hstored1
      by (apply stored_of_subscriber; congruence).
    match goal with
    | |- amounts_ok (push_history _ ?r (write_sub _ ?x _)) =>
        pose proof (amounts_ok_write_sub s1 subscriptionId x Hstored1 eq_refl Hok)
          as Hmid;
        set (s2 := write_sub subscriptionId x s1) in *
    end.
    intros j. destruct (Hmid j) as [Hstored Hall].
    change (sub_at (push_history ?a ?r ?s) j) with (sub_at s j).
    change (plan_at (push_history ?a ?r ?s)) with (plan_at s).
    change (subscriptions (push_history ?a ?r ?s)) with (subscriptions s).
    destruct (decide (j = subscriptionId)) as [->|Hne].
    + rewrite history_at_push_eq. split.
      * intros _. unfold s2, write_sub. simpl.
        rewrite lookup_insert_eq. by eexists.
      * apply Forall_app. split; [done|]. apply Forall_singleton. simpl.
        unfold s2. rewrite sub_at_write_sub_eq. simpl.
        change (plan_at (write_sub ?a ?y ?s)) with (plan_at s).
        by rewrite Hpid.
    + by rewrite history_at_push_ne.
Qed.

(** X22.  A subscriber is only ever charged the price of the plan: in
    every reachable world each Payment Record of a subscription carries the
    amount of the subscription's plan.  The hash is taken to give distinct
    nonces distinct identifiers. *)
Theorem charged_amount_is_plan_amount (w : World L) (subscriptionId : bytes32) :
  Reachable this keccak256_id w →
  Forall
    (λ r, PaymentRecord.amount r
          = Plan.amount
              (plan_at (st w)
                 (Subscription.planId (sub_at (st w) subscriptionId))))
    (history_at (st w) subscriptionId).
Proof.
  intros Hreach.
  assert (storage_ok keccak256_id (st w) ∧ amounts_ok (st w)) as [_ Hok].
  { revert w Hreach.
    apply (Reachable_st this keccak256_id
             (λ s, storage_ok keccak256_id s ∧ amounts_ok s)).
    - intros e0. split; [apply constructor_storage_ok|].
      intros i. unfold history_at. simpl. rewrite lookup_empty. by split.
    - intros e s s' Hfree [Hs Ha].
      split; [by eapply Free_storage_ok|].
      destruct Hs as (_ & _ & _ & Hplans). by eapply Free_amounts_ok.
    - intros e s0 s1 s' Hframe Hfin [Hs0 _] [Hs1 Ha1].
      split; [by eapply Finish_storage_ok|].
      destruct Hs1 as (Hids & _). by eapply Finish_amounts_ok. }
  by destruct (Hok subscriptionId).
Qed.

End Price.

(** ** Paged queries *)

Lemma copy_loop_spec {A : Type} (source : list A) (offset : nat) :
  ∀ (steps k : nat) (result : list A),
    (offset + k + steps ≤ length source)%nat →
    length result = (k + steps)%nat →
    take k result = take k (drop offset source) →
    copy_loop source offset (offset + k) steps result
    = Ok (take (k + steps) (drop offset source)).
Proof.
  induction steps as [|steps IH]; intros k result Hlen Hres Htake; simpl.
  - rewrite Nat.add_0_r in *. f_equal. rewrite <- Htake.
    by rewrite take_ge by lia.
  - destruct (source !! (offset + k)%nat) as [x|] eqn:Hx.
    2: { apply lookup_ge_None in Hx. lia. }
    replace (offset + k - offset)%nat with k by lia.
    rewrite bool_decide_eq_true_2 by lia.
    replace (S (offset + k)) with (offset + S k)%nat by lia.
    rewrite IH.
    + f_equal. f_equal. lia.
    + lia.
    + rewrite length_insert. lia.
    + rewrite (take_S_r (drop offset source) k x).
      2: { by rewrite lookup_drop. }
      rewrite <- Htake.
      rewrite (take_S_r (<[k := x]> result) k x).
      2: { apply list_lookup_insert_eq. lia. }
      f_equal. by rewrite take_insert_ge by lia.
Qed.

Lemma page_nil_past_end {A : Type} (offset limit : Z) (l : list A) :
  0 ≤ offset → Z.of_nat (length l) ≤ offset → page offset limit l = [].
Proof.
  intros Ho Hge. unfold page. rewrite drop_ge by lia. by rewrite take_nil.
Qed.

Lemma page_take {A : Type} (offset size limit total : Z) (l : list A) :
  total = Z.of_nat (length l) →
  0 ≤ offset < total → 0 ≤ limit →
  size = (if bool_decide (total < offset + limit) then total else offset + limit)
         - offset →
  take (Z.to_nat size) (drop (Z.to_nat offset) l) = page offset limit l.
Proof.
  intros -> Ho Hl ->. unfold page. case_bool_decide.
  - rewrite !take_ge; [done|rewrite length_drop; lia..].
  - f_equal. lia.
Qed.

(** X1.  [getSubscriptionsByPlan] returns the page [offset, offset + limit)
    of the plan's subscription list in order, together with the full length
    of the list; past the end the page is empty and the total still right.
    When the page starts inside the list and offset + limit exceeds uint256,
    the call reverts. *)
Theorem getSubscriptionsByPlan_page {L : Type} (planId : bytes32)
    (offset limit : Z) (w : World L) :
  let subs := default [] (planSubscriptions (st w) !! planId) in
  let total := Z.of_nat (length subs) in
  0 ≤ offset ≤ MAX_UINT256 →
  0 ≤ limit ≤ MAX_UINT256 →
  getSubscriptionsByPlan planId offset limit w
  = if bool_decide (offset < total ∧ MAX_UINT256 < offset + limit) then
      Revert "Panic(0x11)"
    else Ok (page offset limit subs, total).
Proof.
  intros subs total Ho Hl. unfold getSubscriptionsByPlan, abi_uint.
  rewrite !bool_decide_eq_true_2 by done. simpl. fold subs. fold total.
  case_bool_decide as Hpast.
  - rewrite bool_decide_eq_false_2 by lia.
    by rewrite page_nil_past_end by lia.
  - unfold checked_add. case_bool_decide as Hfit; simpl.
    + rewrite (bool_decide_eq_false_2
                 (offset < total ∧ MAX_UINT256 < offset + limit)) by lia.
      set (end_ := if bool_decide (total < offset + limit) then total
                   else offset + limit).
      assert (offset ≤ end_) by (subst end_; case_bool_decide; lia).
      assert (end_ ≤ total) by (subst end_; case_bool_decide; lia).
      unfold checked_sub. rewrite bool_decide_eq_true_2 by done. simpl.
      pose proof (copy_loop_spec subs (Z.to_nat offset)
                    (Z.to_nat (end_ - offset)) 0
                    (replicate (Z.to_nat (end_ - offset)) 0%N)) as Hloop.
      rewrite Nat.add_0_r in Hloop. rewrite Hloop.
      * simpl.
        by rewrite (page_take offset (end_ - offset) limit total)
          by (done || lia).
      * subst total. lia.
      * by rewrite length_replicate.
      * done.
    + by rewrite bool_decide_eq_true_2 by lia.
Qed.

Lemma history_loop_spec (records : list PaymentRecord.t) (offset : nat) :
  ∀ (steps k : nat) (amounts timestamps : list Z),
    (offset + k + steps ≤ length records)%nat →
    length amounts = (k + steps)%nat →
    length timestamps = (k + steps)%nat →
    take k amounts = PaymentRecord.amount <$> take k (drop offset records) →
    take k timestamps = PaymentRecord.timestamp <$> take k (drop offset records) →
    history_loop records offset k steps amounts timestamps
    = Ok (PaymentRecord.amount <$> take (k + steps) (drop offset records),
          PaymentRecord.timestamp <$> take (k + steps) (drop offset records)).
Proof.
  induction steps as [|steps IH]; intros k amounts timestamps Hlen Ha Ht Hta Htt;
    simpl.
  - rewrite Nat.add_0_r in *. rewrite <- Hta, <- Htt.
    by rewrite !take_ge by lia.
  - destruct (records !! (offset + k)%nat) as [x|] eqn:Hx.
    2: { apply lookup_ge_None in Hx. lia. }
    rewrite !bool_decide_eq_true_2 by lia. simpl.
    assert (take (S k) (drop offset records)
            = take k (drop offset records) ++ [x]) as Hsnoc.
    { apply take_S_r. by rewrite lookup_drop. }
    replace (k + S steps)%nat with (S k + steps)%nat by lia.
    rewrite IH.
    + done.
    + lia.
    + rewrite length_insert. lia.
    + rewrite length_insert. lia.
    + rewrite Hsnoc, fmap_app. simpl. rewrite <- Hta.
      rewrite (take_S_r (<[k := PaymentRecord.amount x]> amounts) k
                 (PaymentRecord.amount x)).
      2: { apply list_lookup_insert_eq. lia. }
      f_equal. by rewrite take_insert_ge by lia.
    + rewrite Hsnoc, fmap_app. simpl. rewrite <- Htt.
      rewrite (take_S_r (<[k := PaymentRecord.timestamp x]> timestamps) k
                 (PaymentRecord.timestamp x)).
      2: { apply list_lookup_insert_eq. lia. }
      f_equal. by rewrite take_insert_ge by lia.
Qed.

(** X2.  [getPaymentHistory] returns the amounts and the timestamps of the
    page [offset, offset + limit) of the subscription's Payment Records, in
    order, with the full number of records; the page is empty past the end or
    for limit 0, the total still right.  When a non-empty page is asked from
    inside the history and offset + limit exceeds uint256, the call
    reverts. *)
Theorem getPaymentHistory_page {L : Type} (subscriptionId : bytes32)
    (offset limit : Z) (w : World L) :
  let records := history_at (st w) subscriptionId in
  let total := Z.of_nat (length records) in
  0 ≤ offset ≤ MAX_UINT256 →
  0 ≤ limit ≤ MAX_UINT256 →
  getPaymentHistory subscriptionId offset limit w
  = if bool_decide (offset < total ∧ limit ≠ 0 ∧ MAX_UINT256 < offset + limit)
    then Revert "Panic(0x11)"
    else Ok (PaymentRecord.amount <$> page offset limit records,
             PaymentRecord.timestamp <$> page offset limit records, total).
Proof.
  intros records total Ho Hl. unfold getPaymentHistory, abi_uint.
  rewrite !bool_decide_eq_true_2 by done. simpl. fold records. fold total.
  destruct (decide (total ≤ offset)) as [Hpast|Hin].
  { rewrite (bool_decide_eq_true_2 (total ≤ offset)) by done. simpl.
    rewrite bool_decide_eq_false_2 by lia.
    by rewrite page_nil_past_end by lia. }
  rewrite (bool_decide_eq_false_2 (total ≤ offset)) by done. simpl.
  destruct (decide (limit = 0)) as [->|Hpos].
  { rewrite bool_decide_eq_true_2 by done.
    by rewrite bool_decide_eq_false_2 by lia. }
  rewrite (bool_decide_eq_false_2 (limit = 0)) by done.
  unfold checked_add. case_bool_decide as Hfit; simpl.
  - rewrite (bool_decide_eq_false_2
               (offset < total ∧ limit ≠ 0 ∧ MAX_UINT256 < offset + limit))
      by lia.
    set (end_ := if bool_decide (total < offset + limit) then total
                 else offset + limit).
    assert (offset ≤ end_) by (subst end_; case_bool_decide; lia).
    assert (end_ ≤ total) by (subst end_; case_bool_decide; lia).
    unfold checked_sub. rewrite bool_decide_eq_true_2 by done. simpl.
    rewrite (history_loop_spec records (Z.to_nat offset)
               (Z.to_nat (end_ - offset)) 0); simpl.
    + by rewrite (page_take offset (end_ - offset) limit total) by (done || lia).
    + subst total. lia.
    + by rewrite length_replicate.
    + by rewrite length_replicate.
    + done.
    + done.
  - by rewrite bool_decide_eq_true_2 by lia.
Qed.

Section PendingCharges.
Context {L : Type} `{Ledger L}.
Variable this : address.

Lemma eligible_cons (e : Env) (w : World L) (i : N) (ids : list N) :
  eligible this e w (i :: ids)
  = if says_yes (_canCharge this e i w) then i :: eligible this e w ids
    else eligible this e w ids.
Proof.
  unfold eligible. rewrite filter_cons.
  destruct (says_yes (_canCharge this e i w)); by case_decide.
Qed.

Lemma answered_cons (e : Env) (w : World L) (i : N) (ids : list N) :
  answered this e w (i :: ids)
  ↔ (∃ b r, _canCharge this e i w = Ok (b, r)) ∧ answered this e w ids.
Proof.
  unfold answered. rewrite Forall_cons. split; intros [Hi Hrest]; split; try done.
  - destruct (_canCharge this e i w) as [[b r]|m]; [by eauto|done].
  - by destruct Hi as (b & r & ->).
Qed.

Lemma count_loop_spec (e : Env) (w : World L) (ids : list N) :
  answered this e w ids →
  ∀ count : Z,
    count + Z.of_nat (length ids) ≤ MAX_UINT256 →
    count_loop this e ids w count
    = Ok (count + Z.of_nat (length (eligible this e w ids))).
Proof.
  induction ids as [|i ids IH]; intros Hall count Hfit; simpl in *.
  - f_equal. unfold eligible. simpl. lia.
  - apply answered_cons in Hall as [(b & r & Hi) Hall].
    rewrite eligible_cons, Hi. simpl. destruct b; simpl.
    + rewrite checked_add_fits by lia. simpl. rewrite IH by (done || lia).
      f_equal. lia.
    + apply IH; [done|lia].
Qed.

(** A token that does not answer stops the count. *)
Lemma count_loop_unanswered (e : Env) (w : World L) (ids : list N) :
  ¬ answered this e w ids →
  ∀ count : Z, is_ok (count_loop this e ids w count) = false.
Proof.
  induction ids as [|i ids IH]; intros Hsome count; simpl.
  - destruct Hsome. by apply Forall_nil.
  - destruct (_canCharge this e i w) as [[b r]|m] eqn:Hi; [|done]. simpl.
    assert (¬ answered this e w ids) as Hrest.
    { intros Hall. apply Hsome, answered_cons. eauto. }
    destruct b; [|by apply IH].
    destruct (checked_add count 1); simpl; [by apply IH|done].
Qed.

Lemma collect_loop_spec (e : Env) (w : World L) (offset resultSize : Z) :
  0 ≤ offset → 0 ≤ resultSize ≤ MAX_UINT256 →
  ∀ (rest done_ : list N) (found added : Z) (result : list N),
    answered this e w rest →
    found = Z.of_nat (length done_) →
    added
    = Z.of_nat
        (length (take (Z.to_nat resultSize) (drop (Z.to_nat offset) done_))) →
    take (Z.to_nat added) result
    = take (Z.to_nat resultSize) (drop (Z.to_nat offset) done_) →
    length result = (Z.to_nat resultSize) →
    Z.of_nat (length done_ + length rest) ≤ MAX_UINT256 →
    (Z.to_nat resultSize
     ≤ length (drop (Z.to_nat offset) (done_ ++ eligible this e w rest)))%nat →
    collect_loop this e rest w offset resultSize found added result
    = Ok (take (Z.to_nat resultSize)
            (drop (Z.to_nat offset) (done_ ++ eligible this e w rest))).
Proof.
  intros Ho Hr rest.
  set (off := Z.to_nat offset). set (rs := Z.to_nat resultSize).
  induction rest as [|i rest IH];
    intros done_ found added result Hall Hfound Hadded Htake Hlen Hmax Hrs.
  - simpl. unfold eligible in *. simpl in *. rewrite app_nil_r in *.
    f_equal. rewrite <- Htake. rewrite take_ge; [done|].
    rewrite Hadded, length_take. lia.
  - simpl. rewrite eligible_cons in *.
    apply answered_cons in Hall as [(b & r & Hi) Hall]. rewrite Hi in *.
    simpl in Hrs |- *.
    case_bool_decide as Hmore.
    2: { f_equal. rewrite drop_app, take_app.
         assert (length (take rs (drop off done_)) = rs) as Hfull.
         { rewrite length_take in *. lia. }
         rewrite length_take in Hfull.
         replace (rs - length (drop off done_))%nat with 0%nat by lia.
         rewrite take_0, app_nil_r. rewrite <- Htake.
         rewrite take_ge; [done|]. rewrite Hadded, length_take. lia. }
    destruct b; simpl.
    2: { apply IH; try done. simpl in Hmax. lia. }
    assert (length (drop off done_) = Z.to_nat added
            ∧ (Z.to_nat added < rs)%nat) as [Hdrop Hlt].
    { rewrite Hadded, length_take in *. lia. }
    replace (done_ ++ i :: eligible this e w rest)
      with ((done_ ++ [i]) ++ eligible this e w rest) in *
      by (by rewrite <- app_assoc).
    case_bool_decide as Hpast; simpl.
    + rewrite bool_decide_eq_true_2 by lia. simpl.
      rewrite checked_add_fits by lia. simpl.
      rewrite checked_add_fits by (simpl in Hmax; lia). simpl.
      assert (drop off (done_ ++ [i]) = drop off done_ ++ [i]) as Hsnoc.
      { rewrite drop_app. f_equal.
        replace (off - length done_)%nat with 0%nat by lia. done. }
      apply IH.
      * done.
      * rewrite length_app. simpl. lia.
      * rewrite Hsnoc. rewrite take_ge by (rewrite length_app; simpl; lia).
        rewrite length_app. simpl. lia.
      * rewrite Hsnoc.
        rewrite (take_ge (drop off done_ ++ [i]))
          by (rewrite length_app; simpl; lia).
        replace (Z.to_nat (added + 1)) with (S (Z.to_nat added)) by lia.
        rewrite (take_S_r _ _ i) by (apply list_lookup_insert_eq; lia).
        rewrite take_insert_ge by lia. rewrite Htake.
        by rewrite take_ge by lia.
      * by rewrite length_insert.
      * rewrite length_app. simpl in *. lia.
      * done.
    + rewrite checked_add_fits by (simpl in Hmax; lia). simpl.
      assert (drop off (done_ ++ [i]) = []) as Hnil.
      { apply drop_ge. rewrite length_app. simpl. lia. }
      assert (drop off done_ = []) as Hnil'.
      { apply drop_ge. lia. }
      apply IH.
      * done.
      * rewrite length_app. simpl. lia.
      * rewrite Hnil. rewrite Hadded, Hnil'. done.
      * rewrite Hnil. rewrite <- Hnil'. done.
      * done.
      * rewrite length_app. simpl in *. lia.
      * done.
Qed.

(** X3.  When every token that [_canCharge] has to ask answers,
    [getPendingCharges] returns the page [offset, offset + limit) of the
    stored subscription identifiers that [_canCharge] finds eligible, in the
    order in which they were created, together with the number of all
    eligible ones; the page is empty past the end or for limit 0, the total
    still right, and when a non-empty page is asked from inside the list and
    offset + limit exceeds uint256, the call reverts.  When the token of one
    stored subscription does not answer, the call reverts whatever page is
    asked. *)
Theorem getPendingCharges_page (e : Env) (offset limit : Z) (w : World L) :
  let pending := eligible this e w (subscriptionIds (st w)) in
  let total := Z.of_nat (length pending) in
  0 ≤ offset ≤ MAX_UINT256 →
  0 ≤ limit ≤ MAX_UINT256 →
  Z.of_nat (length (subscriptionIds (st w))) ≤ MAX_UINT256 →
  (answered this e w (subscriptionIds (st w)) →
   getPendingCharges this e offset limit w
   = if bool_decide (offset < total ∧ limit ≠ 0 ∧ MAX_UINT256 < offset + limit)
     then Revert "Panic(0x11)"
     else Ok (page offset limit pending, total))
  ∧ (¬ answered this e w (subscriptionIds (st w)) →
     is_ok (getPendingCharges this e offset limit w) = false).
Proof.
  intros pending total Ho Hl Hids. unfold getPendingCharges, abi_uint.
  rewrite !bool_decide_eq_true_2 by done. simpl. split.
  2: { intros Hsome.
       pose proof (count_loop_unanswered e w _ Hsome 0) as Hcount.
       by destruct (count_loop this e (subscriptionIds (st w)) w 0). }
  intros Hall.
  rewrite count_loop_spec by (done || lia).
  change (0 + Z.of_nat (length (eligible this e w (subscriptionIds (st w)))))
    with total.
  simpl.
  destruct (decide (total ≤ offset)) as [Hpast|Hin].
  { rewrite (bool_decide_eq_true_2 (total ≤ offset)) by done. simpl.
    rewrite bool_decide_eq_false_2 by lia.
    by rewrite page_nil_past_end by lia. }
  rewrite (bool_decide_eq_false_2 (total ≤ offset)) by done. simpl.
  destruct (decide (limit = 0)) as [->|Hpos].
  { rewrite bool_decide_eq_true_2 by done.
    by rewrite bool_decide_eq_false_2 by lia. }
  rewrite (bool_decide_eq_false_2 (limit = 0)) by done.
  unfold checked_add. case_bool_decide as Hfit; simpl.
  2: { by rewrite bool_decide_eq_true_2 by lia. }
  rewrite (bool_decide_eq_false_2
             (offset < total ∧ limit ≠ 0 ∧ MAX_UINT256 < offset + limit))
    by lia.
  set (resultSize := (if bool_decide (total < offset + limit) then total
                      else offset + limit) - offset).
  assert ((if bool_decide (total < offset + limit)
           then checked_sub total offset else Ok limit) = Ok resultSize) as ->.
  { subst resultSize. unfold checked_sub. case_bool_decide.
    - by rewrite bool_decide_eq_true_2 by lia.
    - f_equal. lia. }
  simpl.
  assert (0 ≤ resultSize ≤ MAX_UINT256 ∧ offset + resultSize ≤ total)
    as [Hrs0 Hrs1].
  { subst resultSize. case_bool_decide; lia. }
  pose proof (collect_loop_spec e w offset resultSize (proj1 Ho) Hrs0
                (subscriptionIds (st w)) [] 0 0
                (replicate (Z.to_nat resultSize) 0%N) Hall) as Hloop.
  simpl in Hloop. rewrite drop_nil, take_nil in Hloop.
  rewrite Hloop; try done.
  - simpl. fold pending.
    by rewrite (page_take offset resultSize limit total) by (done || lia).
  - by rewrite length_replicate.
  - fold pending. rewrite length_drop. subst total. lia.
Qed.

End PendingCharges.
(** ** Sequences of operations *)

(** What a function without the guard does, seen from one subscription:
    nothing, or what one of [cancelSubscription], [pauseSubscription] and
    [resumeSubscription] writes for its caller. *)
Lemma Free_sub (e : Env) (s s' : State) (i : bytes32) :
  Free e s s' →
  let a := sub_at s i in
  let b := sub_at s' i in
  b = a
  ∨ Subscription.subscriber a ≠ 0%N
    ∧ (is_party e s a
       ∧ (Subscription.status a = Active ∨ Subscription.status a = Paused)
       ∧ (b = Subscription.set_currentPeriodEnd (block_timestamp e)
                (Subscription.set_status Canceled a)
          ∨ b = Subscription.set_cancelAtPeriodEnd true a)
       ∨ is_party e s a
         ∧ Subscription.status a = Active
         ∧ b = Subscription.set_pausedAt (block_timestamp e)
                 (Subscription.set_status Paused a)
       ∨ msg_sender e = Subscription.subscriber a
         ∧ Subscription.status a = Paused
         ∧ Subscription.pausedAt a ≤ block_timestamp e
         ∧ b = Subscription.set_cancelAtPeriodEnd false
                 (Subscription.set_pausedAt 0
                    (Subscription.set_currentPeriodEnd
                       (Subscription.currentPeriodEnd a
                        + (block_timestamp e - Subscription.pausedAt a))
                       (Subscription.set_status Active a)))).
Proof.
  intros Hfree. free_cases Hfree; simpl; try by left.
  - destruct (decide (subscriptionId = i)) as [->|Hne].
    + right. rewrite sub_at_write_sub_eq. split; [done|]. left.
      split; [done|]. split; [done|]. destruct immediately; auto.
    + left. by rewrite sub_at_write_sub_ne.
  - destruct (decide (subscriptionId = i)) as [->|Hne].
    + right. rewrite sub_at_write_sub_eq. split; [done|]. right. left. done.
    + left. by rewrite sub_at_write_sub_ne.
  - destruct (decide (subscriptionId = i)) as [->|Hne].
    + right. rewrite sub_at_write_sub_eq. split; [done|]. right. right. done.
    + left. by rewrite sub_at_write_sub_ne.
Qed.

Section Sequences.
Context {L : Type} `{Ledger L}.
Variable this : address.
Variable keccak256_id : bytes32 → address → Z → Z → bytes32.

Lemma is_party_guard (e : Env) (s : State) (sub : Subscription.t) :
  is_party e s sub →
  bool_decide (msg_sender e = Subscription.subscriber sub)
  || bool_decide (msg_sender e
                  = Plan.merchant (plan_at s (Subscription.planId sub))) = true.
Proof.
  intros [Hs|Hm]; apply orb_true_iff; [left|right]; by apply bool_decide_eq_true.
Qed.

(** A property of the storage that every effect of a block before [t] keeps
    is kept by every history whose blocks are before [t]. *)
Lemma run_preserves_before (t : Z) (P : State → Prop) :
  (∀ (e : Env) (s s' : State),
     block_timestamp e < t → Free e s s' → P s → P s') →
  (∀ (e : Env) (s0 s1 s' : State),
     block_timestamp e < t →
     frame (block_timestamp e) s0 s1 → Finish keccak256_id e s0 s1 s' →
     P s0 → P s1 → P s') →
  ∀ (xs : list Step) (w : World L),
    before t xs → P (st w) → P (st (run this keccak256_id xs w)).
Proof.
  intros Hfree Hfin. induction xs as [|x xs IH]; intros w Hall HP; [done|].
  apply Forall_cons in Hall as [Hx Hall].
  rewrite run_cons. apply IH; [done|].
  destruct x as [e c|f]; unfold step; [|done].
  destruct (credit _ _ _ _) as [l1|]; [|done].
  destruct (exec _ _ _ _ _ _) as [w'|m] eqn:Hexec; [|done].
  apply exec_Effects in Hexec as [Hrtc _].
  eapply (EffectBy_preserves keccak256_id P); [| |done..].
  - intros e' s s' Heq. apply Hfree. by rewrite Heq.
  - intros e' s0 s1 s' Heq. rewrite <- Heq. apply Hfin. by rewrite Heq.
Qed.

(** X14.  Pausing an Active subscription at time t1 and resuming it at
    t2 ≥ t1 leaves it Active with its period end moved by t2 − t1, so that
    the time left in the period is what it was when the pause began; the
    pause time is reset and a deferred cancellation that was pending is
    dropped.  Nothing else of the subscription, no other subscription and no
    balance changes. *)
Theorem pause_resume_round_trip (e1 e2 : Env) (subscriptionId : bytes32)
    (w : World L) :
  let a := sub_at (st w) subscriptionId in
  let away := block_timestamp e2 - block_timestamp e1 in
  msg_value e1 = 0 → msg_value e2 = 0 →
  Subscription.subscriber a ≠ 0%N →
  is_party e1 (st w) a →
  msg_sender e2 = Subscription.subscriber a →
  Subscription.status a = Active →
  block_timestamp e1 ≤ block_timestamp e2 →
  Subscription.currentPeriodEnd a + away ≤ MAX_UINT256 →
  ∃ w1 w2,
    pauseSubscription e1 subscriptionId w = Ok (tt, w1)
    ∧ resumeSubscription e2 subscriptionId w1 = Ok (tt, w2)
    ∧ sub_at (st w2) subscriptionId
      = Subscription.set_cancelAtPeriodEnd false
          (Subscription.set_pausedAt 0
             (Subscription.set_currentPeriodEnd
                (Subscription.currentPeriodEnd a + away) a))
    ∧ (∀ j, j ≠ subscriptionId → sub_at (st w2) j = sub_at (st w) j)
    ∧ ledger w2 = ledger w.
Proof.
  intros a away Hv1 Hv2 Hex Hparty Hsub Hact Ht Hend.
  unfold pauseSubscription, non_payable, _requireSubscriptionExists,
    _onlySubscriberOrMerchant.
  fold a. rewrite Hv1, (is_party_guard _ _ _ Hparty), Hact. simpl.
  rewrite !bool_decide_eq_true_2 by done. simpl.
  eexists. eexists. split; [reflexivity|].
  unfold resumeSubscription, non_payable, _requireSubscriptionExists.
  rewrite Hv2. cbn [st emit with_st]. rewrite sub_at_write_sub_eq. simpl.
  rewrite !bool_decide_eq_true_2 by done. simpl.
  unfold checked_sub. rewrite bool_decide_eq_true_2 by done. simpl.
  fold away. rewrite checked_add_fits by done. simpl.
  split; [reflexivity|]. split; [|split; [|done]].
  - unfold sub_at at 1. simpl. rewrite lookup_insert_eq. simpl.
    destruct a. simpl in *. by rewrite Hact.
  - intros j Hne. unfold sub_at at 1. simpl.
    by rewrite !lookup_insert_ne.
Qed.

Hypothesis keccak256_id_inj : nonce_injective keccak256_id.

(** X15.  A period that has been paid for is not charged again: along any
    history whose blocks all come before the current period end of a stored
    subscription of a reachable world, no Payment Record is added to the
    subscription, and its payment count and its period start stay as they
    are.  After a renewal nothing more is taken, whoever calls and whatever
    is called, until the period just paid for has ended.  The hash is taken
    to give distinct nonces distinct identifiers. *)
Theorem charged_period_is_not_charged_again (w : World L) (xs : list Step)
    (subscriptionId : bytes32) :
  let a := sub_at (st w) subscriptionId in
  let b := sub_at (st (run this keccak256_id xs w)) subscriptionId in
  Reachable this keccak256_id w →
  Subscription.subscriber a ≠ 0%N →
  before (Subscription.currentPeriodEnd a) xs →
  history_at (st (run this keccak256_id xs w)) subscriptionId
  = history_at (st w) subscriptionId
  ∧ Subscription.paymentCount b = Subscription.paymentCount a
  ∧ Subscription.currentPeriodStart b = Subscription.currentPeriodStart a.
Proof.
  intros a b Hreach Hex Hbefore.
  pose proof (Reachable_storage_ok this keccak256_id keccak256_id_inj w Hreach)
    as Hok.
  set (t := Subscription.currentPeriodEnd a) in *.
  set (P := λ s : State,
         storage_ok keccak256_id s
         ∧ is_Some (subscriptions s !! subscriptionId)
         ∧ history_at s subscriptionId = history_at (st w) subscriptionId
         ∧ Subscription.paymentCount (sub_at s subscriptionId)
           = Subscription.paymentCount a
         ∧ Subscription.currentPeriodStart (sub_at s subscriptionId)
           = Subscription.currentPeriodStart a
         ∧ (Subscription.status (sub_at s subscriptionId) = Canceled
            ∨ t ≤ Subscription.currentPeriodEnd (sub_at s subscriptionId))).
  assert (P (st (run this keccak256_id xs w))) as (_ & _ & ? & ? & ? & _);
    [|done].
  apply (run_preserves_before t P); [| |done|].
  - intros e s s' Hnow Hfree (Hok1 & Hstored & Hh & Hcount & Hstart & Hend).
    split; [by eapply Free_storage_ok|].
    pose proof (Free_frame _ _ _ Hfree) as Hframe.
    split; [by apply (frame_stored _ _ _ subscriptionId Hframe)|].
    split; [by rewrite (frame_history _ _ _ subscriptionId Hframe)|].
    destruct (Free_sub e s s' subscriptionId Hfree)
      as [->|(_ & [(_ & _ & [-> | ->])|[(_ & Hst & ->)|(_ & Hst & ? & ->)]])];
      simpl; split_and!; try done; try by left.
    + destruct Hend as [Hc|Hle]; [congruence|by right].
    + destruct Hend as [Hc|Hle]; [congruence|right; lia].
  - intros e s0 s1 s' Hnow Hframe Hfin (Hok0 & _ & _ & _ & _ & Hend0)
      (Hok1 & Hstored & Hh & Hcount & Hstart & Hend).
    split; [by eapply Finish_storage_ok|].
    destruct Hok1 as (Hids & _).
    destruct (Finish_sub keccak256_id e s0 s1 s' subscriptionId
                keccak256_id_inj Hframe Hids Hfin Hstored)
      as [(? & -> & ->)|(_ & (_ & Hnc & _ & Hdue) & _)]; [done|].
    destruct Hend0 as [Hc|Hle]; [done|lia].
  - split; [done|]. split; [by apply stored_of_subscriber|].
    split_and!; try done. right. reflexivity.
Qed.

Section Charges.
Variable reenter : Env → Call → World L → Result (World L).

(** X16.  A subscription to a plan in the native currency is never renewed:
    when it is due, charge takes no money and writes no Payment Record; the
    subscription becomes Canceled if a deferred cancellation was pending and
    Expired otherwise. *)
Theorem native_subscription_lapses (e : Env) (subscriptionId : bytes32)
    (w : World L) :
  let a := sub_at (st w) subscriptionId in
  let plan := plan_at (st w) (Subscription.planId a) in
  _status w = _NOT_ENTERED →
  msg_value e = 0 →
  Subscription.subscriber a ≠ 0%N →
  Plan.token plan = 0%N →
  Plan.active plan = true →
  Subscription.status a ≠ Canceled →
  Subscription.status a ≠ Paused →
  Subscription.currentPeriodEnd a ≤ block_timestamp e →
  ∃ w',
    charge this reenter e subscriptionId w = Ok (false, w')
    ∧ sub_at (st w') subscriptionId
      = Subscription.set_status
          (if Subscription.cancelAtPeriodEnd a then Canceled else Expired) a
    ∧ history_at (st w') subscriptionId = history_at (st w) subscriptionId
    ∧ ledger w' = ledger w.
Proof.
  intros a plan Hs Hv Hex Hnative Hact Hnc Hnp Hdue.
  unfold charge, non_payable. rewrite Hv. simpl.
  rewrite nonReentrant_open by done.
  unfold _requireSubscriptionExists, _canCharge. cbn [st with_status].
  fold a. fold plan. rewrite Hact, Hnative. simpl.
  rewrite (bool_decide_eq_true_2 (Subscription.subscriber a ≠ 0%N)) by done.
  simpl.
  rewrite (bool_decide_eq_false_2 (Subscription.status a = Canceled)) by done.
  rewrite (bool_decide_eq_false_2 (Subscription.status a = Paused)) by done.
  rewrite (bool_decide_eq_false_2
             (block_timestamp e < Subscription.currentPeriodEnd a)) by lia.
  simpl.
  unfold _chargeSubscription, _executePaymentFrom. cbn [st with_status].
  fold a. fold plan. rewrite Hnative.
  destruct (Subscription.cancelAtPeriodEnd a); simpl;
    (eexists; split; [reflexivity|]; simpl; split; [|done]);
    by rewrite sub_at_write_sub_eq.
Qed.

(** X17.  A deferred cancellation takes effect at the next eligible charge.
    cancelSubscription without the immediate flag, called by the subscriber
    or the merchant on an Active or Paused subscription, sets the
    cancel-at-period-end flag and changes nothing else of the subscription;
    and a charge that finds an existing subscription eligible with that flag
    set returns false, makes it Canceled, and moves no money, writes no
    Payment Record and leaves the period as it was. *)
Theorem deferred_cancel_ends_at_next_charge (e : Env)
    (subscriptionId : bytes32) (w : World L) :
  let a := sub_at (st w) subscriptionId in
  msg_value e = 0 →
  Subscription.subscriber a ≠ 0%N →
  (is_party e (st w) a →
   Subscription.status a = Active ∨ Subscription.status a = Paused →
   ∃ w1,
     cancelSubscription e subscriptionId false w = Ok (tt, w1)
     ∧ sub_at (st w1) subscriptionId = Subscription.set_cancelAtPeriodEnd true a)
  ∧ (_status w = _NOT_ENTERED →
     Subscription.cancelAtPeriodEnd a = true →
     _canCharge this e subscriptionId w = Ok (true, Success) →
     ∃ w2,
       charge this reenter e subscriptionId w = Ok (false, w2)
       ∧ sub_at (st w2) subscriptionId = Subscription.set_status Canceled a
       ∧ history_at (st w2) subscriptionId = history_at (st w) subscriptionId
       ∧ ledger w2 = ledger w).
Proof.
  intros a Hv Hex. split.
  - intros Hparty Hact.
    unfold cancelSubscription, non_payable, _requireSubscriptionExists,
      _onlySubscriberOrMerchant.
    fold a. rewrite Hv, (is_party_guard _ _ _ Hparty). simpl.
    rewrite (bool_decide_eq_true_2 (Subscription.subscriber a ≠ 0%N)) by done.
    simpl.
    assert (bool_decide (Subscription.status a = Active)
            || bool_decide (Subscription.status a = Paused) = true) as ->.
    { apply orb_true_iff.
      destruct Hact; [left|right]; by apply bool_decide_eq_true. }
    simpl. eexists. split; [reflexivity|]. simpl.
    by rewrite sub_at_write_sub_eq.
  - intros Hs Hflag Hcan.
    unfold charge, non_payable. rewrite Hv. simpl.
    rewrite nonReentrant_open by done.
    unfold _requireSubscriptionExists. cbn [st with_status]. fold a.
    rewrite (bool_decide_eq_true_2 (Subscription.subscriber a ≠ 0%N)) by done.
    simpl.
    change (_canCharge this e subscriptionId (with_status _ENTERED w))
      with (_canCharge this e subscriptionId w).
    rewrite Hcan. simpl.
    unfold _chargeSubscription. cbn [st with_status]. fold a. rewrite Hflag.
    simpl. eexists. split; [reflexivity|]. simpl.
    split; [by rewrite sub_at_write_sub_eq|done].
Qed.

(** X28.  A renewal whose token keeps to the interface and calls nobody
    is booked as the specification says: when an existing subscription is
    found eligible, no deferred cancellation is pending, and the token
    answers the pull with true, charge returns true, the new period starts
    where the old one ended and lasts one interval, the payment count goes
    up by one, one Payment Record with the plan amount, the block time and
    the new period is appended, and the ledger is the one the token left. *)
Theorem renewal_without_callbacks (e : Env) (subscriptionId : bytes32)
    (w : World L) (l1 : L) :
  let a := sub_at (st w) subscriptionId in
  let plan := plan_at (st w) (Subscription.planId a) in
  let oldEnd := Subscription.currentPeriodEnd a in
  let newEnd := oldEnd + Plan.interval plan in
  _status w = _NOT_ENTERED →
  msg_value e = 0 →
  Subscription.subscriber a ≠ 0%N →
  _canCharge this e subscriptionId w = Ok (true, Success) →
  Subscription.cancelAtPeriodEnd a = false →
  Plan.token plan ≠ 0%N →
  transferFrom (ledger w) (Plan.token plan) this (Subscription.subscriber a)
    (Plan.merchant plan) (Plan.amount plan) = Returned true l1 [] →
  newEnd ≤ MAX_UINT256 →
  Subscription.paymentCount a + 1 ≤ MAX_UINT256 →
  ∃ w',
    charge this reenter e subscriptionId w = Ok (true, w')
    ∧ sub_at (st w') subscriptionId
      = Subscription.set_paymentCount (Subscription.paymentCount a + 1)
          (Subscription.set_currentPeriodEnd newEnd
             (Subscription.set_currentPeriodStart oldEnd a))
    ∧ history_at (st w') subscriptionId
      = history_at (st w) subscriptionId
        ++ [PaymentRecord.mk (Plan.amount plan) (block_timestamp e) oldEnd
              newEnd]
    ∧ ledger w' = l1.
Proof.
  intros a plan oldEnd newEnd Hs Hv Hex Hcan Hflag Htoken Hpull Hend Hcount.
  unfold charge, non_payable. rewrite Hv. simpl.
  rewrite nonReentrant_open by done.
  unfold _requireSubscriptionExists. cbn [st with_status]. fold a.
  rewrite (bool_decide_eq_true_2 (Subscription.subscriber a ≠ 0%N)) by done.
  simpl.
  change (_canCharge this e subscriptionId (with_status _ENTERED w))
    with (_canCharge this e subscriptionId w).
  rewrite Hcan. simpl.
  unfold _chargeSubscription, _executePaymentFrom.
  cbn [st with_status ledger]. fold a. fold plan. rewrite Hflag.
  rewrite (bool_decide_eq_false_2 (Plan.token plan = 0%N)) by done.
  rewrite Hpull. simpl. fold a. fold plan. fold oldEnd. fold newEnd.
  rewrite !checked_add_fits by done. simpl.
  eexists. split; [reflexivity|]. simpl.
  change (sub_at (push_history ?j ?r ?s) subscriptionId)
    with (sub_at s subscriptionId).
  split; [by rewrite sub_at_write_sub_eq|].
  split; [|done]. by rewrite history_at_push_eq.
Qed.

(** X29.  What the pull of a renewal can end in.  For an existing
    subscription found eligible on a plan in a token, with no deferred
    cancellation pending: when the token reverts the pull, charge returns
    false and makes the subscription Expired, and changes neither the
    ledger nor the Payment Records nor anything else of the subscription;
    when the token's answer does not decode as a bool, as that of a token
    returning no data, or there is no code at the token's address, charge
    reverts. *)
Theorem renewal_pull_outcomes (e : Env) (subscriptionId : bytes32)
    (w : World L) :
  let a := sub_at (st w) subscriptionId in
  let plan := plan_at (st w) (Subscription.planId a) in
  let reply :=
    transferFrom (ledger w) (Plan.token plan) this (Subscription.subscriber a)
      (Plan.merchant plan) (Plan.amount plan) in
  _status w = _NOT_ENTERED →
  msg_value e = 0 →
  Subscription.subscriber a ≠ 0%N →
  _canCharge this e subscriptionId w = Ok (true, Success) →
  Subscription.cancelAtPeriodEnd a = false →
  Plan.token plan ≠ 0%N →
  (reply = Reverted →
   ∃ w',
     charge this reenter e subscriptionId w = Ok (false, w')
     ∧ sub_at (st w') subscriptionId = Subscription.set_status Expired a
     ∧ history_at (st w') subscriptionId = history_at (st w) subscriptionId
     ∧ ledger w' = ledger w)
  ∧ (reply = Undecodable →
     charge this reenter e subscriptionId w
     = Revert "token reply not decodable").
Proof.
  intros a plan reply Hs Hv Hex Hcan Hflag Htoken.
  unfold charge, non_payable. rewrite Hv. simpl.
  rewrite nonReentrant_open by done.
  unfold _requireSubscriptionExists. cbn [st with_status]. fold a.
  rewrite (bool_decide_eq_true_2 (Subscription.subscriber a ≠ 0%N)) by done.
  simpl.
  change (_canCharge this e subscriptionId (with_status _ENTERED w))
    with (_canCharge this e subscriptionId w).
  rewrite Hcan. simpl.
  unfold _chargeSubscription, _executePaymentFrom.
  cbn [st with_status ledger]. fold a. fold plan. rewrite Hflag.
  rewrite (bool_decide_eq_false_2 (Plan.token plan = 0%N)) by done.
  fold reply. split; intros ->; simpl; [|done].
  eexists. split; [reflexivity|]. simpl.
  split; [by rewrite sub_at_write_sub_eq|done].
Qed.

End Charges.

(** X18.  In a reachable world, adding a token that was not supported and
    then removing it gives back the list of supported tokens and the answer
    of isTokenSupported for every token. *)
Theorem add_remove_token_round_trip (e1 e2 : Env) (token : address)
    (w : World L) :
  Reachable this keccak256_id w →
  msg_value e1 = 0 → msg_value e2 = 0 →
  msg_sender e1 = _owner (st w) → msg_sender e2 = _owner (st w) →
  token ≠ 0%N →
  isTokenSupported token w = false →
  ∃ w1 w2,
    addSupportedToken e1 token w = Ok (tt, w1)
    ∧ removeSupportedToken e2 token w1 = Ok (tt, w2)
    ∧ getSupportedTokens w2 = getSupportedTokens w
    ∧ ∀ t, isTokenSupported t w2 = isTokenSupported t w.
Proof.
  unfold isTokenSupported, getSupportedTokens.
  intros Hreach Hv1 Hv2 Ho1 Ho2 Hne Hnot.
  destruct (Reachable_registry_ok this keccak256_id w Hreach) as (_ & Hiff & _).
  unfold addSupportedToken, non_payable, _onlyOwner.
  rewrite Hv1, Hnot, Ho1. simpl.
  rewrite !bool_decide_eq_true_2 by done. simpl.
  eexists. eexists. split; [reflexivity|].
  unfold removeSupportedToken, non_payable, _onlyOwner, token_supported.
  rewrite Hv2, Ho2. simpl. rewrite lookup_insert_eq. simpl.
  rewrite !bool_decide_eq_true_2 by done. simpl.
  split; [reflexivity|]. simpl. split.
  - unfold swap_remove. rewrite last_snoc, length_app. simpl.
    assert (list_find (λ x, x = token) (supportedTokens (st w) ++ [token])
            = Some (length (supportedTokens (st w)), token)) as ->.
    { apply list_find_Some. split; [|split; [done|]].
      - by rewrite lookup_app_r, Nat.sub_diag by lia.
      - intros j y Hj Hlt. rewrite lookup_app_l in Hj by done.
        intros ->. apply list_elem_of_lookup_2, Hiff in Hj. congruence. }
    rewrite insert_app_r_alt, Nat.sub_diag by lia. simpl.
    replace (length (supportedTokens (st w)) + 1 - 1)%nat
      with (length (supportedTokens (st w))) by lia.
    by rewrite take_app_length.
  - intros t. destruct (decide (t = token)) as [->|Hnet].
    + rewrite lookup_insert_eq. simpl. unfold token_supported in Hnot.
      by rewrite Hnot.
    + by rewrite !lookup_insert_ne.
Qed.

End Sequences.
(** ** Who can change what *)

Lemma quiet_weaken {L : Type} (Q Q' : address → Prop) (does : list (Act L)) :
  (∀ a, Q a → Q' a) → quiet Q does → quiet Q' does.
Proof.
  intros Hsub Hq. eapply Forall_impl; [exact Hq|]. intros [s v c|f]; auto.
Qed.

Section Access.
Context {L : Type} `{Ledger L}.
Variable this : address.
Variable keccak256_id : bytes32 → address → Z → Z → bytes32.

(** A property that the functions without the guard keep when an account of
    [Q] calls them, and that the functions under the guard keep when they
    finish, is kept by every effect of an account of [Q]. *)
Lemma Effect_preserves_by (P : State → Prop) (Q : address → Prop) (e : Env) :
  (∀ (e' : Env) (s s' : State),
     block_timestamp e' = block_timestamp e → Q (msg_sender e') →
     Free e' s s' → P s → P s') →
  (∀ s0 s1 s' : State,
     frame (block_timestamp e) s0 s1 → Finish keccak256_id e s0 s1 s' →
     P s0 → P s1 → P s') →
  ∀ s s' : State,
    Effect keccak256_id Q e s s' →
    (∀ s1, Free e s s1 → P s1) → P s → P s'.
Proof.
  intros Hfree Hfin s s' Heff Htop HP. destruct Heff as [s' Hf|s1 s' Hrtc Hf].
  - by apply Htop.
  - eapply Hfin; [by eapply FreeBy_frame|done..|].
    clear Hf Htop. induction Hrtc as [|s s2 s1 (e' & HQ & Hnow & Hf) _ IH]; [done|].
    apply IH. by eapply (Hfree e').
Qed.

Lemma EffectBy_preserves_by (P : State → Prop) (Q : address → Prop) (now : Z) :
  (∀ (e : Env) (s s' : State),
     block_timestamp e = now → Q (msg_sender e) → Free e s s' → P s → P s') →
  (∀ (e : Env) (s0 s1 s' : State),
     block_timestamp e = now → Q (msg_sender e) →
     frame now s0 s1 → Finish keccak256_id e s0 s1 s' → P s0 → P s1 → P s') →
  ∀ s s' : State, rtc (EffectBy keccak256_id Q now) s s' → P s → P s'.
Proof.
  intros Hfree Hfin s s' Hrtc.
  induction Hrtc as [|s s1 s' (e & HQ & <- & Heff) _ IH]; [done|].
  intros HP. apply IH.
  eapply (Effect_preserves_by P Q e); [| |done| |done].
  - intros e' s0 s0' Heq. by apply Hfree.
  - intros s0 s2 s0'. by apply Hfin.
  - intros s2 Hf. by eapply (Hfree e).
Qed.

(** [batchCharge] does not look at who calls it. *)
Lemma batchCharge_any_sender
    (reenter : Env → Call → World L → Result (World L))
    (sender sender' : address) (value now : Z) (ids : list N) (w : World L) :
  batchCharge this reenter (mkEnv sender value now) ids w
  = batchCharge this reenter (mkEnv sender' value now) ids w.
Proof.
  unfold batchCharge. f_equal.
  assert (∀ w0 : World L,
            batch_loop this reenter (mkEnv sender value now) ids w0
            = batch_loop this reenter (mkEnv sender' value now) ids w0) as Heq.
  { induction ids as [|i ids IH]; intros w0; [done|]. simpl.
    change (charge_item this reenter (mkEnv sender value now) i w0)
      with (charge_item this reenter (mkEnv sender' value now) i w0).
    destruct (charge_item _ _ _ _ _) as [[r w1]|m]; [|done]. simpl.
    by rewrite IH. }
  unfold nonReentrant. destruct (_nonReentrantBefore w) as [w1|m]; [|done].
  simpl. by rewrite Heq.
Qed.

Section Callers.
Variable Q : address → Prop.
Hypothesis Hcallers : callers Q.

Lemma exec_emergencyWithdraw (depth : nat) (e : Env) (token to : address)
    (amount : Z) (w w' : World L) :
  _status w = _NOT_ENTERED →
  exec this keccak256_id depth e (CallEmergencyWithdraw token to amount) w
  = Ok w' →
  _owner (st w) = msg_sender e
  ∧ rtc (EffectBy keccak256_id Q (block_timestamp e)) (st w) (st w').
Proof.
  intros Hs Hok. rewrite exec_unfold in Hok. simpl in Hok.
  unfold forget in Hok. inv_ok.
  match goal with
  | Hw : emergencyWithdraw _ _ _ _ _ _ _ = Ok (?u, _) |- _ => destruct u
  end.
  split.
  { match goal with
    | Hw : emergencyWithdraw _ _ _ _ _ _ _ = Ok _ |- _ =>
        unfold emergencyWithdraw, _onlyOwner in Hw; by inv_ok
    end. }
  eapply (emergencyWithdraw_trace this Q Hcallers
            (reentry this keccak256_id depth) _NOT_ENTERED
            (EffectBy keccak256_id Q)); [|done..].
  intros e1 c1 w1 w1' Hs1 HQ1 Hcall. destruct depth as [|depth]; [done|].
  by eapply (exec_open this keccak256_id Q Hcallers depth).
Qed.

Lemma exec_batchCharge (depth : nat) (sender : address) (e : Env)
    (ids : list N) (w w' : World L) :
  exec this keccak256_id depth e (CallBatchCharge ids) w = Ok w' →
  rtc (Effect keccak256_id Q (mkEnv sender (msg_value e) (block_timestamp e)))
    (st w) (st w').
Proof.
  intros Hok. rewrite exec_unfold in Hok. simpl in Hok.
  unfold forget in Hok. inv_ok. destruct e as [sender0 value now].
  match goal with
  | Hb : batchCharge _ _ _ _ _ = Ok _ |- _ =>
      rewrite (batchCharge_any_sender _ sender0 sender) in Hb;
      apply (batchCharge_Effects this keccak256_id Q Hcallers) in Hb as [Hrtc _]
  end; [done|].
  intros e1 c1 w1 w1' Hs1 HQ1 Hcall.
  by eapply (reentry_closed this keccak256_id Q Hcallers depth).
Qed.

End Callers.


(** X11.  Administration is the owner's.  When the owner does not call the
    engine from inside the calls that the engine makes to tokens and
    recipients, a successful transaction whose sender is not the owner
    leaves the owner, the pause switch and the token registry as they are,
    and is not an emergencyWithdraw. *)
Theorem administration_is_owner_only (depth : nat) (e : Env) (c : Call)
    (w w' : World L) :
  callers (λ a, a ≠ _owner (st w)) →
  _status w = _NOT_ENTERED →
  msg_sender e ≠ _owner (st w) →
  exec this keccak256_id depth e c w = Ok w' →
  _owner (st w') = _owner (st w)
  ∧ _paused (st w') = _paused (st w)
  ∧ supportedTokens (st w') = supportedTokens (st w)
  ∧ tokenSupported (st w') = tokenSupported (st w)
  ∧ ∀ (token to : address) (amount : Z),
      c ≠ CallEmergencyWithdraw token to amount.
Proof.
  intros Hcallers Hs Hnot Hok.
  assert (_owner (st w') = _owner (st w)
          ∧ _paused (st w') = _paused (st w)
          ∧ supportedTokens (st w') = supportedTokens (st w)
          ∧ tokenSupported (st w') = tokenSupported (st w))
    as (Ho & Hp & Hl & Hm).
  { pose proof (exec_open this keccak256_id _ Hcallers depth e c w w' Hs Hnot Hok)
      as [Hrtc _].
    apply (EffectBy_preserves_by
             (λ s, _owner s = _owner (st w)
                   ∧ _paused s = _paused (st w)
                   ∧ supportedTokens s = supportedTokens (st w)
                   ∧ tokenSupported s = tokenSupported (st w))
             _ _) with (s := st w) (s' := st w') in Hrtc; [done| | |done].
    - intros e' s s' _ HQ Hfree (Ho & Hp & Hl & Hm).
      free_cases Hfree; try done; simpl in *; congruence.
    - intros e' s0 s1 s' _ _ _ Hfin _ (Ho & Hp & Hl & Hm).
      finish_cases Hfin; done. }
  repeat split; try done.
  intros token to amount ->.
  apply (exec_emergencyWithdraw _ Hcallers) in Hok as [Hown _]; [|done].
  congruence.
Qed.

(** X12.  A plan is switched on or off by its merchant or by the owner
    only.  When neither of them calls the engine from inside the calls that
    the engine makes to tokens and recipients, a successful transaction
    whose sender is neither leaves the active flag of an existing plan as it
    is. *)
Theorem plan_switch_is_merchant_or_owner_only (depth : nat) (e : Env)
    (c : Call) (w w' : World L) (planId : bytes32) :
  callers (λ a, a ≠ Plan.merchant (plan_at (st w) planId)
                ∧ a ≠ _owner (st w)) →
  _status w = _NOT_ENTERED →
  Plan.merchant (plan_at (st w) planId) ≠ 0%N →
  msg_sender e ≠ Plan.merchant (plan_at (st w) planId) →
  msg_sender e ≠ _owner (st w) →
  exec this keccak256_id depth e c w = Ok w' →
  Plan.active (plan_at (st w') planId) = Plan.active (plan_at (st w) planId).
Proof.
  intros Hcallers Hs Hex Hmerchant Howner Hok.
  pose proof (exec_open this keccak256_id _ Hcallers depth e c w w' Hs
                (conj Hmerchant Howner) Hok) as [Hrtc _].
  assert (_owner (st w') = _owner (st w)
          ∧ Plan.merchant (plan_at (st w') planId)
            = Plan.merchant (plan_at (st w) planId)
          ∧ Plan.active (plan_at (st w') planId)
            = Plan.active (plan_at (st w) planId)) as (_ & _ & Hgoal); [|done].
  apply (EffectBy_preserves_by
           (λ s, _owner s = _owner (st w)
                 ∧ Plan.merchant (plan_at s planId)
                   = Plan.merchant (plan_at (st w) planId)
                 ∧ Plan.active (plan_at s planId)
                   = Plan.active (plan_at (st w) planId))
           _ _) with (s := st w) (s' := st w') in Hrtc; [done| | |done].
  - intros e' s s' _ [HQm HQo] Hfree (Ho & Hm & Ha).
    assert (∀ (q : bytes32) (p : Plan.t) (s2 : State),
              plans s2 = <[q := p]> (plans s) →
              (q = planId →
               Plan.merchant p = Plan.merchant (plan_at s planId)
               ∧ Plan.active p = Plan.active (plan_at s planId)) →
              Plan.merchant (plan_at s2 planId)
              = Plan.merchant (plan_at (st w) planId)
              ∧ Plan.active (plan_at s2 planId)
                = Plan.active (plan_at (st w) planId)) as Hwrite.
    { intros q p s2 Hs2 Hp. rewrite <- Hm, <- Ha. unfold plan_at at 1 3.
      rewrite Hs2. destruct (decide (q = planId)) as [->|Hne].
      - rewrite lookup_insert_eq. by apply Hp.
      - by rewrite lookup_insert_ne. }
    free_cases Hfree; try done; simpl in *; try congruence.
    + split; [done|]. eapply Hwrite; [reflexivity|]. intros ->. congruence.
    + split; [done|]. eapply Hwrite; [reflexivity|]. intros ->.
      match goal with Hp : _ ∨ _ |- _ => destruct Hp; congruence end.
  - intros e' s0 s1 s' _ _ _ Hfin _ (Ho & Hm & Ha).
    split; [by finish_cases Hfin|].
    pose proof (Finish_plan keccak256_id e' s0 s1 s' planId Hfin) as Heq.
    pose proof (f_equal Plan.merchant Heq) as Hmm.
    pose proof (f_equal Plan.active Heq) as Haa. simpl in *.
    split; congruence.
Qed.

(** X19.  While the engine is paused no plan, no subscription and no
    one-time payment is created.  When the owner does not call the engine
    from inside the calls that the engine makes to tokens and recipients, a
    successful transaction, whoever sends it, leaves the list of plans, the
    list of subscriptions and the payments as they are. *)
Theorem paused_engine_takes_no_new_business (depth : nat) (e : Env) (c : Call)
    (w w' : World L) :
  callers (λ a, a ≠ _owner (st w)) →
  _status w = _NOT_ENTERED →
  _paused (st w) = true →
  exec this keccak256_id depth e c w = Ok w' →
  planIds (st w') = planIds (st w)
  ∧ subscriptionIds (st w') = subscriptionIds (st w)
  ∧ payments (st w') = payments (st w).
Proof.
  intros Hcallers Hs Hpaused Hok.
  set (P := λ s : State,
         _owner s = _owner (st w) ∧ _paused s = true
         ∧ planIds s = planIds (st w)
         ∧ subscriptionIds s = subscriptionIds (st w)
         ∧ payments s = payments (st w)).
  assert (Hfree : ∀ (e' : Env) (s s' : State),
            msg_sender e' ≠ _owner (st w) → Free e' s s' → P s → P s').
  { intros e' s s' HQ Hf (Ho & Hp & Hl1 & Hl2 & Hl3).
    unfold P. free_cases Hf; try done; simpl in *; congruence. }
  assert (Hfin : ∀ (e' : Env) (s0 s1 s' : State),
            Finish keccak256_id e' s0 s1 s' → P s0 → P s1 → P s').
  { intros e' s0 s1 s' Hf (_ & Hp0 & _) (Ho & Hp & Hl1 & Hl2 & Hl3).
    unfold P. destruct Hf; try done; congruence. }
  assert (Htop : ∀ (e' : Env) (s' : State),
            Free e' (st w) s' →
            planIds s' = planIds (st w)
            ∧ subscriptionIds s' = subscriptionIds (st w)
            ∧ payments s' = payments (st w)).
  { intros e' s' Hf. free_cases Hf; try done; congruence. }
  assert (HP : P (st w)) by done.
  assert (Heffect : ∀ (e' : Env) (s s' : State),
            Effect keccak256_id (λ a, a ≠ _owner (st w)) e' s s' →
            (∀ s1, Free e' s s1 → P s1) → P s → P s').
  { intros e' s s' Heff Hown.
    intros HPs.
    eapply (Effect_preserves_by P _ e'); [| |exact Heff|done..].
    - intros e1 s1 s2 _. apply Hfree.
    - intros s0 s1 s2 _. apply Hfin. }
  assert ((∃ ids, c = CallBatchCharge ids)
          ∨ (∃ token to amount, c = CallEmergencyWithdraw token to amount)
          ∨ (∀ ids, c ≠ CallBatchCharge ids)
            ∧ (∀ token to amount, c ≠ CallEmergencyWithdraw token to amount))
    as [[ids ->]|[(token & to & amount & ->)|[Hnb Hne]]].
  { destruct c; eauto 8. }
  - apply (exec_batchCharge _ Hcallers depth (_owner (st w) + 1)%N) in Hok.
    assert (P (st w')) as (_ & _ & ?); [|done].
    assert (∀ s s' : State,
              rtc (Effect keccak256_id (λ a, a ≠ _owner (st w))
                     (mkEnv (_owner (st w) + 1)%N (msg_value e)
                        (block_timestamp e))) s s' →
              P s → P s') as Hall; [|by eapply Hall].
    intros s s' Hrtc.
    induction Hrtc as [|s s1 s' Heff _ IH]; [done|].
    intros HPs. apply IH. eapply Heffect; [done| |done].
    intros s2 Hf. eapply Hfree; [|done..]. simpl. lia.
  - apply (exec_emergencyWithdraw _ Hcallers) in Hok as [_ Hrtc]; [|done].
    assert (P (st w')) as (_ & _ & ?); [|done].
    apply (EffectBy_preserves_by P _ _) with (s := st w) (s' := st w') in Hrtc;
      [done| | |done].
    + intros e' s s' _. apply Hfree.
    + intros e' s0 s1 s' _ _ _. apply Hfin.
  - apply (exec_Effect this keccak256_id _ Hcallers) in Hok; [|done..].
    destruct Hok as [s' Hf|s1 s' Hrtc Hf]; [by eapply Htop|].
    assert (P s') as (_ & _ & ?); [|done].
    eapply Hfin; [done..|].
    assert (∀ s s' : State,
              rtc (FreeBy (λ a, a ≠ _owner (st w)) (block_timestamp e)) s s' →
              P s → P s') as Hall; [|by eapply Hall].
    clear Hrtc. intros s s2 Hrtc.
    induction Hrtc as [|s s3 s2 (e' & HQ & _ & Hf') _ IH]; [done|].
    intros HPs. apply IH. by eapply Hfree.
Qed.

Hypothesis keccak256_id_inj : nonce_injective keccak256_id.

(** X13.  Someone who is neither the subscriber nor the merchant of the plan
    can change a subscription only by charging it when it is due.  When
    neither the subscriber nor the merchant calls the engine from inside the
    calls that the engine makes to tokens and recipients, then after a
    successful transaction of such a sender the subscription has the same
    identity, pause time and deferred-cancellation flag, its status is the
    same or Canceled or Expired, and if anything changed the period of the
    subscription had ended and it was neither Canceled nor Paused.  The hash
    is taken to give distinct nonces distinct identifiers. *)
Theorem outsider_can_only_charge (depth : nat) (e : Env) (c : Call)
    (w w' : World L) (subscriptionId : bytes32) :
  let a := sub_at (st w) subscriptionId in
  let m := Plan.merchant (plan_at (st w) (Subscription.planId a)) in
  callers (λ x, x ≠ Subscription.subscriber a ∧ x ≠ m) →
  Reachable this keccak256_id w →
  Subscription.subscriber a ≠ 0%N →
  ¬ is_party e (st w) a →
  exec this keccak256_id depth e c w = Ok w' →
  charged_only e a (sub_at (st w') subscriptionId).
Proof.
  intros a m Hcallers Hreach Hex Hnot Hok.
  pose proof (Reachable_storage_ok this keccak256_id keccak256_id_inj w Hreach)
    as Hstorage.
  pose proof (Reachable_status this keccak256_id w Hreach) as Hs.
  assert (m ≠ 0%N) as Hm.
  { destruct Hstorage as (_ & _ & _ & Hplans).
    apply Hplans. by apply stored_of_subscriber. }
  assert (msg_sender e ≠ Subscription.subscriber a ∧ msg_sender e ≠ m) as HQ.
  { unfold is_party in Hnot. split; intros Heq; apply Hnot; auto. }
  pose proof (exec_open this keccak256_id _ Hcallers depth e c w w' Hs HQ Hok)
    as [Hrtc _].
  set (P := λ s : State,
         storage_ok keccak256_id s
         ∧ is_Some (subscriptions s !! subscriptionId)
         ∧ Plan.merchant (plan_at s (Subscription.planId a)) = m
         ∧ charged_only e a (sub_at s subscriptionId)).
  assert (P (st w')) as (_ & _ & _ & Hgoal); [|done].
  apply (EffectBy_preserves_by P _ _) with (s := st w) (s' := st w') in Hrtc;
    [done| | |].
  - intros e' s s' Hnow [HQs HQm] Hfree (Hok1 & Hstored & Hm1 & Hco).
    split; [by eapply Free_storage_ok|].
    pose proof (Free_frame _ _ _ Hfree) as Hframe.
    split; [by apply (frame_stored _ _ _ subscriptionId Hframe)|].
    split.
    { rewrite <- Hm1.
      assert (Plan.merchant (plan_at s (Subscription.planId a)) ≠ 0%N) as Hmm
        by (by rewrite Hm1).
      by destruct (frame_plan _ _ _ _ Hframe Hmm) as (-> & _). }
    pose proof Hco as (Hid & _). injection Hid as _ Hplan Hsub _.
    destruct (Free_sub e' s s' subscriptionId Hfree)
      as [->|(_ & [([Hp|Hp] & _)|[([Hp|Hp] & _)|(Hp & _)]])];
      [done|exfalso..]; rewrite ?Hplan, ?Hm1, ?Hsub in Hp; done.
  - intros e' s0 s1 s' Hnow _ Hframe Hfin (Hok0 & _ & _ & Hco0)
      (Hok1 & Hstored & Hm1 & Hco).
    rewrite <- Hnow in Hframe. unfold P.
    split; [by eapply Finish_storage_ok|].
    destruct Hok1 as (Hids & Hrest).
    assert (Plan.merchant (plan_at s' (Subscription.planId a)) = m) as Hm2.
    { pose proof (Finish_plan keccak256_id e' s0 s1 s' (Subscription.planId a)
                    Hfin) as Heq.
      pose proof (f_equal Plan.merchant Heq) as Hmm. simpl in Hmm. congruence. }
    destruct (Finish_sub keccak256_id e' s0 s1 s' subscriptionId
                keccak256_id_inj Hframe Hids Hfin Hstored)
      as [(? & _ & ->)|(_ & (_ & Hnc & Hnp & Hdue) & ? & Hcases)]; [done|].
    split; [done|]. split; [done|].
    assert (Subscription.currentPeriodEnd a ≤ block_timestamp e
            ∧ Subscription.status a ≠ Canceled
            ∧ Subscription.status a ≠ Paused) as Hwas.
    { destruct Hco0 as (_ & _ & _ & _ & [Heq|Hc]); [|done].
      rewrite Heq in *. rewrite Hnow in Hdue. split; [|done]. lia. }
    destruct Hco as (Hid & Hpaused & Hflag & Hstatus & _).
    unfold charged_only, closed.
    destruct Hcases as [(_ & _ & _ & ->)|[(_ & _ & ->)|(_ & _ & ->)]]; simpl;
      split_and!; try done; auto.
  - split; [done|]. split; [by apply stored_of_subscriber|].
    split; [done|]. unfold charged_only. split_and!; try done; by left.
Qed.

End Access.
(** ** Where the money goes

    The flows of value on the plain ledger [Bank]: balances are plain
    arithmetic, every token keeps to the interface, and neither a token nor
    a recipient calls the engine back. *)

Lemma balance_move (l : Bank.t) (token from to : address) (amount : Z)
    (holder : address) :
  Bank.balance (Bank.move l token from to amount) token holder
  = Bank.balance l token holder
    + (if decide (holder = to) then amount else 0)
    - (if decide (holder = from) then amount else 0).
Proof.
  unfold Bank.balance, Bank.move. simpl.
  destruct (decide (holder = to)) as [->|Hto].
  - rewrite lookup_insert_eq. simpl.
    destruct (decide (to = from)) as [->|Hfrom].
    + rewrite lookup_insert_eq. simpl. unfold Bank.balance. lia.
    + rewrite lookup_insert_ne by congruence. lia.
  - rewrite lookup_insert_ne by congruence.
    destruct (decide (holder = from)) as [->|Hfrom].
    + rewrite lookup_insert_eq. simpl. unfold Bank.balance. lia.
    + rewrite lookup_insert_ne by congruence. lia.
Qed.

Lemma balance_move_other (l : Bank.t) (token token' from to : address)
    (amount : Z) (holder : address) :
  token' ≠ token →
  Bank.balance (Bank.move l token from to amount) token' holder
  = Bank.balance l token' holder.
Proof.
  intros Hne. unfold Bank.balance, Bank.move. simpl.
  by rewrite !lookup_insert_ne by congruence.
Qed.

(** On the plain ledger nobody calls back. *)
Lemma Bank_callers (Q : address → Prop) : callers (L := Bank.t) Q.
Proof.
  split_and!.
  - intros l l' token spender from to amount success does. simpl.
    unfold Bank.transferFrom. repeat case_match; try done.
    intros [= <- <- <-]. apply Forall_nil. done.
  - intros l l' token from to amount success does. simpl.
    unfold Bank.transfer. repeat case_match; try done.
    intros [= <- <- <-]. apply Forall_nil. done.
  - intros l l' from to amount does. simpl. unfold Bank.send_value.
    destruct (Bank.credit _ _ _ _); [|done]. intros [= <- <-].
    apply Forall_nil. done.
Qed.

Section Flows.
Variable this : address.
Variable keccak256_id : bytes32 → address → Z → Z → bytes32.

(** The caller-funded transfer, once [msg.value] has reached the engine:
    [amount] goes to [to], the rest of [msg.value] goes back, and the engine
    is left with what it had before the call. *)
Lemma push_native_settles
    (reenter : Env → Call → World Bank.t → Result (World Bank.t)) (e : Env)
    (w : World Bank.t) (to back : address) (amount : Z) (m1 m2 m3 : string) :
  let l := ledger w in
  0 ≤ amount ≤ msg_value e →
  msg_value e ≤ Bank.balance l 0%N this →
  to ≠ this → back ≠ this →
  ∃ l',
    push_native this reenter e to back amount m1 m2 m3 w
    = Ok (with_ledger l' w)
    ∧ Bank.allowances l' = Bank.allowances l
    ∧ (∀ token holder, token ≠ 0%N →
         Bank.balance l' token holder = Bank.balance l token holder)
    ∧ ∀ holder,
        Bank.balance l' 0%N holder
        = Bank.balance l 0%N holder
          + (if decide (holder = to) then amount else 0)
          + (if decide (holder = back) then msg_value e - amount else 0)
          - (if decide (holder = this) then msg_value e else 0).
Proof.
  intros l Hamount Hfunds Hto Hback. unfold push_native, send_or_revert.
  rewrite bool_decide_eq_true_2 by lia. simpl.
  unfold Bank.send_value, Bank.credit. fold l.
  rewrite bool_decide_eq_true_2 by lia. simpl.
  destruct (decide (amount < msg_value e)) as [Hlt|Hge].
  - rewrite (bool_decide_eq_true_2 (amount < msg_value e)) by done.
    rewrite bool_decide_eq_true_2.
    2: { rewrite balance_move. repeat destruct (decide _); try done; lia. }
    simpl. eexists. split; [reflexivity|]. split; [done|]. split.
    + intros token holder Hne. by rewrite !balance_move_other.
    + intros holder. rewrite !balance_move.
      repeat destruct (decide _); subst; try done; lia.
  - rewrite (bool_decide_eq_false_2 (amount < msg_value e)) by done.
    eexists. split; [reflexivity|]. split; [done|]. split.
    + intros token holder Hne. by rewrite !balance_move_other.
    + intros holder. rewrite !balance_move.
      repeat destruct (decide _); subst; try done; lia.
Qed.

(** X23.  A one-time payment in the native currency settles exactly on the
    plain ledger, where nobody calls the engine back: when the transaction
    goes through, the merchant has the amount more, the sender the amount
    less whatever value was sent with the call, and every other balance, the
    engine's included, is what it was; the order is recorded as paid. *)
Theorem pay_native_settles_exactly (e : Env) (orderId : bytes32) (amount : Z)
    (merchant : address) (w : World Bank.t) :
  let w' := step this keccak256_id w (Tx e (CallPay orderId amount 0%N merchant)) in
  _status w = _NOT_ENTERED →
  _paused (st w) = false →
  Payment.payer (payment_at (st w) orderId) = 0%N →
  token_supported (st w) 0%N = true →
  merchant ≠ 0%N → merchant ≠ this → msg_sender e ≠ this →
  0 < amount ≤ msg_value e →
  msg_value e ≤ MAX_UINT256 →
  msg_value e ≤ Bank.balance (ledger w) 0%N (msg_sender e) →
  0 ≤ Bank.balance (ledger w) 0%N this →
  Payment.paid (payment_at (st w') orderId) = true
  ∧ ∀ holder,
      Bank.balance (ledger w') 0%N holder
      = Bank.balance (ledger w) 0%N holder
        + (if decide (holder = merchant) then amount else 0)
        - (if decide (holder = msg_sender e) then amount else 0).
Proof.
  intros w' Hs Hrun Hnew Hnative Hm Hmt Hst Hamount Hmax Hfunds Hengine.
  set (l1 := Bank.move (ledger w) 0%N (msg_sender e) this (msg_value e)).
  destruct (push_native_settles (reentry this keccak256_id CALL_DEPTH) e
              (with_status _ENTERED (with_ledger l1 w)) merchant (msg_sender e)
              amount "Insufficient payment" "Transfer failed" "Refund failed")
    as (l' & Hpush & _ & _ & Hbal); try done; try lia.
  { simpl. unfold l1. rewrite balance_move.
    repeat destruct (decide _); try done; lia. }
  assert (w'
          = emit (PaymentReceived orderId (msg_sender e) merchant amount 0%N)
              (with_ledger l'
                 (with_st
                    (set_payments
                       (<[orderId :=
                            Payment.mk orderId (msg_sender e) merchant amount
                              0%N (block_timestamp e) true]>
                          (payments (st w))) (st w))
                    (with_ledger l1 w)))) as ->.
  { subst w'. unfold step. simpl. unfold Bank.credit.
    rewrite bool_decide_eq_true_2 by done. fold l1.
    rewrite exec_unfold. simpl.
    unfold forget, pay, abi_uint, whenNotPaused. simpl.
    rewrite Hrun. simpl.
    rewrite ?bool_decide_eq_true_2 by (done || lia). simpl.
    rewrite nonReentrant_open by done. simpl.
    rewrite Hnew, Hnative. simpl.
    rewrite ?bool_decide_eq_true_2 by (done || lia). simpl.
    rewrite Hpush. simpl.
    destruct w as [s l lg g]. simpl in *. by subst g. }
  split.
  - unfold payment_at. simpl. by rewrite lookup_insert_eq.
  - intros holder. cbn [ledger emit with_ledger with_st]. rewrite Hbal.
    simpl. unfold l1. rewrite balance_move.
    repeat destruct (decide _); subst; try done; lia.
Qed.

(** X24.  Subscribing to a plan in the native currency settles exactly on
    the plain ledger, where nobody calls the engine back: when the
    transaction goes through, the merchant has the plan amount more, the
    subscriber the plan amount less whatever value was sent with the call,
    every other balance, the engine's included, is what it was, and the new
    subscription is Active with the sender as subscriber. *)
Theorem subscribe_native_settles_exactly (e : Env) (planId : bytes32)
    (w : World Bank.t) :
  let plan := plan_at (st w) planId in
  let subscriptionId :=
    keccak256_id planId (msg_sender e) (block_timestamp e)
      (_subscriptionNonce (st w) + 1) in
  let w' := step this keccak256_id w (Tx e (CallSubscribe planId)) in
  _status w = _NOT_ENTERED →
  _paused (st w) = false →
  Plan.merchant plan ≠ 0%N → Plan.active plan = true → Plan.token plan = 0%N →
  Plan.merchant plan ≠ this → msg_sender e ≠ this →
  0 ≤ Plan.amount plan ≤ msg_value e →
  msg_value e ≤ MAX_UINT256 →
  msg_value e ≤ Bank.balance (ledger w) 0%N (msg_sender e) →
  0 ≤ Bank.balance (ledger w) 0%N this →
  _subscriptionNonce (st w) + 1 ≤ MAX_UINT256 →
  block_timestamp e + Plan.interval plan ≤ MAX_UINT256 →
  Plan.subscriberCount plan + 1 ≤ MAX_UINT256 →
  sub_at (st w') subscriptionId
  = Subscription.mk subscriptionId planId (msg_sender e) Active
      (block_timestamp e) (block_timestamp e)
      (block_timestamp e + Plan.interval plan) false 0 1
  ∧ ∀ holder,
      Bank.balance (ledger w') 0%N holder
      = Bank.balance (ledger w) 0%N holder
        + (if decide (holder = Plan.merchant plan) then Plan.amount plan else 0)
        - (if decide (holder = msg_sender e) then Plan.amount plan else 0).
Proof.
  intros plan subscriptionId w' Hs Hrun Hex Hact Hnative Hmt Hst Hamount Hmax
    Hfunds Hengine Hnonce Hend Hcount.
  set (l1 := Bank.move (ledger w) 0%N (msg_sender e) this (msg_value e)).
  set (w0 := with_st (set_subscriptionNonce (_subscriptionNonce (st w) + 1)
                        (st w))
               (with_status _ENTERED (with_ledger l1 w))).
  destruct (push_native_settles (reentry this keccak256_id CALL_DEPTH) e w0
              (Plan.merchant plan) (msg_sender e) (Plan.amount plan)
              "Insufficient payment" "Transfer failed" "Refund failed")
    as (l' & Hpush & _ & _ & Hbal); try done.
  { simpl. unfold l1. rewrite balance_move.
    repeat destruct (decide _); try done; lia. }
  assert (_executePayment this (reentry this keccak256_id CALL_DEPTH) e planId
            (msg_sender e) w0 = Ok (with_ledger l' w0)) as Hpay.
  { rewrite <- Hpush. unfold _executePayment, push_native, send_or_revert.
    change (plan_at (st w0) planId) with plan. rewrite Hnative. simpl.
    destruct (bool_decide (Plan.amount plan ≤ msg_value e)); [|done]. simpl.
    unfold Bank.send_value.
    destruct (Bank.credit _ _ _ _) as [l2|]; [|done]. reflexivity. }
  assert (∃ s' lg,
            w' = mkWorld s' l' lg _NOT_ENTERED
            ∧ sub_at s' subscriptionId
              = Subscription.mk subscriptionId planId (msg_sender e) Active
                  (block_timestamp e) (block_timestamp e)
                  (block_timestamp e + Plan.interval plan) false 0 1)
    as (s' & lg & -> & Hsub).
  { subst w'. unfold step. simpl. unfold Bank.credit.
    rewrite bool_decide_eq_true_2 by done. fold l1.
    rewrite exec_unfold. simpl.
    unfold forget, subscribe, abi_uint, whenNotPaused. simpl.
    rewrite Hrun. simpl.
    rewrite ?bool_decide_eq_true_2 by (done || lia). simpl.
    rewrite nonReentrant_open by done.
    unfold _requirePlanExists, _subscribe. cbn [st with_ledger with_status].
    fold plan. rewrite Hact. simpl.
    rewrite ?bool_decide_eq_true_2 by (done || lia). simpl.
    rewrite ?checked_add_fits by done. simpl.
    fold w0. rewrite Hpay. simpl.
    change (plan_at (set_subscriptionNonce _ (st w)) planId) with plan.
    rewrite ?checked_add_fits by done. simpl.
    eexists. eexists. split; [reflexivity|].
    unfold sub_at. simpl. by rewrite lookup_insert_eq. }
  split; [done|].
  intros holder. cbn [ledger]. rewrite Hbal.
  simpl. unfold l1. rewrite balance_move.
  repeat destruct (decide _); subst; try done; lia.
Qed.

(** X25.  On the plain ledger, where every token keeps to the interface and
    nobody calls the engine back, a due renewal on a token plan whose token
    transfers moves exactly the plan amount: when the plan is active, the
    subscription is neither Canceled nor Paused nor flagged for
    cancellation, and the subscriber's balance and allowance cover the
    amount, charge returns true, the subscriber has the amount less and the
    merchant the amount more in that token, the allowance given to the
    engine is lowered by the amount, and no balance in any other currency
    changes. *)
Theorem charge_moves_the_plan_amount
    (reenter : Env → Call → World Bank.t → Result (World Bank.t)) (e : Env)
    (subscriptionId : bytes32) (w : World Bank.t) :
  let a := sub_at (st w) subscriptionId in
  let plan := plan_at (st w) (Subscription.planId a) in
  let payer := Subscription.subscriber a in
  _status w = _NOT_ENTERED →
  msg_value e = 0 →
  payer ≠ 0%N →
  Plan.active plan = true → Plan.token plan ≠ 0%N →
  Bank.is_halted (ledger w) (Plan.token plan) = false →
  Subscription.status a ≠ Canceled → Subscription.status a ≠ Paused →
  Subscription.cancelAtPeriodEnd a = false →
  Subscription.currentPeriodEnd a ≤ block_timestamp e →
  Plan.amount plan ≤ Bank.balance (ledger w) (Plan.token plan) payer →
  Plan.amount plan ≤ Bank.allowed (ledger w) (Plan.token plan) payer this →
  Subscription.currentPeriodEnd a + Plan.interval plan ≤ MAX_UINT256 →
  Subscription.paymentCount a + 1 ≤ MAX_UINT256 →
  ∃ w',
    charge this reenter e subscriptionId w = Ok (true, w')
    ∧ (∀ holder,
         Bank.balance (ledger w') (Plan.token plan) holder
         = Bank.balance (ledger w) (Plan.token plan) holder
           + (if decide (holder = Plan.merchant plan) then Plan.amount plan
              else 0)
           - (if decide (holder = payer) then Plan.amount plan else 0))
    ∧ (∀ token holder,
         token ≠ Plan.token plan →
         Bank.balance (ledger w') token holder
         = Bank.balance (ledger w) token holder)
    ∧ Bank.allowed (ledger w') (Plan.token plan) payer this
      = Bank.allowed (ledger w) (Plan.token plan) payer this - Plan.amount plan.
Proof.
  intros a plan payer Hs Hv Hex Hact Htoken Hgo Hnc Hnp Hflag Hdue Hbal Hallow
    Hend Hcount.
  unfold charge, non_payable. rewrite Hv. simpl.
  rewrite nonReentrant_open by done.
  unfold _requireSubscriptionExists, _canCharge. cbn [st with_status ledger].
  fold a. fold plan. fold payer. rewrite Hact. simpl.
  rewrite (bool_decide_eq_true_2 (payer ≠ 0%N)) by done. simpl.
  rewrite (bool_decide_eq_false_2 (Subscription.status a = Canceled)) by done.
  rewrite (bool_decide_eq_false_2 (Subscription.status a = Paused)) by done.
  rewrite (bool_decide_eq_false_2
             (block_timestamp e < Subscription.currentPeriodEnd a)) by lia.
  rewrite (bool_decide_eq_false_2 (Plan.token plan = 0%N)) by done.
  simpl.
  rewrite (bool_decide_eq_false_2
             (Bank.balance (ledger w) (Plan.token plan) payer < Plan.amount plan))
    by lia.
  rewrite (bool_decide_eq_false_2
             (Bank.allowed (ledger w) (Plan.token plan) payer this
              < Plan.amount plan)) by lia.
  simpl.
  unfold _chargeSubscription, _executePaymentFrom.
  cbn [st with_status ledger]. fold a. fold plan. fold payer.
  rewrite Hflag. rewrite (bool_decide_eq_false_2 (Plan.token plan = 0%N)) by done.
  simpl. unfold Bank.transferFrom. rewrite Hgo.
  rewrite !bool_decide_eq_true_2 by done. simpl. fold a. fold plan.
  rewrite ?checked_add_fits by done. simpl.
  eexists. split; [reflexivity|]. simpl. split; [|split].
  - intros holder. rewrite balance_move. reflexivity.
  - intros token holder Hne. by rewrite balance_move_other.
  - unfold Bank.allowed, Bank.move, Bank.spend. simpl.
    by rewrite lookup_insert_eq.
Qed.

(** X26.  A refund in the native currency settles exactly on the plain
    ledger, where no recipient runs code that calls the engine back: when
    the merchant's transaction goes through, the recipient (the subscriber
    when no recipient is named) has the amount more, the merchant the amount
    less whatever value was sent with the call, every other balance is what
    it was, and the storage of the engine is untouched. *)
Theorem refund_native_settles_exactly (e : Env) (subscriptionId : bytes32)
    (amount : Z) (to : address) (w : World Bank.t) :
  let a := sub_at (st w) subscriptionId in
  let plan := plan_at (st w) (Subscription.planId a) in
  let recipient := if bool_decide (to = 0%N) then Subscription.subscriber a else to in
  let w' := step this keccak256_id w (Tx e (CallRefund subscriptionId amount to)) in
  _status w = _NOT_ENTERED →
  Subscription.subscriber a ≠ 0%N →
  msg_sender e = Plan.merchant plan →
  Plan.token plan = 0%N →
  recipient ≠ this → msg_sender e ≠ this →
  0 < amount ≤ msg_value e →
  msg_value e ≤ MAX_UINT256 →
  msg_value e ≤ Bank.balance (ledger w) 0%N (msg_sender e) →
  0 ≤ Bank.balance (ledger w) 0%N this →
  st w' = st w
  ∧ ∀ holder,
      Bank.balance (ledger w') 0%N holder
      = Bank.balance (ledger w) 0%N holder
        + (if decide (holder = recipient) then amount else 0)
        - (if decide (holder = msg_sender e) then amount else 0).
Proof.
  intros a plan recipient w' Hs Hex Hmerchant Hnative Hrt Hst Hamount Hmax Hfunds
    Hengine.
  set (l1 := Bank.move (ledger w) 0%N (msg_sender e) this (msg_value e)).
  destruct (push_native_settles (reentry this keccak256_id CALL_DEPTH) e
              (with_status _ENTERED (with_ledger l1 w)) recipient (msg_sender e)
              amount "Insufficient refund amount" "Refund failed"
              "Return excess failed")
    as (l' & Hpush & _ & _ & Hbal); try done; try lia.
  { simpl. unfold l1. rewrite balance_move.
    repeat destruct (decide _); try done; lia. }
  assert (w' = emit (Refunded subscriptionId recipient amount)
                 (with_ledger l' (with_ledger l1 w))) as ->.
  { subst w'. unfold step. simpl. unfold Bank.credit.
    rewrite bool_decide_eq_true_2 by done. fold l1.
    rewrite exec_unfold. simpl.
    unfold forget, refund, abi_uint. simpl.
    rewrite ?bool_decide_eq_true_2 by (done || lia). simpl.
    rewrite nonReentrant_open by done.
    unfold _requireSubscriptionExists.
    cbn [st with_ledger with_status]. fold a. fold plan. fold recipient.
    rewrite Hnative, <- Hmerchant. simpl.
    rewrite ?bool_decide_eq_true_2 by (done || lia). simpl.
    rewrite Hpush. simpl.
    destruct w as [s l lg g]. simpl in *. by subst g. }
  split; [done|].
  intros holder. cbn [ledger emit with_ledger with_st]. rewrite Hbal.
  simpl. unfold l1. rewrite balance_move.
  repeat destruct (decide _); subst; try done; lia.
Qed.

(** X27.  On the plain ledger, where every token keeps to the interface and
    nobody calls the engine back, subscribing to a token plan pulls the plan
    amount in the token and keeps whatever native value came with the call:
    when the transaction goes through, the subscriber has the plan amount
    less and the merchant the plan amount more in the token, the allowance
    given to the engine is lowered by the amount, and the value sent with
    the call has moved from the subscriber to the engine, where it stays. *)
Theorem subscribe_token_keeps_the_value_sent (e : Env) (planId : bytes32)
    (w : World Bank.t) :
  let plan := plan_at (st w) planId in
  let w' := step this keccak256_id w (Tx e (CallSubscribe planId)) in
  _status w = _NOT_ENTERED →
  _paused (st w) = false →
  Plan.merchant plan ≠ 0%N → Plan.active plan = true → Plan.token plan ≠ 0%N →
  Bank.is_halted (ledger w) (Plan.token plan) = false →
  0 ≤ msg_value e ≤ MAX_UINT256 →
  msg_value e ≤ Bank.balance (ledger w) 0%N (msg_sender e) →
  Plan.amount plan ≤ Bank.balance (ledger w) (Plan.token plan) (msg_sender e) →
  Plan.amount plan
  ≤ Bank.allowed (ledger w) (Plan.token plan) (msg_sender e) this →
  _subscriptionNonce (st w) + 1 ≤ MAX_UINT256 →
  block_timestamp e + Plan.interval plan ≤ MAX_UINT256 →
  Plan.subscriberCount plan + 1 ≤ MAX_UINT256 →
  _subscriptionNonce (st w') = _subscriptionNonce (st w) + 1
  ∧ (∀ holder,
       Bank.balance (ledger w') (Plan.token plan) holder
       = Bank.balance (ledger w) (Plan.token plan) holder
         + (if decide (holder = Plan.merchant plan) then Plan.amount plan else 0)
         - (if decide (holder = msg_sender e) then Plan.amount plan else 0))
  ∧ (∀ holder,
       Bank.balance (ledger w') 0%N holder
       = Bank.balance (ledger w) 0%N holder
         + (if decide (holder = this) then msg_value e else 0)
         - (if decide (holder = msg_sender e) then msg_value e else 0))
  ∧ Bank.allowed (ledger w') (Plan.token plan) (msg_sender e) this
    = Bank.allowed (ledger w) (Plan.token plan) (msg_sender e) this
      - Plan.amount plan.
Proof.
  intros plan w' Hs Hrun Hex Hact Htoken Hgo Hvalue Hfunds Hbal Hallow Hnonce
    Hend Hcount.
  set (l1 := Bank.move (ledger w) 0%N (msg_sender e) this (msg_value e)).
  set (l2 := Bank.move
               (Bank.spend l1 (Plan.token plan) (msg_sender e) this
                  (Plan.amount plan))
               (Plan.token plan) (msg_sender e) (Plan.merchant plan)
               (Plan.amount plan)).
  assert (∃ s' lg,
            w' = mkWorld s' l2 lg _NOT_ENTERED
            ∧ _subscriptionNonce s' = _subscriptionNonce (st w) + 1)
    as (s' & lg & -> & Hs').
  { subst w'. unfold step. simpl. unfold Bank.credit.
    rewrite bool_decide_eq_true_2 by done. fold l1.
    rewrite exec_unfold. simpl.
    unfold forget, subscribe, abi_uint, whenNotPaused. simpl.
    rewrite Hrun. simpl.
    rewrite ?bool_decide_eq_true_2 by (done || lia). simpl.
    rewrite nonReentrant_open by done.
    unfold _requirePlanExists, _subscribe, _executePayment, safeTransferFrom.
    cbn [st with_ledger with_status ledger]. fold plan.
    rewrite Hact. simpl.
    rewrite ?bool_decide_eq_true_2 by (done || lia). simpl.
    rewrite ?checked_add_fits by done. simpl.
    change (plan_at (set_subscriptionNonce _ (st w)) planId) with plan.
    rewrite (bool_decide_eq_false_2 (Plan.token plan = 0%N)) by done.
    unfold Bank.transferFrom.
    assert (Bank.is_halted l1 (Plan.token plan) = false) as -> by done.
    rewrite (bool_decide_eq_true_2
               (Plan.amount plan
                ≤ Bank.balance l1 (Plan.token plan) (msg_sender e)))
      by (unfold l1; by rewrite balance_move_other).
    rewrite (bool_decide_eq_true_2
               (Plan.amount plan
                ≤ Bank.allowed l1 (Plan.token plan) (msg_sender e) this))
      by done.
    simpl.
    change (plan_at (set_subscriptionNonce _ (st w)) planId) with plan.
    rewrite ?checked_add_fits by done. simpl.
    eexists. eexists. split; [reflexivity|done]. }
  split; [done|]. cbn [ledger].
  split; [|split].
  - intros holder. unfold l2. rewrite balance_move.
    change (Bank.balance (Bank.spend ?l ?t ?o ?s ?x)) with (Bank.balance l).
    unfold l1. by rewrite balance_move_other.
  - intros holder. unfold l2. rewrite balance_move_other by done.
    change (Bank.balance (Bank.spend ?l ?t ?o ?s ?x)) with (Bank.balance l).
    unfold l1. by rewrite balance_move.
  - unfold l2, l1, Bank.allowed, Bank.move, Bank.spend. simpl.
    by rewrite lookup_insert_eq.
Qed.

End Flows.
(** ** The theorems at work on concrete histories *)

Module Runs.
Import Scenario.

(** A chronological history run from a deployment gives a reachable world. *)
Lemma run_Reachable {L : Type} `{Ledger L} (this : address)
    (h : bytes32 → address → Z → Z → bytes32) (e0 : Env) (l0 : L)
    (xs : list Step) :
  chronological (block_timestamp e0) xs →
  Reachable this h (run this h xs (deploy e0 l0)).
Proof. intros Hchron. by exists e0, l0, xs. Qed.

Lemma go_Reachable (xs : list (Step (L := Bank.t))) :
  chronological (t0 - 100) xs → Reachable ENGINE nonce_id (go xs).
Proof. apply (run_Reachable ENGINE nonce_id (mkEnv OWNER 0 (t0 - 100))). Qed.



Lemma canCharge_unknown_subscription_run :
  canCharge ENGINE due 999%N (go subscribed)
  = Ok (false, reason_uint8 PlanInactive)
  ∧ (_status (go subscribed) = _NOT_ENTERED →
     charge ENGINE below due 999%N (go subscribed)
     = Revert "Subscription not found")
  ∧ (∃ m, charge ENGINE below due 999%N (go subscribed) = Revert m)
  ∧ step ENGINE nonce_id (go subscribed) (Tx due (CallCharge 999%N))
      = go subscribed.
Proof.
  apply (canCharge_unknown_subscription ENGINE below due 999%N (go subscribed)
           nonce_id);
    vm_compute; reflexivity.
Defined.

(** C10, as stated, fails once a plan is stored under the zero identifier:
    for an identifier with no subscription, [canCharge] answers
    (true, Success). *)
Lemma canCharge_unknown_with_plan_zero :
  Reachable ENGINE nonce_id (go plan_zero)
  ∧ subscriptions (st (go plan_zero)) !! 999%N = None
  ∧ subscriptionExists 999%N (go plan_zero) = false
  ∧ canCharge ENGINE due 999%N (go plan_zero) = Ok (true, reason_uint8 Success)
  ∧ canCharge ENGINE due 999%N (go plan_zero)
      ≠ Ok (false, reason_uint8 PlanInactive).
Proof.
  split; [apply go_Reachable; vm_compute; repeat split; congruence|].
  vm_compute. repeat split; congruence.
Qed.

Lemma charge_canceled_run :
  charge ENGINE below due 1%N (go canceled)
  = Ok (false, emit (PaymentFailed 1%N (reason_uint8 ReasonCanceled)) (go canceled)).
Proof.
  refine (charge_canceled ENGINE below due 1%N (go canceled) _ _ _ _);
    vm_compute; congruence.
Defined.

(** C4, as stated, fails when the plan is inactive: the subscription is
    Canceled, [charge] returns false, but the reason carried by the failure
    notification is PlanInactive. *)
Lemma charge_canceled_reports_plan_inactive :
  Reachable ENGINE nonce_id (go canceled_plan_off)
  ∧ Subscription.status (sub_at (st (go canceled_plan_off)) 1%N) = Canceled
  ∧ charge ENGINE below due 1%N (go canceled_plan_off)
    = Ok (false,
          emit (PaymentFailed 1%N (reason_uint8 PlanInactive))
            (go canceled_plan_off))
  ∧ charge ENGINE below due 1%N (go canceled_plan_off)
    ≠ Ok (false,
          emit (PaymentFailed 1%N (reason_uint8 ReasonCanceled))
            (go canceled_plan_off)).
Proof.
  split; [apply go_Reachable; vm_compute; repeat split; congruence|].
  vm_compute. repeat split; congruence.
Qed.

Lemma period_end_follows_start_run :
  Subscription.currentPeriodStart (sub_at (st (go expired)) 1%N)
    ≤ Subscription.currentPeriodEnd (sub_at (st (go expired)) 1%N)
  ∧ (Subscription.status (sub_at (st (go expired)) 1%N) ≠ Canceled →
     Subscription.currentPeriodStart (sub_at (st (go expired)) 1%N)
     < Subscription.currentPeriodEnd (sub_at (st (go expired)) 1%N)).
Proof.
  apply (period_end_follows_start ENGINE nonce_id).
  - apply go_Reachable. vm_compute. repeat split; congruence.
  - vm_compute. congruence.
Defined.

(** C5, as stated, fails: a subscription canceled immediately in the block
    in which it was created is left with currentPeriodEnd equal to
    currentPeriodStart. *)
Lemma period_empty_after_immediate_cancel :
  Reachable ENGINE nonce_id (go canceled_same_block)
  ∧ Subscription.subscriber (sub_at (st (go canceled_same_block)) 1%N) ≠ 0%N
  ∧ Subscription.currentPeriodEnd (sub_at (st (go canceled_same_block)) 1%N)
    = Subscription.currentPeriodStart (sub_at (st (go canceled_same_block)) 1%N)
  ∧ ¬ periods_strict (st (go canceled_same_block)).
Proof.
  split; [|split; [|split]].
  - apply go_Reachable. vm_compute. repeat split; congruence.
  - vm_compute. congruence.
  - vm_compute. reflexivity.
  - intros Hstrict.
    assert (Hlt := Hstrict 1%N ltac:(vm_compute; congruence)).
    vm_compute in Hlt. discriminate Hlt.
Qed.

Lemma subscribeWithTrial_takes_no_charge_run :
  ∃ w',
    subscribeWithTrial ENGINE nonce_id below (at_ USER t0) 11%N 14 (go setup)
      = Ok (1%N, w')
    ∧ sub_at (st w') 1%N
      = Subscription.mk 1%N 11%N USER Active t0 t0 (t0 + 14 * DAY) false 0 0
    ∧ ledger w' = ledger (go setup)
    ∧ subscriptionPayments (st w') = subscriptionPayments (st (go setup))
    ∧ log w' = log (go setup) ++ [SubscriptionCreated 1%N 11%N USER t0].
Proof.
  refine (subscribeWithTrial_takes_no_charge ENGINE nonce_id below (at_ USER t0)
            11%N 14 (go setup) _ _ _ _ _ _ _ _ _ _);
    vm_compute; try split; congruence.
Defined.

(** C3, as stated, fails for trialDays = 0: the call goes through on the
    token plan, the period ends one plan interval from now (not now), the
    payment count is 1, one Payment Record is written and the plan amount
    has left the payer's balance. *)
Lemma subscribeWithTrial_zero_days_charges :
  Reachable ENGINE nonce_id (go setup)
  ∧ is_ok (subscribeWithTrial ENGINE nonce_id below (at_ USER t0) 11%N 0
             (go setup))
    = true
  ∧ Subscription.status (sub_at (st trial_zero) 1%N) = Active
  ∧ Subscription.currentPeriodEnd (sub_at (st trial_zero) 1%N) = t0 + MONTH
  ∧ Subscription.currentPeriodEnd (sub_at (st trial_zero) 1%N) ≠ t0 + 0 * DAY
  ∧ Subscription.paymentCount (sub_at (st trial_zero) 1%N) = 1
  ∧ history_at (st trial_zero) 1%N
    = [PaymentRecord.mk 1000 t0 t0 (t0 + MONTH)]
  ∧ Bank.balance (ledger trial_zero) TOKEN USER
    = Bank.balance (ledger (go setup)) TOKEN USER - 1000
  ∧ Bank.balance (ledger trial_zero) TOKEN MERCHANT
    = Bank.balance (ledger (go setup)) TOKEN MERCHANT + 1000.
Proof.
  split; [apply go_Reachable; vm_compute; repeat split; congruence|].
  vm_compute. repeat split; congruence.
Qed.


(** C1 fails on the code: a subscription that a failed pull left Expired is
    charged again by the next [charge] once the payer's token transfers:
    value moves, a Payment Record is appended, the payment count grows, the
    period advances, and the status stays Expired. *)
Lemma expired_subscription_is_charged :
  Reachable ENGINE nonce_id (go expired)
  ∧ Subscription.status (sub_at (st (go expired)) 1%N) = Expired
  ∧ Subscription.paymentCount (sub_at (st (go expired)) 1%N) = 1
  ∧ charge ENGINE below late 1%N (go expired) = Ok (true, expired_charged)
  ∧ Subscription.status (sub_at (st expired_charged) 1%N) = Expired
  ∧ Subscription.paymentCount (sub_at (st expired_charged) 1%N) = 2
  ∧ Subscription.currentPeriodStart (sub_at (st expired_charged) 1%N)
    = t0 + MONTH
  ∧ Subscription.currentPeriodEnd (sub_at (st expired_charged) 1%N)
    = t0 + MONTH + MONTH
  ∧ length (history_at (st expired_charged) 1%N) = 2%nat
  ∧ Bank.balance (ledger expired_charged) TOKEN USER
    = Bank.balance (ledger (go expired)) TOKEN USER - 1000
  ∧ Bank.balance (ledger expired_charged) TOKEN MERCHANT
    = Bank.balance (ledger (go expired)) TOKEN MERCHANT + 1000.
Proof.
  split; [apply go_Reachable; vm_compute; repeat split; congruence|].
  vm_compute. repeat split; congruence.
Qed.

Lemma incident_Reachable (xs : list (Step (L := Quirks.t))) :
  chronological (t0 - 100) xs → Reachable ENGINE nonce_id (Incidents.go xs).
Proof. apply (run_Reachable ENGINE nonce_id (mkEnv OWNER 0 (t0 - 100))). Qed.

(** C6 fails on the code when the token calls the payer's account while it
    transfers and that account cancels the subscription at once:
    [cancelSubscription] carries no [nonReentrant] and goes through in the
    middle of the charge, and [_chargeSubscription] then reads the period
    end that the cancellation has just set to the block time.  The charge
    found the subscription eligible, with no deferred cancellation pending
    and its period ending at t0 + MONTH; it returns true, and the new period
    starts at the block time, five seconds later, on a subscription that is
    now Canceled. *)
Lemma renewal_reentered_by_cancel :
  Reachable ENGINE nonce_id (Incidents.go Incidents.hooked)
  ∧ _canCharge ENGINE Incidents.overdue 1%N (Incidents.go Incidents.hooked)
    = Ok (true, Success)
  ∧ sub_at (st (Incidents.go Incidents.hooked)) 1%N
    = Subscription.mk 1%N 14%N USER Active t0 t0 (t0 + MONTH) false 0 1
  ∧ (∃ w',
       charge ENGINE (reentry ENGINE nonce_id CALL_DEPTH) Incidents.overdue 1%N
         (Incidents.go Incidents.hooked) = Ok (true, w')
       ∧ st w' = st Incidents.hooked_charged)
  ∧ step ENGINE nonce_id (Incidents.go Incidents.hooked)
      (Tx Incidents.overdue (CallCharge 1%N))
    = Incidents.hooked_charged
  ∧ block_timestamp Incidents.overdue = t0 + MONTH + 5
  ∧ sub_at (st Incidents.hooked_charged) 1%N
    = Subscription.mk 1%N 14%N USER Canceled t0 (t0 + MONTH + 5)
        (t0 + MONTH + 5 + MONTH) false 0 2
  ∧ Subscription.currentPeriodStart (sub_at (st Incidents.hooked_charged) 1%N)
    ≠ Subscription.currentPeriodEnd
        (sub_at (st (Incidents.go Incidents.hooked)) 1%N)
  ∧ history_at (st Incidents.hooked_charged) 1%N
    = [PaymentRecord.mk 1000 t0 t0 (t0 + MONTH);
       PaymentRecord.mk 1000 (t0 + MONTH + 5) (t0 + MONTH + 5)
         (t0 + MONTH + 5 + MONTH)].
Proof.
  split; [apply incident_Reachable; vm_compute; repeat split; congruence|].
  split; [vm_compute; reflexivity|].
  split; [vm_compute; reflexivity|].
  split; [eexists; split; vm_compute; reflexivity|].
  vm_compute. repeat split; congruence.
Qed.

(** The moment the thirty-day trials of [silent_trial] and [two_plans]
    end. *)
Lemma trial_ends_with_the_month : t0 + 30 * DAY = block_timestamp due.
Proof. reflexivity. Qed.

(** C7 fails on the code for a token whose [transferFrom] returns no data:
    the subscription, begun with a trial, is found eligible when the trial
    ends; the pull comes back with an answer that does not decode, which the
    [try]/[catch] of [_executePaymentFrom] does not catch; [charge] reverts
    instead of returning false, and the subscription stays Active instead of
    becoming Expired. *)
Lemma silent_token_reverts_the_charge :
  Reachable ENGINE nonce_id (Incidents.go Incidents.silent_trial)
  ∧ sub_at (st (Incidents.go Incidents.silent_trial)) 1%N
    = Subscription.mk 1%N 15%N USER Active t0 t0 (t0 + MONTH) false 0 0
  ∧ _canCharge ENGINE due 1%N (Incidents.go Incidents.silent_trial)
    = Ok (true, Success)
  ∧ transferFrom (ledger (Incidents.go Incidents.silent_trial)) Incidents.SILENT
      ENGINE USER MERCHANT 1000
    = Undecodable
  ∧ charge ENGINE (reentry ENGINE nonce_id CALL_DEPTH) due 1%N
      (Incidents.go Incidents.silent_trial)
    = Revert "token reply not decodable"
  ∧ step ENGINE nonce_id (Incidents.go Incidents.silent_trial)
      (Tx due (CallCharge 1%N))
    = Incidents.go Incidents.silent_trial
  ∧ Subscription.status
      (sub_at (st (step ENGINE nonce_id (Incidents.go Incidents.silent_trial)
                     (Tx due (CallCharge 1%N)))) 1%N)
    ≠ Expired.
Proof.
  split; [apply incident_Reachable; vm_compute; repeat split; congruence|].
  vm_compute. repeat split; congruence.
Qed.

(** C9 fails on the code when the token of one item does not answer
    [balanceOf]: subscription [1] is due on the plain token and a batch with
    it alone charges it; subscription [2] is due on a plan whose token has
    no code; the batch of both reverts as a whole, so the first item is not
    charged and no results are returned. *)
Lemma batch_aborted_by_one_token :
  Reachable ENGINE nonce_id (Incidents.go Incidents.two_plans)
  ∧ _canCharge ENGINE due 1%N (Incidents.go Incidents.two_plans)
    = Ok (true, Success)
  ∧ (∃ w',
       batchCharge ENGINE (reentry ENGINE nonce_id CALL_DEPTH) due [1%N]
         (Incidents.go Incidents.two_plans) = Ok ([true], w'))
  ∧ Subscription.subscriber (sub_at (st (Incidents.go Incidents.two_plans)) 2%N)
    = USER
  ∧ balanceOf (ledger (Incidents.go Incidents.two_plans)) Incidents.ABSENT USER
    = None
  ∧ _canCharge ENGINE due 2%N (Incidents.go Incidents.two_plans)
    = Revert "balanceOf reverted"
  ∧ batchCharge ENGINE (reentry ENGINE nonce_id CALL_DEPTH) due [1%N; 2%N]
      (Incidents.go Incidents.two_plans)
    = Revert "balanceOf reverted"
  ∧ step ENGINE nonce_id (Incidents.go Incidents.two_plans)
      (Tx due (CallBatchCharge [1%N; 2%N]))
    = Incidents.go Incidents.two_plans.
Proof.
  split; [apply incident_Reachable; vm_compute; repeat split; congruence|].
  split; [vm_compute; reflexivity|].
  split; [eexists; vm_compute; reflexivity|].
  vm_compute. repeat split; congruence.
Qed.

End Runs.
(** ** The further properties at work on concrete histories *)

Module MoreRuns.
Import Scenario.
Import Cases.

Lemma nonce_id_injective : nonce_injective nonce_id.
Proof. intros p p' u u' t t' n n' Hn Hn'. unfold nonce_id. lia. Qed.

Lemma getSubscriptionsByPlan_page_run :
  getSubscriptionsByPlan 11%N 1 5 (go two_subscriptions) = Ok ([2%N], 2).
Proof.
  refine (eq_trans
            (getSubscriptionsByPlan_page 11%N 1 5 (go two_subscriptions) _ _) _);
    vm_compute; try split; congruence.
Defined.

Lemma getPaymentHistory_page_run :
  getPaymentHistory 1%N 1 5 (go renewed)
  = Ok ([1000], [t0 + MONTH], 2).
Proof.
  refine (eq_trans (getPaymentHistory_page 1%N 1 5 (go renewed) _ _) _);
    vm_compute; try split; congruence.
Defined.

Lemma getPendingCharges_page_run :
  getPendingCharges ENGINE due 0 5 (go two_subscriptions) = Ok ([1%N], 1).
Proof.
  destruct (getPendingCharges_page ENGINE due 0 5 (go two_subscriptions))
    as [Hpage _].
  - vm_compute. split; congruence.
  - vm_compute. split; congruence.
  - vm_compute. congruence.
  - etrans; [apply Hpage|vm_compute; reflexivity].
    unfold answered.
    match goal with |- ?P => apply (bool_decide_unpack P) end.
    vm_compute. exact I.
Defined.

Lemma supported_tokens_registry_run :
  NoDup (getSupportedTokens (go subscribed))
  ∧ (∀ token : address,
       isTokenSupported token (go subscribed) = true
       ↔ token ∈ getSupportedTokens (go subscribed))
  ∧ isTokenSupported 0%N (go subscribed) = true.
Proof.
  apply (supported_tokens_registry ENGINE nonce_id).
  apply Runs.go_Reachable. vm_compute. repeat split; congruence.
Defined.

Lemma plan_index_consistent_run :
  NoDup (planIds (st (go two_subscriptions)))
  ∧ (∀ planId : bytes32,
       planId ∈ planIds (st (go two_subscriptions))
       ↔ planExists planId (go two_subscriptions) = true)
  ∧ (∀ planId : bytes32,
       (getPlan planId (go two_subscriptions)).2
       = Z.of_nat
           (length
              (default []
                 (planSubscriptions (st (go two_subscriptions)) !! planId)))).
Proof.
  apply (plan_index_consistent ENGINE nonce_id).
  apply Runs.go_Reachable. vm_compute. repeat split; congruence.
Defined.

Lemma payment_count_is_history_length_run :
  Subscription.paymentCount (sub_at (st (go renewed)) 1%N)
  = Z.of_nat (length (history_at (st (go renewed)) 1%N)).
Proof.
  apply (payment_count_is_history_length ENGINE nonce_id nonce_id_injective).
  apply Runs.go_Reachable. vm_compute. repeat split; congruence.
Defined.

Lemma subscription_indexes_consistent_run :
  getSubscriptionCount (go two_subscriptions)
  = _subscriptionNonce (st (go two_subscriptions))
  ∧ NoDup (subscriptionIds (st (go two_subscriptions)))
  ∧ (∀ (user : address) (i : bytes32),
       NoDup (getSubscriptionsByUser user (go two_subscriptions))
       ∧ (i ∈ getSubscriptionsByUser user (go two_subscriptions)
          ↔ i ∈ subscriptionIds (st (go two_subscriptions))
            ∧ Subscription.subscriber (sub_at (st (go two_subscriptions)) i)
              = user))
  ∧ (∀ planId i : bytes32,
       NoDup (default []
                (planSubscriptions (st (go two_subscriptions)) !! planId))
       ∧ (i ∈ default []
                (planSubscriptions (st (go two_subscriptions)) !! planId)
          ↔ i ∈ subscriptionIds (st (go two_subscriptions))
            ∧ Subscription.planId (sub_at (st (go two_subscriptions)) i)
              = planId)).
Proof.
  apply (subscription_indexes_consistent ENGINE nonce_id nonce_id_injective).
  apply Runs.go_Reachable. vm_compute. repeat split; congruence.
Defined.

Lemma plan_terms_are_fixed_run :
  plan_terms (plan_at (st (run ENGINE nonce_id aftermath (go canceled))) 11%N)
  = plan_terms (plan_at (st (go canceled)) 11%N).
Proof.
  apply (plan_terms_are_fixed ENGINE nonce_id (go canceled) aftermath 11%N).
  vm_compute. congruence.
Defined.

Lemma closed_status_stays_closed_run :
  closed
    (Subscription.status
       (sub_at (st (run ENGINE nonce_id aftermath (go canceled))) 1%N))
  ∧ (Subscription.status (sub_at (st (go canceled)) 1%N) = Canceled →
     Subscription.status
       (sub_at (st (run ENGINE nonce_id aftermath (go canceled))) 1%N)
     = Canceled).
Proof.
  apply (closed_status_stays_closed ENGINE nonce_id nonce_id_injective).
  - apply Runs.go_Reachable. vm_compute. repeat split; congruence.
  - left. vm_compute. reflexivity.
Defined.

Lemma subscription_identity_is_fixed_run :
  sub_identity (sub_at (st (run ENGINE nonce_id aftermath (go canceled))) 1%N)
  = sub_identity (sub_at (st (go canceled)) 1%N).
Proof.
  apply (subscription_identity_is_fixed ENGINE nonce_id nonce_id_injective).
  - apply Runs.go_Reachable. vm_compute. repeat split; congruence.
  - vm_compute. congruence.
Defined.

Lemma administration_is_owner_only_run :
  _owner (st user_cancels) = _owner (st (go subscribed))
  ∧ _paused (st user_cancels) = _paused (st (go subscribed))
  ∧ supportedTokens (st user_cancels) = supportedTokens (st (go subscribed))
  ∧ tokenSupported (st user_cancels) = tokenSupported (st (go subscribed))
  ∧ ∀ (token to : address) (amount : Z),
      CallCancelSubscription 1%N true ≠ CallEmergencyWithdraw token to amount.
Proof.
  apply (administration_is_owner_only ENGINE nonce_id CALL_DEPTH
           (at_ USER (t0 + 5)) (CallCancelSubscription 1%N true) (go subscribed)
           user_cancels).
  - apply Bank_callers.
  - vm_compute. reflexivity.
  - vm_compute. congruence.
  - vm_compute. reflexivity.
Defined.

Lemma plan_switch_is_merchant_or_owner_only_run :
  Plan.active (plan_at (st user_subscribes_again) 11%N)
  = Plan.active (plan_at (st (go subscribed)) 11%N).
Proof.
  apply (plan_switch_is_merchant_or_owner_only ENGINE nonce_id CALL_DEPTH
           (at_ USER (t0 + 5)) (CallSubscribe 11%N) (go subscribed)
           user_subscribes_again 11%N).
  - apply Bank_callers.
  - vm_compute. reflexivity.
  - vm_compute. congruence.
  - vm_compute. congruence.
  - vm_compute. congruence.
  - vm_compute. reflexivity.
Defined.

Lemma outsider_can_only_charge_run :
  charged_only (at_ STRANGER (t0 + MONTH)) (sub_at (st (go subscribed)) 1%N)
    (sub_at (st stranger_charges) 1%N).
Proof.
  apply (outsider_can_only_charge ENGINE nonce_id nonce_id_injective CALL_DEPTH
           (at_ STRANGER (t0 + MONTH)) (CallBatchCharge [1%N; 1%N])
           (go subscribed) stranger_charges 1%N).
  - apply Bank_callers.
  - apply Runs.go_Reachable. vm_compute. repeat split; congruence.
  - vm_compute. congruence.
  - vm_compute. intros [|]; congruence.
  - vm_compute. reflexivity.
Defined.

Lemma pause_resume_round_trip_run :
  ∃ w1 w2,
    pauseSubscription (at_ MERCHANT (t0 + 10)) 1%N (go subscribed) = Ok (tt, w1)
    ∧ resumeSubscription (at_ USER (t0 + 25)) 1%N w1 = Ok (tt, w2)
    ∧ sub_at (st w2) 1%N
      = Subscription.mk 1%N 11%N USER Active t0 t0 (t0 + MONTH + 15) false 0 1.
Proof.
  destruct (pause_resume_round_trip (at_ MERCHANT (t0 + 10)) (at_ USER (t0 + 25))
              1%N (go subscribed))
    as (w1 & w2 & Hpause & Hresume & Hsub & _).
  - reflexivity.
  - reflexivity.
  - vm_compute. congruence.
  - right. vm_compute. reflexivity.
  - vm_compute. reflexivity.
  - vm_compute. reflexivity.
  - vm_compute. congruence.
  - vm_compute. congruence.
  - exists w1, w2. split; [exact Hpause|]. split; [exact Hresume|].
    rewrite Hsub. vm_compute. reflexivity.
Defined.

Lemma charged_period_is_not_charged_again_run :
  history_at (st (run ENGINE nonce_id early (go renewed))) 1%N
  = history_at (st (go renewed)) 1%N
  ∧ Subscription.paymentCount
      (sub_at (st (run ENGINE nonce_id early (go renewed))) 1%N)
    = Subscription.paymentCount (sub_at (st (go renewed)) 1%N)
  ∧ Subscription.currentPeriodStart
      (sub_at (st (run ENGINE nonce_id early (go renewed))) 1%N)
    = Subscription.currentPeriodStart (sub_at (st (go renewed)) 1%N).
Proof.
  apply (charged_period_is_not_charged_again ENGINE nonce_id nonce_id_injective
           (go renewed) early 1%N).
  - apply Runs.go_Reachable. vm_compute. repeat split; congruence.
  - vm_compute. congruence.
  - unfold before. repeat constructor.
Defined.

Lemma native_subscription_lapses_run :
  ∃ w',
    charge ENGINE below due 1%N (go subscribed_native) = Ok (false, w')
    ∧ Subscription.status (sub_at (st w') 1%N) = Expired
    ∧ history_at (st w') 1%N = history_at (st (go subscribed_native)) 1%N
    ∧ ledger w' = ledger (go subscribed_native).
Proof.
  destruct (native_subscription_lapses ENGINE below due 1%N
              (go subscribed_native))
    as (w' & Hcharge & Hsub & Hhist & Hledger).
  - reflexivity.
  - reflexivity.
  - vm_compute. congruence.
  - vm_compute. reflexivity.
  - vm_compute. reflexivity.
  - vm_compute. congruence.
  - vm_compute. congruence.
  - vm_compute. congruence.
  - exists w'. split; [exact Hcharge|]. split; [|by split].
    rewrite Hsub. vm_compute. reflexivity.
Defined.

Lemma deferred_cancel_ends_at_next_charge_run :
  (∃ w1,
     cancelSubscription (at_ USER (t0 + MONTH)) 1%N false (go subscribed)
     = Ok (tt, w1)
     ∧ Subscription.cancelAtPeriodEnd (sub_at (st w1) 1%N) = true)
  ∧ ∃ w2,
      charge ENGINE below (at_ USER (t0 + MONTH)) 1%N (go flagged)
      = Ok (false, w2)
      ∧ Subscription.status (sub_at (st w2) 1%N) = Canceled
      ∧ history_at (st w2) 1%N = history_at (st (go flagged)) 1%N
      ∧ ledger w2 = ledger (go flagged).
Proof.
  split.
  - destruct (proj1 (deferred_cancel_ends_at_next_charge ENGINE below
                       (at_ USER (t0 + MONTH)) 1%N (go subscribed) eq_refl
                       ltac:(vm_compute; congruence)))
      as (w1 & Hcancel & Hsub).
    + left. vm_compute. reflexivity.
    + left. vm_compute. reflexivity.
    + exists w1. split; [exact Hcancel|]. rewrite Hsub. reflexivity.
  - destruct (proj2 (deferred_cancel_ends_at_next_charge ENGINE below
                       (at_ USER (t0 + MONTH)) 1%N (go flagged) eq_refl
                       ltac:(vm_compute; congruence)))
      as (w2 & Hcharge & Hsub & Hhist & Hledger).
    + vm_compute. reflexivity.
    + vm_compute. reflexivity.
    + vm_compute. reflexivity.
    + exists w2. split; [exact Hcharge|]. split; [|by split].
      rewrite Hsub. reflexivity.
Defined.

Lemma add_remove_token_round_trip_run :
  ∃ w1 w2,
    addSupportedToken (at_ OWNER (t0 + 1)) 8%N (go subscribed) = Ok (tt, w1)
    ∧ removeSupportedToken (at_ OWNER (t0 + 2)) 8%N w1 = Ok (tt, w2)
    ∧ getSupportedTokens w2 = getSupportedTokens (go subscribed)
    ∧ ∀ t, isTokenSupported t w2 = isTokenSupported t (go subscribed).
Proof.
  apply (add_remove_token_round_trip ENGINE nonce_id (at_ OWNER (t0 + 1))
           (at_ OWNER (t0 + 2)) 8%N (go subscribed)).
  - apply Runs.go_Reachable. vm_compute. repeat split; congruence.
  - reflexivity.
  - reflexivity.
  - vm_compute. reflexivity.
  - vm_compute. reflexivity.
  - vm_compute. congruence.
  - vm_compute. reflexivity.
Defined.

Lemma paused_engine_takes_no_new_business_run :
  planIds (st paused_plan_off) = planIds (st (go engine_paused))
  ∧ subscriptionIds (st paused_plan_off) = subscriptionIds (st (go engine_paused))
  ∧ payments (st paused_plan_off) = payments (st (go engine_paused)).
Proof.
  apply (paused_engine_takes_no_new_business ENGINE nonce_id CALL_DEPTH
           (at_ MERCHANT (t0 + 3)) (CallUpdatePlan 11%N false)
           (go engine_paused) paused_plan_off).
  - apply Bank_callers.
  - vm_compute. reflexivity.
  - vm_compute. reflexivity.
  - vm_compute. reflexivity.
Defined.

Lemma payment_periods_never_overlap_run :
  Forall record_ok (history_at (st (go renewed)) 1%N)
  ∧ in_order (history_at (st (go renewed)) 1%N).
Proof.
  apply (payment_periods_never_overlap ENGINE nonce_id nonce_id_injective).
  apply Runs.go_Reachable. vm_compute. repeat split; congruence.
Defined.

Lemma charge_agrees_with_canCharge_run :
  (∀ reason : Z,
     canCharge ENGINE (at_ STRANGER (t0 + 5)) 1%N (go subscribed)
     = Ok (false, reason) →
     charge ENGINE below (at_ STRANGER (t0 + 5)) 1%N (go subscribed)
     = Ok (false, emit (PaymentFailed 1%N reason) (go subscribed)))
  ∧ (∀ w' : World Bank.t,
       charge ENGINE below (at_ STRANGER (t0 + 5)) 1%N (go subscribed)
       = Ok (true, w') →
       canCharge ENGINE (at_ STRANGER (t0 + 5)) 1%N (go subscribed)
       = Ok (true, 0)).
Proof.
  apply (charge_agrees_with_canCharge ENGINE below (at_ STRANGER (t0 + 5)) 1%N
           (go subscribed)).
  - reflexivity.
  - reflexivity.
  - vm_compute. congruence.
Defined.

Lemma charged_amount_is_plan_amount_run :
  Forall
    (λ r, PaymentRecord.amount r
          = Plan.amount
              (plan_at (st (go renewed))
                 (Subscription.planId (sub_at (st (go renewed)) 1%N))))
    (history_at (st (go renewed)) 1%N).
Proof.
  apply (charged_amount_is_plan_amount ENGINE nonce_id nonce_id_injective).
  apply Runs.go_Reachable. vm_compute. repeat split; congruence.
Defined.

Lemma pay_native_settles_exactly_run :
  Payment.paid
    (payment_at
       (st (step ENGINE nonce_id (go setup)
              (Tx (mkEnv USER 700 t0) (CallPay 78%N 500 0%N MERCHANT)))) 78%N)
  = true
  ∧ ∀ holder,
      Bank.balance
        (ledger (step ENGINE nonce_id (go setup)
                   (Tx (mkEnv USER 700 t0) (CallPay 78%N 500 0%N MERCHANT))))
        0%N holder
      = Bank.balance (ledger (go setup)) 0%N holder
        + (if decide (holder = MERCHANT) then 500 else 0)
        - (if decide (holder = msg_sender (mkEnv USER 700 t0)) then 500 else 0).
Proof.
  apply (pay_native_settles_exactly ENGINE nonce_id (mkEnv USER 700 t0) 78%N 500
           MERCHANT (go setup));
    vm_compute; try split; congruence.
Defined.

Lemma subscribe_native_settles_exactly_run :
  sub_at
    (st (step ENGINE nonce_id (go setup) (Tx (mkEnv USER 1000 t0) (CallSubscribe 12%N))))
    (nonce_id 12%N (msg_sender (mkEnv USER 1000 t0))
       (block_timestamp (mkEnv USER 1000 t0))
       (_subscriptionNonce (st (go setup)) + 1))
  = Subscription.mk
      (nonce_id 12%N (msg_sender (mkEnv USER 1000 t0))
         (block_timestamp (mkEnv USER 1000 t0))
         (_subscriptionNonce (st (go setup)) + 1))
      12%N (msg_sender (mkEnv USER 1000 t0)) Active
      (block_timestamp (mkEnv USER 1000 t0))
      (block_timestamp (mkEnv USER 1000 t0))
      (block_timestamp (mkEnv USER 1000 t0)
       + Plan.interval (plan_at (st (go setup)) 12%N)) false 0 1
  ∧ ∀ holder,
      Bank.balance
        (ledger (step ENGINE nonce_id (go setup)
                   (Tx (mkEnv USER 1000 t0) (CallSubscribe 12%N))))
        0%N holder
      = Bank.balance (ledger (go setup)) 0%N holder
        + (if decide (holder = Plan.merchant (plan_at (st (go setup)) 12%N))
           then Plan.amount (plan_at (st (go setup)) 12%N) else 0)
        - (if decide (holder = msg_sender (mkEnv USER 1000 t0))
           then Plan.amount (plan_at (st (go setup)) 12%N) else 0).
Proof.
  apply (subscribe_native_settles_exactly ENGINE nonce_id (mkEnv USER 1000 t0)
           12%N (go setup));
    vm_compute; try split; congruence.
Defined.

Lemma charge_moves_the_plan_amount_run :
  ∃ w',
    charge ENGINE below due 1%N (go subscribed) = Ok (true, w')
    ∧ Bank.balance (ledger w') TOKEN USER = 3000
    ∧ Bank.balance (ledger w') TOKEN MERCHANT = 2000
    ∧ Bank.balance (ledger w') 0%N USER = 1000
    ∧ Bank.allowed (ledger w') TOKEN USER ENGINE = 3000.
Proof.
  destruct (charge_moves_the_plan_amount ENGINE below due 1%N (go subscribed))
    as (w' & Hcharge & Hbal & Hother & Hallow).
  - reflexivity.
  - reflexivity.
  - vm_compute. congruence.
  - vm_compute. reflexivity.
  - vm_compute. congruence.
  - vm_compute. reflexivity.
  - vm_compute. congruence.
  - vm_compute. congruence.
  - vm_compute. reflexivity.
  - vm_compute. congruence.
  - vm_compute. congruence.
  - vm_compute. congruence.
  - vm_compute. congruence.
  - vm_compute. congruence.
  - exists w'. split; [exact Hcharge|].
    change TOKEN
      with (Plan.token
              (plan_at (st (go subscribed))
                 (Subscription.planId (sub_at (st (go subscribed)) 1%N)))).
    change USER
      with (Subscription.subscriber (sub_at (st (go subscribed)) 1%N)) at 1 3.
    rewrite !Hbal, Hallow. rewrite (Hother 0%N) by (vm_compute; congruence).
    vm_compute. repeat split; reflexivity.
Defined.

Lemma refund_native_settles_exactly_run :
  st (step ENGINE nonce_id (go subscribed_native)
        (Tx (mkEnv MERCHANT 400 (t0 + 5)) (CallRefund 1%N 300 0%N)))
  = st (go subscribed_native)
  ∧ ∀ holder,
      Bank.balance
        (ledger (step ENGINE nonce_id (go subscribed_native)
                   (Tx (mkEnv MERCHANT 400 (t0 + 5)) (CallRefund 1%N 300 0%N))))
        0%N holder
      = Bank.balance (ledger (go subscribed_native)) 0%N holder
        + (if decide
                (holder
                 = (if bool_decide (0%N = 0%N)
                    then Subscription.subscriber
                           (sub_at (st (go subscribed_native)) 1%N)
                    else 0%N))
           then 300 else 0)
        - (if decide (holder = msg_sender (mkEnv MERCHANT 400 (t0 + 5)))
           then 300 else 0).
Proof.
  apply (refund_native_settles_exactly ENGINE nonce_id
           (mkEnv MERCHANT 400 (t0 + 5)) 1%N 300 0%N (go subscribed_native));
    vm_compute; try split; congruence.
Defined.

Lemma subscribe_token_keeps_the_value_sent_run :
  Bank.balance
    (ledger (step ENGINE nonce_id (go setup)
               (Tx (mkEnv USER 50 t0) (CallSubscribe 11%N)))) 0%N ENGINE
  = 50
  ∧ Bank.balance
      (ledger (step ENGINE nonce_id (go setup)
                 (Tx (mkEnv USER 50 t0) (CallSubscribe 11%N)))) TOKEN MERCHANT
    = 1000.
Proof.
  destruct (subscribe_token_keeps_the_value_sent ENGINE nonce_id
              (mkEnv USER 50 t0) 11%N (go setup))
    as (_ & Htoken & Hnative & _).
  - vm_compute. reflexivity.
  - vm_compute. reflexivity.
  - vm_compute. congruence.
  - vm_compute. reflexivity.
  - vm_compute. congruence.
  - vm_compute. reflexivity.
  - vm_compute. split; congruence.
  - vm_compute. congruence.
  - vm_compute. congruence.
  - vm_compute. congruence.
  - vm_compute. congruence.
  - vm_compute. congruence.
  - vm_compute. congruence.
  - split.
    + rewrite (Hnative ENGINE). vm_compute. reflexivity.
    + change TOKEN with (Plan.token (plan_at (st (go setup)) 11%N)).
      rewrite (Htoken MERCHANT). vm_compute. reflexivity.
Defined.

Lemma renewal_without_callbacks_run :
  ∃ w',
    charge ENGINE below late 1%N (go subscribed) = Ok (true, w')
    ∧ sub_at (st w') 1%N
      = Subscription.mk 1%N 11%N USER Active t0 (t0 + MONTH)
          (t0 + MONTH + MONTH) false 0 2
    ∧ history_at (st w') 1%N
      = [PaymentRecord.mk 1000 t0 t0 (t0 + MONTH);
         PaymentRecord.mk 1000 (block_timestamp late) (t0 + MONTH)
           (t0 + MONTH + MONTH)]
    ∧ ledger w' = ledger renewed_world.
Proof.
  refine (renewal_without_callbacks ENGINE below late 1%N (go subscribed)
            (ledger renewed_world) _ _ _ _ _ _ _ _ _);
    vm_compute; congruence.
Defined.

Lemma renewal_pull_outcomes_run :
  ∃ w',
    charge ENGINE below due 1%N (go halted_before_renewal) = Ok (false, w')
    ∧ Subscription.status (sub_at (st w') 1%N) = Expired
    ∧ history_at (st w') 1%N = history_at (st (go halted_before_renewal)) 1%N
    ∧ ledger w' = ledger (go halted_before_renewal).
Proof.
  destruct (proj1 (renewal_pull_outcomes ENGINE below due 1%N
                     (go halted_before_renewal) eq_refl eq_refl
                     ltac:(vm_compute; congruence) eq_refl eq_refl
                     ltac:(vm_compute; congruence)))
    as (w' & Hcharge & Hsub & Hhist & Hledger).
  - vm_compute. reflexivity.
  - exists w'. split; [exact Hcharge|]. split; [|by split].
    rewrite Hsub. reflexivity.
Defined.


(** Why X11 and X19 ask that the owner does not call back: with a token
    that calls the owner's account while it transfers, a charge sent by the
    merchant to the paused engine ends with the engine reopened and a new
    plan listed. *)
Lemma owner_callback_reopens_paused_engine :
  Reachable ENGINE nonce_id (Incidents.go Incidents.paused_hooked)
  ∧ _paused (st (Incidents.go Incidents.paused_hooked)) = true
  ∧ _owner (st (Incidents.go Incidents.paused_hooked)) = OWNER
  ∧ is_ok (Incidents.top (at_ MERCHANT (t0 + MONTH + 5)) (CallCharge 1%N)
             (Incidents.go Incidents.paused_hooked)) = true
  ∧ _paused (st Incidents.paused_hooked_charged) = false
  ∧ planIds (st Incidents.paused_hooked_charged)
    = planIds (st (Incidents.go Incidents.paused_hooked)) ++ [17%N].
Proof.
  split; [apply Runs.incident_Reachable; vm_compute; repeat split; congruence|].
  vm_compute. repeat split; congruence.
Qed.

End MoreRuns.
